(** * Autoclicker: hotkey latch, timed-action workers, macro recorder/player

    A shallow embedding of the automation engine of [autoclicker_app.py]
    (class [AutoClickerApp]) and the properties of it that the design
    document states.

    Conventions of the embedding.
    - Python [float] values (intervals, delays, clock readings) are rationals
      [Q]; Python [int] values are [Z]; [str] is [string], holding the UTF-8
      encoding of the text, and the [str] methods whose result depends on
      the Unicode tables ([strip], [lower], [len]) are taken from the
      runtime; [Set[str]] is [gset string]; the insertion-ordered [dict] of
      hotkeys is an association list with distinct keys.
    - A worker thread is a computation in a small state-and-exception monad.
      Everything it observes from outside its own thread (the cancellation
      event, the wall clock, the outcome of an injection call, a random draw)
      is read from an environment of oracles, indexed by how many
      observations of that kind the thread has made so far; the environment
      also holds [threading.TIMEOUT_MAX], above which a wait on the event is
      refused with [OverflowError].
    - Loops that Python writes as [while] take fuel; running out of fuel
      yields [Pending] (the thread is still running) with the state reached. *)

From stdpp Require Import gmap strings list.
From Stdlib Require Import Ascii QArith ZArith Lia.

Open Scope string_scope.
#[local] Set Warnings "-clear-no-such-hyp".

(* ===================================================================== *)
(** ** Numbers *)
(* ===================================================================== *)

Definition Qlt_bool (a b : Q) : bool := negb (Qle_bool b a).

(** Python's [max(a, b)]: the first argument unless the second is larger. *)
Definition py_max (a b : Q) : Q := if Qlt_bool a b then b else a.

(* ===================================================================== *)
(** ** The input port and what a thread leaves behind *)
(* ===================================================================== *)

(** [pynput.mouse.Button]. *)
Inductive Button := left | right | middle.

(** A key as the code passes it around: a member of [pynput.keyboard.Key]
    (by name), a plain [str], or a [pynput.keyboard.KeyCode] with its
    optional [char] and [vk]. *)
Inductive KeyValue :=
| KeyName (name : string)
| KeyChar (c : string)
| KeyCode (char : option string) (vk : option Z).

(** Calls on the two [pynput] controllers. *)
Inductive call :=
| MousePress (b : Button)
| MouseRelease (b : Button)
| MouseClick (b : Button) (times : Z)
| MouseMove (x y : Z)
| KeyPress (k : KeyValue)
| KeyRelease (k : KeyValue).

(** Status texts a worker posts to the UI. *)
Inductive status :=
| StartingIn (remaining : Q)
| PlayingIn (remaining : Q)
| PlayingLoop (index total : Z)
| StatusText (s : string).

(** What a thread does that is visible outside it, in program order. *)
Inductive event :=
| Inject (c : call) (ok : bool)      (* a controller call and whether it returned *)
| Ui (s : status)                    (* [_safe_call_ui(var.set, ...)] *)
| Sleep (d : Q)                      (* [time.sleep(d)] *)
| Wait (d : Q) (set : bool)          (* [event.wait(d)] and its result *)
| ScheduleFinalize.                  (* [root.after(0, self._finalize_..._stop)] *)

(** The oracles of one thread run. *)
Record Env := {
  stop_at : nat -> bool;             (* k-th look at the thread's stop event *)
  time_at : nat -> Q;                (* k-th reading of [time.time()] *)
  inject_error : nat -> option string; (* k-th controller call: [Some msg] raises *)
  random_at : nat -> Q;              (* k-th [random.random()] *)
  reason_at : nat -> option string;  (* what another thread has stored in the
                                        thread's run-reason field by the k-th
                                        look at the stop event, if anything *)
  TIMEOUT_MAX : positive;            (* [threading.TIMEOUT_MAX], a whole number
                                        of seconds on every platform; the
                                        library documents that a timeout
                                        above it raises [OverflowError] *)
  overflow_message : string          (* the text of that exception *)
}.

Definition timeout_max (env : Env) : Q := inject_Z (Z.pos (TIMEOUT_MAX env)).

Record IO := {
  polls : nat;
  clock_reads : nat;
  injections : nat;
  draws : nat;
  trace : list event
}.

Definition io0 : IO :=
  {| polls := 0; clock_reads := 0; injections := 0; draws := 0; trace := [] |}.

Definition log (e : event) (io : IO) : IO :=
  {| polls := polls io; clock_reads := clock_reads io;
     injections := injections io; draws := draws io;
     trace := trace io ++ [e] |}.

(* ===================================================================== *)
(** ** The thread monad *)
(* ===================================================================== *)

Inductive res (A : Type) :=
| Ok (a : A)
| Raise (msg : string)
| Pending.
Arguments Ok {A} a.
Arguments Raise {A} msg.
Arguments Pending {A}.

(** [R] is the part of the application state the thread owns. *)
Definition M (R A : Type) : Type := Env -> IO * R -> (IO * R) * res A.

Definition ret {R A} (a : A) : M R A := fun _ s => (s, Ok a).

Definition bind {R A B} (m : M R A) (k : A -> M R B) : M R B :=
  fun env s =>
    match m env s with
    | (s', Ok a) => k a env s'
    | (s', Raise msg) => (s', Raise msg)
    | (s', Pending) => (s', Pending)
    end.

Declare Scope thread_scope.
Notation "x ← m ; k" := (bind m (fun x => k))
  (at level 20, m at level 100, k at level 200, only parsing) : thread_scope.
Notation "m ;; k" := (bind m (fun _ => k))
  (at level 100, k at level 200, right associativity, only parsing)
  : thread_scope.
Open Scope thread_scope.

Definition get {R} : M R R := fun _ s => (s, Ok (snd s)).
Definition modify {R} (f : R -> R) : M R unit :=
  fun _ s => ((fst s, f (snd s)), Ok tt).
Definition emit {R} (e : event) : M R unit :=
  fun _ s => ((log e (fst s), snd s), Ok tt).
Definition pending {R A} : M R A := fun _ s => (s, Pending).

(** [try: m  except Exception as exc: h exc]. *)
Definition try_except {R A} (m : M R A) (h : string -> M R A) : M R A :=
  fun env s =>
    match m env s with
    | (s', Raise msg) => h msg env s'
    | r => r
    end.

(** [try: m  finally: f] for a thread: the [finally] block runs when [m]
    returned or raised; a thread that is still running has not reached it. *)
Definition try_finally {R A} (m : M R A) (f : M R unit) : M R A :=
  fun env s =>
    match m env s with
    | (s', Ok a) =>
        match f env s' with
        | (s'', Ok _) => (s'', Ok a)
        | (s'', Raise msg) => (s'', Raise msg)
        | (s'', Pending) => (s'', Pending)
        end
    | (s', Raise msg) =>
        match f env s' with
        | (s'', Ok _) => (s'', Raise msg)
        | (s'', Raise msg') => (s'', Raise msg')
        | (s'', Pending) => (s'', Pending)
        end
    | (s', Pending) => (s', Pending)
    end.

(** Advancing the oracle cursors. *)
Definition next_poll (io : IO) : IO :=
  {| polls := S (polls io); clock_reads := clock_reads io;
     injections := injections io; draws := draws io; trace := trace io |}.
Definition next_clock_read (io : IO) : IO :=
  {| polls := polls io; clock_reads := S (clock_reads io);
     injections := injections io; draws := draws io; trace := trace io |}.
Definition next_injection (io : IO) : IO :=
  {| polls := polls io; clock_reads := clock_reads io;
     injections := S (injections io); draws := draws io; trace := trace io |}.
Definition next_draw (io : IO) : IO :=
  {| polls := polls io; clock_reads := clock_reads io;
     injections := injections io; draws := S (draws io); trace := trace io |}.

(** [event.is_set()]: one look at the stop event. *)
Definition is_set {R} : M R bool :=
  fun env s => ((next_poll (fst s), snd s), Ok (stop_at env (polls (fst s)))).

(** [event.wait(d)]: one look at the stop event, which lasts until the
    event is set or [d] seconds have passed, and returns whether the event
    was set.  On an event that is set it returns at once; on one that is not
    set, a [d] above [threading.TIMEOUT_MAX] makes the underlying
    [lock.acquire] raise [OverflowError] at once. *)
Definition wait {R} (d : Q) : M R bool :=
  fun env s =>
    let r := stop_at env (polls (fst s)) in
    if negb r && Qlt_bool (timeout_max env) d then
      ((next_poll (fst s), snd s), Raise (overflow_message env))
    else ((log (Wait d r) (next_poll (fst s)), snd s), Ok r).

(** [time.time()]. *)
Definition time_time {R} : M R Q :=
  fun env s =>
    ((next_clock_read (fst s), snd s), Ok (time_at env (clock_reads (fst s)))).

(** [random.uniform(a, b)], which CPython computes as
    [a + (b - a) * random()]. *)
Definition random_uniform {R} (a b : Q) : M R Q :=
  fun env s =>
    ((next_draw (fst s), snd s),
     Ok (a + (b - a) * random_at env (draws (fst s)))%Q).

(** A controller call: it is attempted (and logged) and may raise. *)
Definition inject {R} (c : call) : M R unit :=
  fun env s =>
    let r := inject_error env (injections (fst s)) in
    ((log (Inject c (bool_decide (r = None))) (next_injection (fst s)), snd s),
     match r with None => Ok tt | Some msg => Raise msg end).


(** [for x in l: f x]. *)
Fixpoint for_each {R A} (l : list A) (f : A -> M R unit) : M R unit :=
  match l with
  | [] => ret tt
  | x :: rest => f x;; for_each rest f
  end.

(** The start-delay countdown that all three workers open with:
    [while time.time() < deadline and not stop.is_set():
         remaining = max(0.0, deadline - time.time());
         post the status; time.sleep(0.1)]. *)
Fixpoint countdown {R} (mk : Q -> status) (fuel : nat) (deadline : Q)
  : M R unit :=
  match fuel with
  | O => pending
  | S fuel' =>
      now ← time_time;
      if Qlt_bool now deadline then
        set ← is_set;
        if negb set then
          now' ← time_time;
          emit (Ui (mk (py_max 0 (deadline - now'))));;
          emit (Sleep 0.1);;
          countdown mk fuel' deadline
        else ret tt
      else ret tt
  end.

(** [if start_delay > 0: deadline = time.time() + start_delay; countdown]. *)
Definition start_delay_phase {R} (mk : Q -> status) (fuel : nat)
    (start_delay : Q) : M R unit :=
  if Qlt_bool 0 start_delay then
    now ← time_time;
    countdown mk fuel (now + start_delay)
  else ret tt.

(* ===================================================================== *)
(** ** The click worker *)
(* ===================================================================== *)

Module Click.

Record ClickSettings := {
  button : Button;
  mode : string;
  base_interval : Q;
  jitter : Q;
  burst_count : Z;
  start_delay : Q;
  limit_enabled : bool;
  limit_count : Z
}.

(** The fields of the application that the click thread writes. *)
Record Run := {
  clicks_recorded : Z;
  hold_pressed : bool;
  run_reason : string
}.

(** The values [start_clicking] assigns before it starts the thread. *)
Definition run0 : Run :=
  {| clicks_recorded := 0; hold_pressed := false; run_reason := "Running" |}.

Definition add_clicks (n : Z) (r : Run) : Run :=
  {| clicks_recorded := clicks_recorded r + n;
     hold_pressed := hold_pressed r; run_reason := run_reason r |}.
Definition set_hold (b : bool) (r : Run) : Run :=
  {| clicks_recorded := clicks_recorded r;
     hold_pressed := b; run_reason := run_reason r |}.
Definition set_reason (s : string) (r : Run) : Run :=
  {| clicks_recorded := clicks_recorded r;
     hold_pressed := hold_pressed r; run_reason := s |}.

Definition per_click_sleep : Q := 0.01.

Definition click_count (st : ClickSettings) : Z :=
  if String.eqb (mode st) "double" then 2 else 1.

(** [for _ in range(settings.burst_count): ...], [n] repetitions to go. *)
Fixpoint burst (st : ClickSettings) (n : nat) : M Run unit :=
  match n with
  | O => ret tt
  | S n' =>
      set ← is_set;
      if set then ret tt
      else
        inject (MouseClick (button st) (click_count st));;
        modify (add_clicks (click_count st));;
        (if (1 <? burst_count st)%Z then
           set' ← is_set;
           if negb set' then (_ ← wait per_click_sleep; ret tt) else ret tt
         else ret tt);;
        burst st n'
  end.

Definition next_delay (st : ClickSettings) : M Run Q :=
  if Qlt_bool 0 (jitter st) then
    u ← random_uniform (- jitter st) (jitter st);
    ret (py_max 0.005 (base_interval st + u))
  else ret (base_interval st).

(** [while not self.stop_event.is_set(): ...]. *)
Fixpoint loop (fuel : nat) (st : ClickSettings) : M Run unit :=
  match fuel with
  | O => pending
  | S fuel' =>
      set ← is_set;
      if set then ret tt
      else
        r ← get;
        if limit_enabled st && (limit_count st <=? clicks_recorded r)%Z then
          modify (set_reason "Limit reached")
        else if String.eqb (mode st) "hold" then
          (if negb (hold_pressed r) then
             inject (MousePress (button st));;
             modify (set_hold true)
           else ret tt);;
          set' ← wait 0.05;
          if set' then ret tt else loop fuel' st
        else
          burst st (Z.to_nat (burst_count st));;
          d ← next_delay st;
          set' ← wait d;
          if set' then ret tt else loop fuel' st
  end.

Definition cleanup (st : ClickSettings) : M Run unit :=
  r ← get;
  (if hold_pressed r then
     try_except (inject (MouseRelease (button st))) (fun _ => ret tt);;
     modify (set_hold false)
   else ret tt);;
  emit ScheduleFinalize.

(** [_click_worker]. *)
Definition click_worker (fuel : nat) (st : ClickSettings) : M Run unit :=
  try_finally
    (try_except
       (start_delay_phase StartingIn fuel (start_delay st);;
        emit (Ui (StatusText "Running"));;
        loop fuel st)
       (fun msg => modify (set_reason ("Error: " ++ msg))))
    (cleanup st).

End Click.

(* ===================================================================== *)
(** ** The key worker *)
(* ===================================================================== *)

Module Key.

Record KeyPressSettings := {
  sequence : list KeyValue;
  mode : string;
  base_interval : Q;
  jitter : Q;
  burst_count : Z;
  start_delay : Q;
  limit_enabled : bool;
  limit_count : Z
}.

Record Run := {
  key_cycles_recorded : Z;
  key_hold_active : bool;
  key_run_reason : string
}.

(** The values [start_key_pressing] assigns before it starts the thread. *)
Definition run0 : Run :=
  {| key_cycles_recorded := 0; key_hold_active := false;
     key_run_reason := "Running" |}.

Definition set_cycles (n : Z) (r : Run) : Run :=
  {| key_cycles_recorded := n; key_hold_active := key_hold_active r;
     key_run_reason := key_run_reason r |}.
Definition set_hold (b : bool) (r : Run) : Run :=
  {| key_cycles_recorded := key_cycles_recorded r; key_hold_active := b;
     key_run_reason := key_run_reason r |}.
Definition set_reason (s : string) (r : Run) : Run :=
  {| key_cycles_recorded := key_cycles_recorded r;
     key_hold_active := key_hold_active r; key_run_reason := s |}.

Definition press_sequence (seq : list KeyValue) : M Run unit :=
  for_each seq (fun k => inject (KeyPress k)).

Definition release_sequence (seq : list KeyValue) : M Run unit :=
  for_each (rev seq) (fun k => inject (KeyRelease k)).

(** [_tap_sequence(sequence, repeats)]. *)
Fixpoint tap_sequence (seq : list KeyValue) (repeats : nat) : M Run unit :=
  match repeats with
  | O => ret tt
  | S n =>
      press_sequence seq;;
      emit (Sleep 0.01);;
      release_sequence seq;;
      emit (Sleep 0.01);;
      tap_sequence seq n
  end.

Definition per_cycle_sleep : Q := 0.02.

Definition repeats (st : KeyPressSettings) : nat :=
  if String.eqb (mode st) "double" then 2%nat else 1%nat.

Fixpoint burst (st : KeyPressSettings) (n : nat) : M Run unit :=
  match n with
  | O => ret tt
  | S n' =>
      set ← is_set;
      if set then ret tt
      else
        tap_sequence (sequence st) (repeats st);;
        modify (fun r => set_cycles (key_cycles_recorded r + 1) r);;
        (if (1 <? burst_count st)%Z then
           set' ← is_set;
           if negb set' then (_ ← wait per_cycle_sleep; ret tt) else ret tt
         else ret tt);;
        burst st n'
  end.

Definition next_delay (st : KeyPressSettings) : M Run Q :=
  if Qlt_bool 0 (jitter st) then
    u ← random_uniform (- jitter st) (jitter st);
    ret (py_max 0.01 (base_interval st + u))
  else ret (base_interval st).

(** [while not self.key_stop_event.is_set(): ...]. *)
Fixpoint loop (fuel : nat) (st : KeyPressSettings) : M Run unit :=
  match fuel with
  | O => pending
  | S fuel' =>
      set ← is_set;
      if set then ret tt
      else
        r ← get;
        if limit_enabled st && (limit_count st <=? key_cycles_recorded r)%Z
        then modify (set_reason "Limit reached")
        else if String.eqb (mode st) "hold" then
          (if negb (key_hold_active r) then
             press_sequence (sequence st);;
             modify (set_hold true);;
             modify (fun r' =>
                       if (key_cycles_recorded r' =? 0)%Z
                       then set_cycles 1 r' else r')
           else ret tt);;
          set' ← wait 0.05;
          if set' then ret tt else loop fuel' st
        else
          burst st (Z.to_nat (burst_count st));;
          d ← next_delay st;
          set' ← wait d;
          if set' then ret tt else loop fuel' st
  end.

Definition cleanup (st : KeyPressSettings) : M Run unit :=
  r ← get;
  (if key_hold_active r then
     try_except (release_sequence (sequence st)) (fun _ => ret tt);;
     modify (set_hold false)
   else ret tt);;
  emit ScheduleFinalize.

(** [_key_worker]. *)
Definition key_worker (fuel : nat) (st : KeyPressSettings) : M Run unit :=
  try_finally
    (try_except
       (start_delay_phase StartingIn fuel (start_delay st);;
        emit (Ui (StatusText "Running"));;
        loop fuel st)
       (fun msg => modify (set_reason ("Error: " ++ msg))))
    (cleanup st).

End Key.

(* ===================================================================== *)
(** ** Macro recorder and player *)
(* ===================================================================== *)

Module Macro.

Record MacroEvent := {
  kind : string;
  action : string;
  delay : Q;
  key_value : option KeyValue;
  mouse_button : option Button;
  position : option (Z * Z)
}.

(** The macro fields of the application.  [macro_playing] stands for
    [self.macro_play_thread and self.macro_play_thread.is_alive()]. *)
Record State := {
  macro_events : list MacroEvent;
  macro_recording : bool;
  block_macro_capture : bool;
  macro_start_time : option Q;
  macro_last_timestamp : option Q;
  macro_run_reason : string;
  macro_playing : bool
}.

(** The values [__init__] assigns. *)
Definition init : State :=
  {| macro_events := []; macro_recording := false;
     block_macro_capture := false; macro_start_time := None;
     macro_last_timestamp := None; macro_run_reason := "Idle";
     macro_playing := false |}.

(** [_record_macro_event]; [now] is the reading of [time.perf_counter()]. *)
Definition record_macro_event (now : Q) (kind action : string)
    (key_value : option KeyValue) (mouse_button : option Button)
    (position : option (Z * Z)) (m : State) : State :=
  if negb (macro_recording m) || block_macro_capture m then m
  else
    let start_time :=
      match macro_start_time m with None => now | Some t => t end in
    let delay :=
      match macro_last_timestamp m with
      | None => (now - start_time)%Q
      | Some last => (now - last)%Q
      end in
    let event :=
      {| kind := kind; action := action; delay := py_max 0 delay;
         key_value := key_value; mouse_button := mouse_button;
         position := position |} in
    {| macro_events := macro_events m ++ [event];
       macro_recording := macro_recording m;
       block_macro_capture := block_macro_capture m;
       macro_start_time := Some start_time;
       macro_last_timestamp := Some now;
       macro_run_reason := macro_run_reason m;
       macro_playing := macro_playing m |}.

Definition press_or_release (pressed : bool) : string :=
  if pressed then "press" else "release".

(** [_handle_mouse_click]. *)
Definition handle_mouse_click (now : Q) (x y : Z) (button : Button)
    (pressed : bool) (m : State) : State :=
  if negb (macro_recording m) || block_macro_capture m then m
  else record_macro_event now "mouse" (press_or_release pressed)
         None (Some button) (Some (x, y)) m.

(** [_normalize_macro_key]. *)
Definition normalize_macro_key (raw_key : KeyValue) : KeyValue :=
  match raw_key with
  | KeyCode char vk =>
      match char with
      | Some c =>
          if negb (String.eqb c "") then KeyChar c
          else match vk with
               | Some v => KeyCode None (Some v)
               | None => raw_key
               end
      | None =>
          match vk with
          | Some v => KeyCode None (Some v)
          | None => raw_key
          end
      end
  | _ => raw_key
  end.

(** [_maybe_record_macro_key_event]; [rebinding] is the truth value of
    [self.recording_target]. *)
Definition maybe_record_macro_key_event (now : Q) (raw_key : KeyValue)
    (pressed : bool) (rebinding : bool) (m : State) : State :=
  if negb (macro_recording m) || block_macro_capture m || rebinding then m
  else record_macro_event now "key" (press_or_release pressed)
         (Some (normalize_macro_key raw_key)) None None m.

(** [start_macro_recording]. *)
Definition start_macro_recording (now : Q) (m : State) : State :=
  if macro_playing m then m
  else
    {| macro_events := []; macro_recording := true;
       block_macro_capture := false; macro_start_time := Some now;
       macro_last_timestamp := None; macro_run_reason := "Recording";
       macro_playing := macro_playing m |}.

(** [stop_macro_recording]. *)
Definition stop_macro_recording (m : State) : State :=
  if negb (macro_recording m) then m
  else
    {| macro_events := macro_events m; macro_recording := false;
       block_macro_capture := block_macro_capture m;
       macro_start_time := None; macro_last_timestamp := None;
       macro_run_reason :=
         if (length (macro_events m) =? 0)%nat then "Idle" else "Ready";
       macro_playing := macro_playing m |}.

(** One raw input delivered by the listeners while a session is armed. *)
Inductive raw_input :=
| RawKey (raw_key : KeyValue) (pressed : bool) (rebinding : bool)
| RawClick (x y : Z) (button : Button) (pressed : bool).

Definition deliver (now : Q) (i : raw_input) (m : State) : State :=
  match i with
  | RawKey raw_key pressed rebinding =>
      maybe_record_macro_key_event now raw_key pressed rebinding m
  | RawClick x y button pressed =>
      handle_mouse_click now x y button pressed m
  end.

(** A recording session: arm at [t0], then the timed inputs in order. *)
Definition session (t0 : Q) (inputs : list (Q * raw_input)) (m : State)
  : State :=
  fold_left (fun m' ti => deliver (fst ti) (snd ti) m') inputs
            (start_macro_recording t0 m).

(** *** Playback *)

(** The field of the application that the playback thread writes. *)
Record Run := { run_reason : string }.

(** The value [play_macro] assigns before it starts the thread. *)
Definition run0 : Run := {| run_reason := "Playing" |}.

(** A read of [self.macro_run_reason] by the playback thread. *)
Definition read_reason : M Run string :=
  fun env s =>
    (s, Ok match reason_at env (polls (fst s)) with
           | Some r => r
           | None => run_reason (snd s)
           end).

(** What [self.macro_run_reason] holds once the thread is at state [s]. *)
Definition terminal_reason (env : Env) (s : IO * Run) : string :=
  match reason_at env (polls (fst s)) with
  | Some r => r
  | None => run_reason (snd s)
  end.

Definition swallow (m : M Run unit) : M Run unit :=
  try_except m (fun _ => ret tt).

(** [_apply_macro_event]. *)
Definition apply_macro_event (e : MacroEvent) : M Run unit :=
  if String.eqb (kind e) "key" then
    match key_value e with
    | None => ret tt
    | Some k =>
        swallow (if String.eqb (action e) "press"
                 then inject (KeyPress k) else inject (KeyRelease k))
    end
  else if String.eqb (kind e) "mouse" then
    match position e with
    | Some (x, y) => swallow (inject (MouseMove x y))
    | None => ret tt
    end;;
    match mouse_button e with
    | None => ret tt
    | Some b =>
        swallow (if String.eqb (action e) "press"
                 then inject (MousePress b) else inject (MouseRelease b))
    end
  else ret tt.

(** [for event in events: ...]; the result says whether the loop ran to
    its [else] branch ([true]) or left through a [break] ([false]). *)
Fixpoint play_events (events : list MacroEvent) : M Run bool :=
  match events with
  | [] => ret true
  | e :: rest =>
      stopped ← is_set;
      if stopped then ret false
      else
        interrupted ← (if Qlt_bool 0 (delay e) then wait (delay e)
                       else ret false);
        if interrupted then ret false
        else apply_macro_event e;; play_events rest
  end.

(** [for loop_index in range(loops): ...], [n] loops to go; the result
    says whether the outer loop ran to its [else] branch. *)
Fixpoint play_loops (events : list MacroEvent) (loops : Z) (n : nat)
    (loop_index : Z) : M Run bool :=
  match n with
  | O => ret true
  | S n' =>
      stopped ← is_set;
      if stopped then ret false
      else
        emit (Ui (PlayingLoop (loop_index + 1) loops));;
        finished ← play_events events;
        if finished then play_loops events loops n' (loop_index + 1)
        else ret false
  end.

(** [_macro_play_worker]. *)
Definition macro_play_worker (fuel : nat) (events : list MacroEvent)
    (loops : Z) (start_delay : Q) : M Run unit :=
  try_finally
    (try_except
       (start_delay_phase PlayingIn fuel start_delay;;
        emit (Ui (StatusText "Playing"));;
        finished ← play_loops events loops (Z.to_nat loops) 0;
        if finished then
          reason ← read_reason;
          if String.eqb reason "Playing"
          then modify (fun _ => {| run_reason := "Completed" |})
          else ret tt
        else ret tt)
       (fun msg => modify (fun _ => {| run_reason := "Error: " ++ msg |})))
    (emit ScheduleFinalize).

End Macro.

(* ===================================================================== *)
(** ** Hotkey matcher *)
(* ===================================================================== *)

Module Hotkey.

Record HotkeyBinding := {
  label : string;
  tokens : gset string;
  display_text : string
}.

(** [HotkeyBinding.matches]. *)
Definition matches (b : HotkeyBinding) (pressed : gset string) : bool :=
  negb (bool_decide (tokens b = ∅)) && bool_decide (tokens b ⊆ pressed).

(** [self.hotkeys]: an insertion-ordered [dict]. *)
Definition dict : Type := list (string * HotkeyBinding).

(** [d.get(k)] / [d[k]] ([None] is Python's [KeyError]). *)
Fixpoint lookup_key (k : string) (d : dict) : option HotkeyBinding :=
  match d with
  | [] => None
  | (k', b) :: rest => if String.eqb k' k then Some b else lookup_key k rest
  end.

(** [d[k] = b] for a key that may or may not be present: an existing key
    keeps its place, a new one goes last. *)
Fixpoint assign (k : string) (b : HotkeyBinding) (d : dict) : dict :=
  match d with
  | [] => [(k, b)]
  | (k', b') :: rest =>
      if String.eqb k' k then (k', b) :: rest else (k', b') :: assign k b rest
  end.

Definition keys (d : dict) : list string := map fst d.

(** The commands a hotkey can invoke. *)
Inductive Action := toggle_clicking | toggle_key_pressing | panic_stop.

(** The [if]/[elif] chain of [_process_hotkey_triggers]. *)
Definition dispatch (hotkey_id : string) : option Action :=
  if String.eqb hotkey_id "mouse_toggle" then Some toggle_clicking
  else if String.eqb hotkey_id "key_toggle" then Some toggle_key_pressing
  else if String.eqb hotkey_id "panic" then Some panic_stop
  else None.

Record State := {
  pressed_tokens : gset string;
  trigger_latch : gset string;
  recording_target : option string;
  recording_buffer : gset string;
  hotkeys : dict
}.

(** The values [__init__] assigns. *)
Definition default_hotkeys : dict :=
  [ ("mouse_toggle",
     {| label := "Toggle Mouse Clicker"; tokens := {["f6"]};
        display_text := "F6" |});
    ("key_toggle",
     {| label := "Toggle Key Macro"; tokens := {["f8"]};
        display_text := "F8" |});
    ("panic",
     {| label := "Emergency Halt"; tokens := {["f7"]};
        display_text := "F7" |}) ].

Definition init : State :=
  {| pressed_tokens := ∅; trigger_latch := ∅; recording_target := None;
     recording_buffer := ∅; hotkeys := default_hotkeys |}.

(** Truth value of [self.recording_target] (an [Optional[str]]). *)
Definition rebinding (st : State) : bool :=
  match recording_target st with
  | Some t => negb (String.eqb t "")
  | None => false
  end.

(** The loop of [_process_hotkey_triggers] over [self.hotkeys.items()]:
    the latch as it grows and the ids whose branch was taken, in order. *)
Fixpoint trigger_loop (pressed : gset string) (items : dict)
    (latch : gset string) : gset string * list string :=
  match items with
  | [] => (latch, [])
  | (hotkey_id, binding) :: rest =>
      if matches binding pressed && negb (bool_decide (hotkey_id ∈ latch))
      then
        let '(latch', fired) :=
          trigger_loop pressed rest (latch ∪ {[hotkey_id]}) in
        (latch', hotkey_id :: fired)
      else trigger_loop pressed rest latch
  end.

Definition with_latch (latch : gset string) (st : State) : State :=
  {| pressed_tokens := pressed_tokens st; trigger_latch := latch;
     recording_target := recording_target st;
     recording_buffer := recording_buffer st; hotkeys := hotkeys st |}.

(** [_process_hotkey_triggers]: the new state and the ids that fired. *)
Definition process_hotkey_triggers (st : State) : State * list string :=
  let '(latch, fired) :=
    trigger_loop (pressed_tokens st) (hotkeys st) (trigger_latch st) in
  (with_latch latch st, fired).

(** The actions a list of fired ids invokes. *)
Definition actions (fired : list string) : list Action :=
  omap dispatch fired.

(** [not self.hotkeys[hid].matches(self.pressed_tokens)], for [hid] a key. *)
Definition unmatched (st : State) (hid : string) : bool :=
  match lookup_key hid (hotkeys st) with
  | Some b => negb (matches b (pressed_tokens st))
  | None => false
  end.

(** [_release_latched_hotkeys]; [None] is the [KeyError] of
    [self.hotkeys[hid]] for a latched id that is not a key. *)
Definition release_latched_hotkeys (st : State) : option State :=
  if decide (set_Forall (fun hid => is_Some (lookup_key hid (hotkeys st)))
                        (trigger_latch st))
  then
    let to_release : gset string :=
      filter (fun hid => unmatched st hid = true) (trigger_latch st) in
    Some (with_latch (trigger_latch st ∖ to_release) st)
  else None.

(** [_begin_hotkey_recording]. *)
Definition begin_hotkey_recording (hotkey_id : string) (st : State) : State :=
  if rebinding st then st
  else
    {| pressed_tokens := pressed_tokens st;
       trigger_latch := trigger_latch st;
       recording_target := Some hotkey_id;
       recording_buffer := ∅; hotkeys := hotkeys st |}.

Section Rebind.

(** [_format_tokens], the display text of a token set: presentation only. *)
Variable format_tokens : gset string -> string.

(** [_update_hotkey_binding]: the dictionary afterwards and the text of
    the warning dialog, if one was shown; [None] is Python's [KeyError]. *)
Definition update_hotkey_binding (hotkey_id : string)
    (new_tokens : gset string) (d : dict) : option (dict * option string) :=
  if bool_decide (new_tokens = ∅) then
    Some (d, Some "Please press at least one key for the hotkey.")
  else
    let collision :=
      filter (fun kb => negb (String.eqb (fst kb) hotkey_id)
                        && bool_decide (tokens (snd kb) = new_tokens) = true)
             d in
    match collision with
    | (hid, _) :: _ =>
        match lookup_key hid d with
        | Some b =>
            Some (d, Some ("This key combination is already used by "
                             ++ label b ++ "."))
        | None => None
        end
    | [] =>
        match lookup_key hotkey_id d with
        | Some old =>
            Some (assign hotkey_id
                    {| label := label old; tokens := new_tokens;
                       display_text := format_tokens new_tokens |} d,
                  None)
        | None => None
        end
    end.

(** What a key handler hands back: the new hotkey and macro state, the
    hotkey ids that fired, and a warning dialog if one was shown. *)
Record outcome := {
  hk : State;
  macro : Macro.State;
  fired : list string;
  warned : option string
}.

(** [_handle_key_press]; [raw_key] is [None] when the caller passes no
    raw key, [now] is the clock reading the recorder would take. *)
Definition handle_key_press (now : Q) (token : string)
    (raw_key : option KeyValue) (st : State) (m : Macro.State) : outcome :=
  let st1 :=
    {| pressed_tokens := pressed_tokens st ∪ {[token]};
       trigger_latch := trigger_latch st;
       recording_target := recording_target st;
       recording_buffer := recording_buffer st; hotkeys := hotkeys st |} in
  let m1 :=
    match raw_key with
    | Some raw => Macro.maybe_record_macro_key_event now raw true
                    (rebinding st1) m
    | None => m
    end in
  if rebinding st1 then
    {| hk := {| pressed_tokens := pressed_tokens st1;
                trigger_latch := trigger_latch st1;
                recording_target := recording_target st1;
                recording_buffer := recording_buffer st1 ∪ {[token]};
                hotkeys := hotkeys st1 |};
       macro := m1; fired := []; warned := None |}
  else
    let '(st2, ids) := process_hotkey_triggers st1 in
    {| hk := st2; macro := m1; fired := ids; warned := None |}.

(** [_handle_key_release]; the result is [None] where Python raises
    [KeyError]. *)
Definition handle_key_release (now : Q) (token : string)
    (raw_key : option KeyValue) (st : State) (m : Macro.State)
  : option outcome :=
  let st1 :=
    {| pressed_tokens := pressed_tokens st ∖ {[token]};
       trigger_latch := trigger_latch st;
       recording_target := recording_target st;
       recording_buffer := recording_buffer st; hotkeys := hotkeys st |} in
  let m1 :=
    match raw_key with
    | Some raw => Macro.maybe_record_macro_key_event now raw false
                    (rebinding st1) m
    | None => m
    end in
  if rebinding st1 && bool_decide (pressed_tokens st1 = ∅) then
    let target := default "" (recording_target st1) in
    let cleared d :=
      {| pressed_tokens := pressed_tokens st1;
         trigger_latch := trigger_latch st1;
         recording_target := None; recording_buffer := ∅;
         hotkeys := d |} in
    if bool_decide (recording_buffer st1 = ∅) then
      Some {| hk := cleared (hotkeys st1); macro := m1; fired := [];
              warned := None |}
    else
      match update_hotkey_binding target (recording_buffer st1)
              (hotkeys st1) with
      | Some (d, w) =>
          Some {| hk := cleared d; macro := m1; fired := [];
                  warned := w |}
      | None => None
      end
  else
    match release_latched_hotkeys st1 with
    | Some st2 =>
        Some {| hk := st2; macro := m1; fired := []; warned := None |}
    | None => None
    end.

(** The label a key release writes, if it writes one: the
    [var.set("Unset")] of [_handle_key_release] when a rebind ends with
    nothing buffered ([var] being the target's entry of [self.hotkey_vars],
    which has the keys of [self.hotkeys]), and the
    [self.hotkey_vars[hotkey_id].set(display)] of [_update_hotkey_binding]
    when it accepts the buffered tokens. *)
Definition label_written (token : string) (st : State)
  : option (string * string) :=
  if rebinding st && bool_decide (pressed_tokens st ∖ {[token]} = ∅) then
    let target := default "" (recording_target st) in
    if bool_decide (recording_buffer st = ∅) then
      match lookup_key target (hotkeys st) with
      | Some _ => Some (target, "Unset")
      | None => None
      end
    else
      match update_hotkey_binding target (recording_buffer st)
              (hotkeys st) with
      | Some (_, None) =>
          Some (target, format_tokens (recording_buffer st))
      | _ => None
      end
  else None.

End Rebind.

End Hotkey.

(* ===================================================================== *)
(** ** Settings snapshots and the start commands *)
(* ===================================================================== *)

Module Settings.

(** A value or the [ValueError] raised instead. *)
Inductive result (A : Type) :=
| Valid (a : A)
| ValueError (msg : string).
Arguments Valid {A} a.
Arguments ValueError {A} msg.

(** The Tk variables of the click tab, by the values their [get()]
    returns ([DoubleVar], [IntVar], [BooleanVar], [StringVar]). *)
Record ClickForm := {
  delay_var : Q;
  jitter_var : Q;
  burst_var : Z;
  start_delay_var : Q;
  limit_enabled_var : bool;
  limit_count_var : Z;
  button_var : string;
  mode_var : string
}.

(** [BUTTON_MAP.get]. *)
Definition BUTTON_MAP (k : string) : option Button :=
  if String.eqb k "left" then Some left
  else if String.eqb k "right" then Some right
  else if String.eqb k "middle" then Some middle
  else None.

Definition string_in (s : string) (l : list string) : bool :=
  existsb (String.eqb s) l.

(** [_collect_settings]. *)
Definition collect_settings (f : ClickForm) : result Click.ClickSettings :=
  let delay_ms := delay_var f in
  let jitter_ms := jitter_var f in
  let burst := burst_var f in
  let start_delay_s := start_delay_var f in
  let limit_count := limit_count_var f in
  if Qle_bool delay_ms 0 then
    ValueError "Delay per cycle must be greater than zero."
  else if Qlt_bool jitter_ms 0 then
    ValueError "Random jitter cannot be negative."
  else if Qlt_bool delay_ms jitter_ms then
    ValueError "Random jitter should not exceed the base delay."
  else if (burst <=? 0)%Z then
    ValueError "Clicks per cycle must be at least 1."
  else if Qlt_bool start_delay_s 0 then
    ValueError "Start delay cannot be negative."
  else if limit_enabled_var f && (limit_count <=? 0)%Z then
    ValueError "Click limit must be at least 1."
  else
    match BUTTON_MAP (button_var f) with
    | None => ValueError "Unsupported mouse button selection."
    | Some button =>
        let mode := mode_var f in
        if negb (string_in mode ["single"; "double"; "hold"]) then
          ValueError "Invalid click mode selected."
        else
          Valid {| Click.button := button;
                   Click.mode := mode;
                   Click.base_interval := py_max 0.005 (delay_ms / 1000);
                   Click.jitter := (jitter_ms / 1000)%Q;
                   Click.burst_count := burst;
                   Click.start_delay := start_delay_s;
                   Click.limit_enabled := limit_enabled_var f;
                   Click.limit_count := limit_count |}
    end.

(** The click-run fields of the application.  [threads_started] lists the
    arguments of every [threading.Thread(...).start()] so far;
    [click_thread] is the argument of the thread the field refers to. *)
Record ClickApp := {
  is_running : bool;
  stop_event : bool;
  start_timestamp : option Q;
  last_elapsed_seconds : Z;
  click_run : Click.Run;
  click_thread : option Click.ClickSettings;
  threads_started : list Click.ClickSettings
}.

(** [start_clicking]; [now] is the reading of [time.time()]; the second
    component is the text of the error dialog, if one was shown. *)
Definition start_clicking (now : Q) (f : ClickForm) (app : ClickApp)
  : ClickApp * option string :=
  if is_running app then (app, None)
  else
    match collect_settings f with
    | ValueError msg => (app, Some msg)
    | Valid settings =>
        ({| is_running := true;
            stop_event := false;
            start_timestamp := Some now;
            last_elapsed_seconds := 0;
            click_run := Click.run0;
            click_thread := Some settings;
            threads_started := threads_started app ++ [settings] |},
         None)
    end.

(** *** The key tab *)

(** The [str] methods [_parse_key_sequence] calls.  A [string] holds the
    UTF-8 encoding of the entered text; what [strip], [lower] and [len] do
    to text outside ASCII is decided by the Unicode tables of the runtime,
    so the parser takes the three methods as they come. *)
Record Str := {
  strip : string -> string;
  lower : string -> string;
  len : string -> nat
}.

(** The three methods on ASCII text: [ascii_strip] and [ascii_lower] act
    on ASCII whitespace and letters and leave every other character alone;
    [utf8_len] counts the characters of any text, one per byte that does
    not continue a multi-byte character. *)
Definition is_space (a : ascii) : bool :=
  let n := nat_of_ascii a in
  ((9 <=? n) && (n <=? 13) || (28 <=? n) && (n <=? 32))%nat.

Fixpoint lstrip (l : list ascii) : list ascii :=
  match l with
  | a :: rest => if is_space a then lstrip rest else l
  | [] => []
  end.

Definition ascii_strip (s : string) : string :=
  String.string_of_list_ascii
    (rev (lstrip (rev (lstrip (String.list_ascii_of_string s))))).

Definition lower_ascii (a : ascii) : ascii :=
  let n := nat_of_ascii a in
  if ((65 <=? n) && (n <=? 90))%nat then ascii_of_nat (n + 32) else a.

Definition ascii_lower (s : string) : string :=
  String.string_of_list_ascii (map lower_ascii (String.list_ascii_of_string s)).

Definition utf8_len (s : string) : nat :=
  length (filter (fun a => let n := nat_of_ascii a in
                           ((n <? 128) || (192 <=? n))%nat = true)
                 (String.list_ascii_of_string s)).

Definition ascii_str : Str :=
  {| strip := ascii_strip; lower := ascii_lower; len := utf8_len |}.

(** [s.split("+")]; the byte of [+] occurs in no other character's
    encoding. *)
Fixpoint split_plus (s : string) (cur : string) : list string :=
  match s with
  | EmptyString => [cur]
  | String a rest =>
      if Ascii.eqb a "+"%char then cur :: split_plus rest ""
      else split_plus rest (cur ++ String a EmptyString)
  end.

Record KeyForm := {
  key_sequence_var : string;
  key_delay_var : Q;
  key_jitter_var : Q;
  key_burst_var : Z;
  key_start_delay_var : Q;
  key_limit_enabled_var : bool;
  key_limit_count_var : Z;
  key_mode_var : string
}.

Record KeyApp := {
  key_is_running : bool;
  key_stop_event : bool;
  key_start_timestamp : option Q;
  key_last_elapsed_seconds : Z;
  key_run : Key.Run;
  active_key_sequence : option (list KeyValue);
  key_thread : option Key.KeyPressSettings;
  key_threads_started : list Key.KeyPressSettings
}.

Section KeyNames.

Variable str : Str.

(** Whether [getattr(keyboard.Key, name)] finds an attribute; the
    enumeration belongs to [pynput]. *)
Variable has_key_attribute : string -> bool.

(** The [for token in tokens] loop of [_parse_key_sequence]. *)
Fixpoint resolve (tokens : list string) : result (list KeyValue) :=
  match tokens with
  | [] => Valid []
  | token :: rest =>
      let lower := lower str token in
      let this :=
        if (len str lower =? 1)%nat then Valid (KeyChar lower)
        else if has_key_attribute lower then Valid (KeyName lower)
        else ValueError ("Unknown key token: " ++ token) in
      match this with
      | ValueError msg => ValueError msg
      | Valid k =>
          match resolve rest with
          | ValueError msg => ValueError msg
          | Valid ks => Valid (k :: ks)
          end
      end
  end.

(** [[token.strip() for token in raw.split("+") if token.strip()]]. *)
Definition tokens_of (raw : string) : list string :=
  map (strip str)
      (filter (fun t => negb (String.eqb (strip str t) "") = true)
              (split_plus raw "")).

(** [_parse_key_sequence]. *)
Definition parse_key_sequence (raw : string) : result (list KeyValue) :=
  let tokens := tokens_of raw in
  match tokens with
  | [] => ValueError "Enter at least one key for the macro."
  | _ => resolve tokens
  end.

(** [_collect_key_settings]. *)
Definition collect_key_settings (f : KeyForm)
  : result Key.KeyPressSettings :=
  match parse_key_sequence (key_sequence_var f) with
  | ValueError msg => ValueError msg
  | Valid sequence =>
      let delay_ms := key_delay_var f in
      let jitter_ms := key_jitter_var f in
      let burst := key_burst_var f in
      let start_delay_s := key_start_delay_var f in
      let limit_count := key_limit_count_var f in
      if Qle_bool delay_ms 0 then
        ValueError "Delay per cycle must be greater than zero."
      else if Qlt_bool jitter_ms 0 then
        ValueError "Random jitter cannot be negative."
      else if Qlt_bool delay_ms jitter_ms then
        ValueError "Random jitter should not exceed the base delay."
      else if (burst <=? 0)%Z then
        ValueError "Cycles per batch must be at least 1."
      else if Qlt_bool start_delay_s 0 then
        ValueError "Start delay cannot be negative."
      else if key_limit_enabled_var f && (limit_count <=? 0)%Z then
        ValueError "Cycle limit must be at least 1."
      else
        let mode := key_mode_var f in
        if negb (string_in mode ["tap"; "double"; "hold"]) then
          ValueError "Invalid key mode selected."
        else
          Valid {| Key.sequence := sequence;
                   Key.mode := mode;
                   Key.base_interval := py_max 0.01 (delay_ms / 1000);
                   Key.jitter := (jitter_ms / 1000)%Q;
                   Key.burst_count := burst;
                   Key.start_delay := start_delay_s;
                   Key.limit_enabled := key_limit_enabled_var f;
                   Key.limit_count := limit_count |}
  end.

(** [start_key_pressing]. *)
Definition start_key_pressing (now : Q) (f : KeyForm) (app : KeyApp)
  : KeyApp * option string :=
  if key_is_running app then (app, None)
  else
    match collect_key_settings f with
    | ValueError msg => (app, Some msg)
    | Valid settings =>
        ({| key_is_running := true;
            key_stop_event := false;
            key_start_timestamp := Some now;
            key_last_elapsed_seconds := 0;
            key_run := Key.run0;
            active_key_sequence := Some (Key.sequence settings);
            key_thread := Some settings;
            key_threads_started := key_threads_started app ++ [settings] |},
         None)
    end.

End KeyNames.

End Settings.

(* ===================================================================== *)
(** * Properties *)
(* ===================================================================== *)

(** ** Numbers *)

Lemma Qlt_bool_iff a b : Qlt_bool a b = true <-> (a < b)%Q.
Proof.
  unfold Qlt_bool. rewrite negb_true_iff. split.
  - intros H. apply Qnot_le_lt. intros Hle.
    apply Qle_bool_iff in Hle. congruence.
  - intros H. destruct (Qle_bool b a) eqn:E; [|reflexivity].
    apply Qle_bool_iff in E. exfalso. exact (Qlt_not_le _ _ H E).
Qed.

Lemma Qlt_bool_false a b : Qlt_bool a b = false <-> (b <= a)%Q.
Proof.
  unfold Qlt_bool. rewrite negb_false_iff. apply Qle_bool_iff.
Qed.

Lemma Qle_bool_false a b : Qle_bool a b = false <-> (b < a)%Q.
Proof.
  rewrite <- Qlt_bool_iff. unfold Qlt_bool.
  destruct (Qle_bool a b); simpl; split; congruence.
Qed.

Lemma py_max_ge a b : (a <= b)%Q -> (py_max a b == b)%Q.
Proof.
  intros H. unfold py_max. destruct (Qlt_bool a b) eqn:E; [reflexivity|].
  apply Qlt_bool_false in E. apply Qle_antisym; assumption.
Qed.

Lemma py_max_lt a b : (b < a)%Q -> py_max a b = a.
Proof.
  intros H. unfold py_max. destruct (Qlt_bool a b) eqn:E; [|reflexivity].
  apply Qlt_bool_iff in E. exfalso. exact (Qlt_irrefl _ (Qlt_trans _ _ _ H E)).
Qed.

Lemma py_max_left a b : (a <= py_max a b)%Q.
Proof.
  unfold py_max. destruct (Qlt_bool a b) eqn:E; [|apply Qle_refl].
  apply Qlt_bool_iff in E. by apply Qlt_le_weak.
Qed.

Lemma py_max_right a b : (b <= py_max a b)%Q.
Proof.
  unfold py_max. destruct (Qlt_bool a b) eqn:E; [apply Qle_refl|].
  by apply Qlt_bool_false in E.
Qed.


(** [random.uniform(-j, j)] stays within [-j, j] when [random()] is in
    [0, 1]. *)
Lemma uniform_within (j r : Q) :
  (0 <= j)%Q -> (0 <= r)%Q -> (r <= 1)%Q ->
  (- j <= - j + (j - - j) * r)%Q /\ (- j + (j - - j) * r <= j)%Q.
Proof.
  intros Hj Hr0 Hr1.
  assert (H2j : (0 <= j - - j)%Q).
  { unfold Qminus. rewrite Qopp_opp.
    rewrite <- (Qplus_0_l 0). by apply Qplus_le_compat. }
  assert (Hlow : (0 <= (j - - j) * r)%Q) by (by apply Qmult_le_0_compat).
  assert (Hhigh : ((j - - j) * r <= j - - j)%Q).
  { rewrite <- (Qmult_1_r (j - - j)) at 2.
    rewrite (Qmult_comm (j - - j) r), (Qmult_comm (j - - j) 1).
    by apply Qmult_le_compat_r. }
  split.
  - rewrite <- (Qplus_0_r (- j)) at 1. by apply Qplus_le_r.
  - apply Qle_trans with (- j + (j - - j))%Q; [by apply Qplus_le_r|].
    unfold Qminus. rewrite Qopp_opp, Qplus_assoc, (Qplus_comm (- j) j),
      Qplus_opp_r, Qplus_0_l. apply Qle_refl.
Qed.

(** ** Settings snapshots *)

Section SettingsFacts.

Import Settings.

(** The violations of the data model that a click form can show. *)
Definition click_violation (f : ClickForm) : Prop :=
  (delay_var f <= 0)%Q \/ (jitter_var f < 0)%Q
  \/ (delay_var f < jitter_var f)%Q \/ (burst_var f < 1)%Z
  \/ (start_delay_var f < 0)%Q
  \/ (limit_enabled_var f = true /\ (limit_count_var f < 1)%Z).

Lemma collect_settings_violation f :
  click_violation f -> exists msg, collect_settings f = ValueError msg.
Proof.
  intros Hv. unfold collect_settings.
  destruct (Qle_bool (delay_var f) 0) eqn:E1; [eauto|].
  destruct (Qlt_bool (jitter_var f) 0) eqn:E2; [eauto|].
  destruct (Qlt_bool (delay_var f) (jitter_var f)) eqn:E3; [eauto|].
  destruct (burst_var f <=? 0)%Z eqn:E4; [eauto|].
  destruct (Qlt_bool (start_delay_var f) 0) eqn:E5; [eauto|].
  destruct (limit_enabled_var f && (limit_count_var f <=? 0)%Z) eqn:E6;
    [eauto|].
  exfalso. destruct Hv as [H|[H|[H|[H|[H|[H1 H2]]]]]].
  - apply Qle_bool_iff in H. congruence.
  - apply Qlt_bool_iff in H. congruence.
  - apply Qlt_bool_iff in H. congruence.
  - apply Z.leb_gt in E4. lia.
  - apply Qlt_bool_iff in H. congruence.
  - rewrite H1 in E6. simpl in E6. apply Z.leb_gt in E6. lia.
Qed.

(** A snapshot that was produced satisfies the data model. *)
Lemma collect_settings_valid f st :
  collect_settings f = Valid st ->
  (0 < delay_var f)%Q /\ (0 <= jitter_var f)%Q
  /\ (jitter_var f <= delay_var f)%Q /\ (1 <= burst_var f)%Z
  /\ (0 <= start_delay_var f)%Q
  /\ (limit_enabled_var f = true -> (1 <= limit_count_var f)%Z)
  /\ Click.burst_count st = burst_var f
  /\ Click.limit_count st = limit_count_var f
  /\ Click.limit_enabled st = limit_enabled_var f
  /\ Click.base_interval st = py_max 0.005 (delay_var f / 1000).
Proof.
  unfold collect_settings.
  destruct (Qle_bool (delay_var f) 0) eqn:E1; [discriminate|].
  destruct (Qlt_bool (jitter_var f) 0) eqn:E2; [discriminate|].
  destruct (Qlt_bool (delay_var f) (jitter_var f)) eqn:E3; [discriminate|].
  destruct (burst_var f <=? 0)%Z eqn:E4; [discriminate|].
  destruct (Qlt_bool (start_delay_var f) 0) eqn:E5; [discriminate|].
  destruct (limit_enabled_var f && (limit_count_var f <=? 0)%Z) eqn:E6;
    [discriminate|].
  destruct (BUTTON_MAP (button_var f)); [|discriminate].
  destruct (negb _); [discriminate|].
  intros [= <-]. simpl.
  apply Qle_bool_false in E1. apply Qlt_bool_false in E2, E3, E5.
  apply Z.leb_gt in E4.
  repeat split; try assumption; try lia.
  intros Hl. rewrite Hl in E6. simpl in E6. apply Z.leb_gt in E6. lia.
Qed.

Variable str : Str.
Variable has_key_attribute : string -> bool.

(** A token of the entered sequence that, in lower case, is neither one
    character long nor the name of an attribute of [keyboard.Key]. *)
Definition unknown_key_token (raw : string) : Prop :=
  exists t, t ∈ tokens_of str raw
            /\ len str (lower str t) <> 1%nat
            /\ has_key_attribute (lower str t) = false.

Definition key_violation (f : KeyForm) : Prop :=
  unknown_key_token (key_sequence_var f)
  \/ (key_delay_var f <= 0)%Q \/ (key_jitter_var f < 0)%Q
  \/ (key_delay_var f < key_jitter_var f)%Q \/ (key_burst_var f < 1)%Z
  \/ (key_start_delay_var f < 0)%Q
  \/ (key_limit_enabled_var f = true /\ (key_limit_count_var f < 1)%Z).

Lemma resolve_unknown tokens t :
  t ∈ tokens -> len str (lower str t) <> 1%nat ->
  has_key_attribute (lower str t) = false ->
  exists msg, resolve str has_key_attribute tokens = ValueError msg.
Proof.
  intros Hin Hlen Hno. induction tokens as [|t' rest IH];
    [by apply elem_of_nil in Hin|].
  apply elem_of_cons in Hin as [->|Hin]; simpl.
  - apply Nat.eqb_neq in Hlen. rewrite Hlen, Hno. eauto.
  - destruct (IH Hin) as [msg ->].
    destruct (len str (lower str t') =? 1)%nat; [eauto|].
    destruct (has_key_attribute (lower str t')); eauto.
Qed.

Lemma parse_key_sequence_unknown raw :
  unknown_key_token raw ->
  exists msg, parse_key_sequence str has_key_attribute raw = ValueError msg.
Proof.
  intros (t & Hin & Hlen & Hno). unfold parse_key_sequence.
  destruct (resolve_unknown _ _ Hin Hlen Hno) as [msg Hmsg].
  destruct (tokens_of str raw); [by apply elem_of_nil in Hin|]. eauto.
Qed.

Lemma collect_key_settings_violation f :
  key_violation f ->
  exists msg, collect_key_settings str has_key_attribute f = ValueError msg.
Proof.
  intros Hv. unfold collect_key_settings.
  destruct (parse_key_sequence str has_key_attribute (key_sequence_var f))
    as [sequence|msg] eqn:Ep; [|eauto].
  destruct (Qle_bool (key_delay_var f) 0) eqn:E1; [eauto|].
  destruct (Qlt_bool (key_jitter_var f) 0) eqn:E2; [eauto|].
  destruct (Qlt_bool (key_delay_var f) (key_jitter_var f)) eqn:E3; [eauto|].
  destruct (key_burst_var f <=? 0)%Z eqn:E4; [eauto|].
  destruct (Qlt_bool (key_start_delay_var f) 0) eqn:E5; [eauto|].
  destruct (key_limit_enabled_var f && (key_limit_count_var f <=? 0)%Z)
    eqn:E6; [eauto|].
  exfalso. destruct Hv as [H|[H|[H|[H|[H|[H|[H1 H2]]]]]]].
  - apply parse_key_sequence_unknown in H as [msg H]. congruence.
  - apply Qle_bool_iff in H. congruence.
  - apply Qlt_bool_iff in H. congruence.
  - apply Qlt_bool_iff in H. congruence.
  - apply Z.leb_gt in E4. lia.
  - apply Qlt_bool_iff in H. congruence.
  - rewrite H1 in E6. simpl in E6. apply Z.leb_gt in E6. lia.
Qed.

Lemma collect_key_settings_valid f st :
  collect_key_settings str has_key_attribute f = Valid st ->
  (0 < key_delay_var f)%Q /\ (1 <= key_burst_var f)%Z
  /\ (key_limit_enabled_var f = true -> (1 <= key_limit_count_var f)%Z)
  /\ Key.burst_count st = key_burst_var f
  /\ Key.limit_count st = key_limit_count_var f
  /\ Key.limit_enabled st = key_limit_enabled_var f
  /\ Key.base_interval st = py_max 0.01 (key_delay_var f / 1000).
Proof.
  unfold collect_key_settings.
  destruct (parse_key_sequence _ _); [|discriminate].
  destruct (Qle_bool (key_delay_var f) 0) eqn:E1; [discriminate|].
  destruct (Qlt_bool (key_jitter_var f) 0) eqn:E2; [discriminate|].
  destruct (Qlt_bool (key_delay_var f) (key_jitter_var f)) eqn:E3;
    [discriminate|].
  destruct (key_burst_var f <=? 0)%Z eqn:E4; [discriminate|].
  destruct (Qlt_bool (key_start_delay_var f) 0) eqn:E5; [discriminate|].
  destruct (key_limit_enabled_var f && (key_limit_count_var f <=? 0)%Z)
    eqn:E6; [discriminate|].
  destruct (negb _); [discriminate|].
  intros [= <-]. simpl.
  apply Qle_bool_false in E1. apply Z.leb_gt in E4.
  repeat split; try assumption; try lia.
  intros Hl. rewrite Hl in E6. simpl in E6. apply Z.leb_gt in E6. lia.
Qed.

End SettingsFacts.

(** *** Sample forms *)

Definition default_click_form : Settings.ClickForm :=
  {| Settings.delay_var := 100; Settings.jitter_var := 0;
     Settings.burst_var := 1; Settings.start_delay_var := 0;
     Settings.limit_enabled_var := false; Settings.limit_count_var := 500;
     Settings.button_var := "left"; Settings.mode_var := "single" |}.

Definition default_key_form : Settings.KeyForm :=
  {| Settings.key_sequence_var := "space"; Settings.key_delay_var := 150;
     Settings.key_jitter_var := 0; Settings.key_burst_var := 1;
     Settings.key_start_delay_var := 0;
     Settings.key_limit_enabled_var := false;
     Settings.key_limit_count_var := 500; Settings.key_mode_var := "tap" |}.

Definition with_delay (d : Q) (f : Settings.ClickForm) : Settings.ClickForm :=
  {| Settings.delay_var := d; Settings.jitter_var := Settings.jitter_var f;
     Settings.burst_var := Settings.burst_var f;
     Settings.start_delay_var := Settings.start_delay_var f;
     Settings.limit_enabled_var := Settings.limit_enabled_var f;
     Settings.limit_count_var := Settings.limit_count_var f;
     Settings.button_var := Settings.button_var f;
     Settings.mode_var := Settings.mode_var f |}.

Definition with_key_delay (d : Q) (f : Settings.KeyForm) : Settings.KeyForm :=
  {| Settings.key_sequence_var := Settings.key_sequence_var f;
     Settings.key_delay_var := d;
     Settings.key_jitter_var := Settings.key_jitter_var f;
     Settings.key_burst_var := Settings.key_burst_var f;
     Settings.key_start_delay_var := Settings.key_start_delay_var f;
     Settings.key_limit_enabled_var := Settings.key_limit_enabled_var f;
     Settings.key_limit_count_var := Settings.key_limit_count_var f;
     Settings.key_mode_var := Settings.key_mode_var f |}.

(** A few of the names of [pynput.keyboard.Key]. *)
Definition sample_key_names (name : string) : bool :=
  Settings.string_in name ["space"; "enter"; "tab"; "esc"; "shift"; "ctrl";
                           "alt"; "cmd"].

Definition idle_click_app : Settings.ClickApp :=
  {| Settings.is_running := false; Settings.stop_event := false;
     Settings.start_timestamp := None; Settings.last_elapsed_seconds := 0;
     Settings.click_run :=
       {| Click.clicks_recorded := 0; Click.hold_pressed := false;
          Click.run_reason := "Idle" |};
     Settings.click_thread := None; Settings.threads_started := [] |}.

Definition idle_key_app : Settings.KeyApp :=
  {| Settings.key_is_running := false; Settings.key_stop_event := false;
     Settings.key_start_timestamp := None;
     Settings.key_last_elapsed_seconds := 0;
     Settings.key_run :=
       {| Key.key_cycles_recorded := 0; Key.key_hold_active := false;
          Key.key_run_reason := "Idle" |};
     Settings.active_key_sequence := None;
     Settings.key_thread := None; Settings.key_threads_started := [] |}.

(** C10: the snapshot clamps the base interval to a floor of 0.005 s (click)
    and 0.01 s (key).  Validation accepts every positive delay; whenever the
    entered delay, in seconds, is below the floor, the captured
    [base_interval] is the floor and not the entered value. *)
Theorem C10_base_interval_floor :
  (forall f st,
      Settings.collect_settings f = Settings.Valid st ->
      (Settings.delay_var f / 1000 < 0.005)%Q ->
      Click.base_interval st = 0.005%Q)
  /\ (forall str has f st,
         Settings.collect_key_settings str has f = Settings.Valid st ->
         (Settings.key_delay_var f / 1000 < 0.01)%Q ->
         Key.base_interval st = 0.01%Q)
  /\ (forall d, (0 < d)%Q ->
         exists st, Settings.collect_settings (with_delay d default_click_form)
                    = Settings.Valid st)
  /\ (forall d, (0 < d)%Q ->
         exists st, Settings.collect_key_settings Settings.ascii_str
                      sample_key_names (with_key_delay d default_key_form)
                    = Settings.Valid st).
Proof.
  repeat split.
  - intros f st Hc Hlt.
    apply collect_settings_valid in Hc as (_ & _ & _ & _ & _ & _ & _ & _ & _ & ->).
    by apply py_max_lt.
  - intros str has f st Hc Hlt.
    apply collect_key_settings_valid in Hc as (_ & _ & _ & _ & _ & _ & ->).
    by apply py_max_lt.
  - intros d Hd. unfold Settings.collect_settings. simpl.
    assert (E1 : Qle_bool d 0 = false) by (by apply Qle_bool_false).
    assert (E3 : Qlt_bool d 0 = false)
      by (apply Qlt_bool_false; by apply Qlt_le_weak).
    rewrite E1, E3. simpl. eauto.
  - intros d Hd. unfold Settings.collect_key_settings. simpl.
    assert (E1 : Qle_bool d 0 = false) by (by apply Qle_bool_false).
    assert (E3 : Qlt_bool d 0 = false)
      by (apply Qlt_bool_false; by apply Qlt_le_weak).
    replace (Settings.parse_key_sequence Settings.ascii_str sample_key_names
               "space")
      with (Settings.Valid [KeyName "space"]) by (by vm_compute).
    rewrite E1, E3. simpl. eauto.
Qed.

Definition click_1ms_snapshot : Click.ClickSettings :=
  {| Click.button := left; Click.mode := "single";
     Click.base_interval := 0.005; Click.jitter := 0 / 1000;
     Click.burst_count := 1; Click.start_delay := 0;
     Click.limit_enabled := false; Click.limit_count := 500 |}.

Definition key_2ms_snapshot : Key.KeyPressSettings :=
  {| Key.sequence := [KeyName "space"]; Key.mode := "tap";
     Key.base_interval := 0.01; Key.jitter := 0 / 1000;
     Key.burst_count := 1; Key.start_delay := 0;
     Key.limit_enabled := false; Key.limit_count := 500 |}.

Lemma C10_base_interval_floor_witness :
  Click.base_interval click_1ms_snapshot = 0.005%Q
  /\ Key.base_interval key_2ms_snapshot = 0.01%Q.
Proof.
  split.
  - apply (proj1 C10_base_interval_floor
             (with_delay 1 default_click_form) click_1ms_snapshot);
      reflexivity.
  - apply (proj1 (proj2 C10_base_interval_floor) Settings.ascii_str
             sample_key_names (with_key_delay 2 default_key_form)
             key_2ms_snapshot);
      reflexivity.
Defined.

Definition running_click_app : Settings.ClickApp :=
  {| Settings.is_running := true; Settings.stop_event := false;
     Settings.start_timestamp := Some 0%Q;
     Settings.last_elapsed_seconds := 0;
     Settings.click_run := Click.run0;
     Settings.click_thread := Some click_1ms_snapshot;
     Settings.threads_started := [click_1ms_snapshot] |}.

(** C8, as stated, fails on a request made while the clicker is running:
    the form below has a zero delay, and [start_clicking] returns without
    validating it, so no validation error is reported. *)
Lemma C8_counterexample :
  click_violation (with_delay 0 default_click_form)
  /\ Settings.start_clicking 0 (with_delay 0 default_click_form)
       running_click_app
     = (running_click_app, None).
Proof.
  split; [left; discriminate | reflexivity].
Qed.

(** C8 (amended): a start request made while the worker is idle and whose
    settings violate the data model (non-positive interval, negative jitter
    or jitter above the interval, burst count below 1, negative start delay,
    unknown key token, enabled limit below 1) fails at once with a validation
    error, starts no thread and changes no run state; a request made while the
    worker is already running is ignored without validation, again starting
    nothing and changing nothing; and whenever the form yields a snapshot,
    start returns with the worker running, an idle worker having been given a
    fresh run state and a thread started on that snapshot. *)
Theorem C8_start_validation (now : Q) (str : Settings.Str)
    (has_key_attribute : string -> bool) :
  (forall f app,
      Settings.is_running app = false -> click_violation f ->
      exists msg, Settings.start_clicking now f app = (app, Some msg))
  /\ (forall f app,
         Settings.key_is_running app = false ->
         key_violation str has_key_attribute f ->
         exists msg,
           Settings.start_key_pressing str has_key_attribute now f app
           = (app, Some msg))
  /\ (forall f app,
         Settings.is_running app = true ->
         Settings.start_clicking now f app = (app, None))
  /\ (forall f app,
         Settings.key_is_running app = true ->
         Settings.start_key_pressing str has_key_attribute now f app
         = (app, None))
  /\ (forall f app st,
         Settings.collect_settings f = Settings.Valid st ->
         let '(app', err) := Settings.start_clicking now f app in
         err = None /\ Settings.is_running app' = true
         /\ (Settings.is_running app = false ->
             Settings.click_thread app' = Some st
             /\ Settings.threads_started app'
                = (Settings.threads_started app ++ [st])%list
             /\ Settings.click_run app' = Click.run0
             /\ Settings.start_timestamp app' = Some now))
  /\ (forall f app st,
         Settings.collect_key_settings str has_key_attribute f
         = Settings.Valid st ->
         let '(app', err) :=
           Settings.start_key_pressing str has_key_attribute now f app in
         err = None /\ Settings.key_is_running app' = true
         /\ (Settings.key_is_running app = false ->
             Settings.key_thread app' = Some st
             /\ Settings.key_threads_started app'
                = (Settings.key_threads_started app ++ [st])%list
             /\ Settings.key_run app' = Key.run0
             /\ Settings.key_start_timestamp app' = Some now)).
Proof.
  repeat apply conj.
  - intros f app Hidle Hv. unfold Settings.start_clicking. rewrite Hidle.
    destruct (collect_settings_violation f Hv) as [msg ->]. eauto.
  - intros f app Hidle Hv. unfold Settings.start_key_pressing. rewrite Hidle.
    destruct (collect_key_settings_violation str has_key_attribute f Hv)
      as [msg ->]. eauto.
  - intros f app Hrun. unfold Settings.start_clicking. by rewrite Hrun.
  - intros f app Hrun. unfold Settings.start_key_pressing. by rewrite Hrun.
  - intros f app st Hc. unfold Settings.start_clicking. rewrite Hc.
    destruct (Settings.is_running app) eqn:Hrun; simpl; [by auto|].
    repeat split; reflexivity.
  - intros f app st Hc. unfold Settings.start_key_pressing. rewrite Hc.
    destruct (Settings.key_is_running app) eqn:Hrun; simpl; [by auto|].
    repeat split; reflexivity.
Qed.

Definition with_key_sequence (raw : string) (f : Settings.KeyForm)
  : Settings.KeyForm :=
  {| Settings.key_sequence_var := raw;
     Settings.key_delay_var := Settings.key_delay_var f;
     Settings.key_jitter_var := Settings.key_jitter_var f;
     Settings.key_burst_var := Settings.key_burst_var f;
     Settings.key_start_delay_var := Settings.key_start_delay_var f;
     Settings.key_limit_enabled_var := Settings.key_limit_enabled_var f;
     Settings.key_limit_count_var := Settings.key_limit_count_var f;
     Settings.key_mode_var := Settings.key_mode_var f |}.

Lemma C8_start_validation_witness :
  (exists msg,
      Settings.start_clicking 7 (with_delay 0 default_click_form)
        idle_click_app = (idle_click_app, Some msg))
  /\ (exists msg,
         Settings.start_key_pressing Settings.ascii_str sample_key_names 7
           (with_key_sequence "ctrl + foo" default_key_form) idle_key_app
         = (idle_key_app, Some msg)).
Proof.
  split.
  - apply (proj1 (C8_start_validation 7 Settings.ascii_str sample_key_names)
             (with_delay 0 default_click_form) idle_click_app);
      [reflexivity | left; discriminate].
  - apply (proj1 (proj2 (C8_start_validation 7 Settings.ascii_str
                           sample_key_names))
             (with_key_sequence "ctrl + foo" default_key_form) idle_key_app);
      [reflexivity |].
    left. exists "foo". split; [|split; [discriminate|reflexivity]].
    vm_compute. constructor 2. constructor 1.
Defined.

(** ** Hotkey matcher *)

Section HotkeyFacts.

Import Hotkey.


Lemma lookup_key_Some_In k b (d : dict) :
  lookup_key k d = Some b -> (k, b) ∈ d.
Proof.
  induction d as [|[k' b'] rest IH]; simpl; [discriminate|].
  destruct (String.eqb_spec k' k) as [->|Hne].
  - intros [= ->]. apply elem_of_cons. by left.
  - intros H. apply elem_of_cons. right. by apply IH.
Qed.

Lemma lookup_key_In k b (d : dict) :
  NoDup (keys d) -> (k, b) ∈ d -> lookup_key k d = Some b.
Proof.
  induction d as [|[k' b'] rest IH]; simpl; intros Hnd Hin.
  - by apply elem_of_nil in Hin.
  - apply NoDup_cons in Hnd as [Hfresh Hnd].
    apply elem_of_cons in Hin as [[= -> ->]|Hin].
    + by rewrite String.eqb_refl.
    + destruct (String.eqb_spec k' k) as [->|Hne]; [|by apply IH].
      exfalso. apply Hfresh. apply list_elem_of_fmap.
      by exists (k, b).
Qed.

Lemma lookup_key_is_Some k (d : dict) :
  is_Some (lookup_key k d) <-> k ∈ keys d.
Proof.
  induction d as [|[k' b'] rest IH]; simpl.
  - split; [by intros [? ?] | by intros ?%elem_of_nil].
  - rewrite elem_of_cons. destruct (String.eqb_spec k' k) as [->|Hne].
    + split; [by left | by eauto].
    + rewrite IH. split; [by right | by intros [?|?]; [congruence|]].
Qed.


Lemma keys_assign k b (d : dict) :
  k ∈ keys d -> keys (assign k b d) = keys d.
Proof.
  induction d as [|[k' b'] rest IH]; simpl; [by intros ?%elem_of_nil|].
  intros Hin. destruct (String.eqb_spec k' k) as [->|Hne]; [done|].
  simpl. f_equal. apply IH. apply elem_of_cons in Hin as [?|?];
    [congruence|done].
Qed.

Lemma lookup_key_assign k k' b (d : dict) :
  k ∈ keys d ->
  lookup_key k' (assign k b d)
  = if String.eqb k k' then Some b else lookup_key k' d.
Proof.
  induction d as [|[k0 b0] rest IH]; simpl; [by intros ?%elem_of_nil|].
  intros Hin. destruct (String.eqb_spec k0 k) as [->|Hne]; simpl.
  - destruct (String.eqb_spec k k'); done.
  - apply elem_of_cons in Hin as [?|Hin]; [congruence|].
    rewrite (IH Hin).
    destruct (String.eqb_spec k0 k') as [->|Hne'];
      [|done].
    destruct (String.eqb_spec k k'); [congruence|done].
Qed.

Variable format_tokens : gset string -> string.

(** Some other binding holds exactly the token set [new_tokens]. *)
Definition collides (hotkey_id : string) (new_tokens : gset string)
    (d : dict) : Prop :=
  exists hid b, (hid, b) ∈ d /\ hid ≠ hotkey_id /\ tokens b = new_tokens.

Lemma collision_filter hotkey_id new_tokens (d : dict) hid b :
  (hid, b) ∈ filter
               (fun kb => negb (String.eqb (fst kb) hotkey_id)
                          && bool_decide (tokens (snd kb) = new_tokens) = true)
               d
  <-> (hid, b) ∈ d /\ hid ≠ hotkey_id /\ tokens b = new_tokens.
Proof.
  rewrite list_elem_of_filter. simpl.
  rewrite andb_true_iff, negb_true_iff, bool_decide_eq_true.
  destruct (String.eqb_spec hid hotkey_id); naive_solver.
Qed.

Lemma update_collides hotkey_id new_tokens (d : dict) :
  NoDup (keys d) -> new_tokens ≠ ∅ -> collides hotkey_id new_tokens d ->
  exists hid b,
    (hid, b) ∈ d /\ hid ≠ hotkey_id /\ tokens b = new_tokens
    /\ update_hotkey_binding format_tokens hotkey_id new_tokens d
       = Some (d, Some ("This key combination is already used by "
                          ++ label b ++ ".")).
Proof.
  intros Hnd Hne (hid & b & Hin). apply collision_filter in Hin.
  unfold update_hotkey_binding.
  rewrite bool_decide_eq_false_2 by done.
  destruct (filter _ d) as [|[hid' b'] rest] eqn:E;
    [by apply elem_of_nil in Hin|].
  assert (Hhead : (hid', b') ∈ filter
            (fun kb => negb (String.eqb (fst kb) hotkey_id)
                       && bool_decide (tokens (snd kb) = new_tokens) = true)
            d) by (rewrite E; apply elem_of_cons; by left).
  apply collision_filter in Hhead as (Hd & Hid & Htok).
  exists hid', b'. rewrite (lookup_key_In _ _ _ Hnd Hd). done.
Qed.

Lemma update_replaces hotkey_id new_tokens (d : dict) old :
  new_tokens ≠ ∅ -> ¬ collides hotkey_id new_tokens d ->
  lookup_key hotkey_id d = Some old ->
  update_hotkey_binding format_tokens hotkey_id new_tokens d
  = Some (assign hotkey_id
            {| label := label old; tokens := new_tokens;
               display_text := format_tokens new_tokens |} d, None).
Proof.
  intros Hne Hfree Hold. unfold update_hotkey_binding.
  rewrite bool_decide_eq_false_2 by done.
  destruct (filter _ d) as [|[hid' b'] rest] eqn:E; [by rewrite Hold|].
  exfalso. apply Hfree. exists hid', b'. apply collision_filter.
  rewrite E. apply elem_of_cons. by left.
Qed.

End HotkeyFacts.

Lemma default_hotkeys_NoDup : NoDup (Hotkey.keys Hotkey.default_hotkeys).
Proof. apply (bool_decide_unpack _). by vm_compute. Qed.

Section HotkeyInvariant.

Import Hotkey.

Variable format_tokens : gset string -> string.

(** The states the key handlers and the rebind command can produce. *)
Inductive reachable : State -> Prop :=
| reach_init : reachable init
| reach_press now token raw_key st m :
    reachable st ->
    reachable (hk (handle_key_press now token raw_key st m))
| reach_release now token raw_key st m o :
    reachable st ->
    handle_key_release format_tokens now token raw_key st m = Some o ->
    reachable (hk o)
| reach_begin hotkey_id st :
    reachable st -> reachable (begin_hotkey_recording hotkey_id st).










End HotkeyInvariant.

(** ** Rebinding a hotkey *)

(** A rebind of [Emergency Halt] begun while the key [a] was down: nothing
    is buffered yet. *)
Definition rebind_begun : Hotkey.State :=
  Hotkey.begin_hotkey_recording "panic"
    (Hotkey.hk (Hotkey.handle_key_press 0 "a" None Hotkey.init Macro.init)).

(** C7, as stated, fails on a rebind that ends with nothing buffered: in the
    state above, which the handlers reach, letting go of [a] ends the rebind
    of [panic] with an empty buffer, and no error is shown; the label of the
    hotkey is set to [Unset] while its binding stays as it was. *)
Lemma C7_counterexample :
  reachable (fun _ => "") rebind_begun
  /\ Hotkey.recording_target rebind_begun = Some "panic"
  /\ Hotkey.recording_buffer rebind_begun = ∅
  /\ exists o,
       Hotkey.handle_key_release (fun _ => "") 1 "a" None rebind_begun
         Macro.init = Some o
       /\ Hotkey.warned o = None
       /\ Hotkey.label_written (fun _ => "") "a" rebind_begun
          = Some ("panic", "Unset")
       /\ Hotkey.hotkeys (Hotkey.hk o) = Hotkey.hotkeys rebind_begun.
Proof.
  split; [apply reach_begin, reach_press, reach_init|].
  split; [by vm_compute|]. split; [by vm_compute|].
  eexists. split; [by vm_compute|]. by vm_compute.
Qed.

(** C7 (amended): when the last held key is let go during a rebind, the
    buffered token set decides what happens.  A set that exactly equals the
    token set of another binding is rejected with an error that names a
    binding holding it, and every binding is left unchanged.  A non-empty set
    that no other binding holds replaces the tokens of the target, which
    keeps its label and is shown with the new display text; no other binding
    changes.  An empty set ends the rebind without an error: no binding
    changes and the label of the target is set to [Unset].  In each case
    the rebind is over afterwards. *)
Theorem C7_rebind_outcome
    (format_tokens : gset string -> string) (now : Q) (token : string)
    (raw_key : option KeyValue) (st : Hotkey.State) (m : Macro.State)
    (target : string) :
  NoDup (Hotkey.keys (Hotkey.hotkeys st)) ->
  Hotkey.recording_target st = Some target -> target ≠ "" ->
  Hotkey.pressed_tokens st ∖ {[token]} = ∅ ->
  (Hotkey.recording_buffer st ≠ ∅ ->
   collides target (Hotkey.recording_buffer st) (Hotkey.hotkeys st) ->
   exists hid b o,
     (hid, b) ∈ Hotkey.hotkeys st /\ hid ≠ target
     /\ Hotkey.tokens b = Hotkey.recording_buffer st
     /\ Hotkey.handle_key_release format_tokens now token raw_key st m
        = Some o
     /\ Hotkey.warned o
        = Some ("This key combination is already used by "
                  ++ Hotkey.label b ++ ".")
     /\ Hotkey.hotkeys (Hotkey.hk o) = Hotkey.hotkeys st
     /\ Hotkey.label_written format_tokens token st = None
     /\ Hotkey.recording_target (Hotkey.hk o) = None)
  /\ (Hotkey.recording_buffer st ≠ ∅ ->
      ¬ collides target (Hotkey.recording_buffer st) (Hotkey.hotkeys st) ->
      forall old, Hotkey.lookup_key target (Hotkey.hotkeys st) = Some old ->
      exists o,
        Hotkey.handle_key_release format_tokens now token raw_key st m
        = Some o
        /\ Hotkey.warned o = None
        /\ Hotkey.lookup_key target (Hotkey.hotkeys (Hotkey.hk o))
           = Some {| Hotkey.label := Hotkey.label old;
                     Hotkey.tokens := Hotkey.recording_buffer st;
                     Hotkey.display_text :=
                       format_tokens (Hotkey.recording_buffer st) |}
        /\ (forall k, k ≠ target ->
                      Hotkey.lookup_key k (Hotkey.hotkeys (Hotkey.hk o))
                      = Hotkey.lookup_key k (Hotkey.hotkeys st))
        /\ Hotkey.keys (Hotkey.hotkeys (Hotkey.hk o))
           = Hotkey.keys (Hotkey.hotkeys st)
        /\ Hotkey.label_written format_tokens token st
           = Some (target, format_tokens (Hotkey.recording_buffer st))
        /\ Hotkey.recording_target (Hotkey.hk o) = None)
  /\ (Hotkey.recording_buffer st = ∅ ->
      exists o,
        Hotkey.handle_key_release format_tokens now token raw_key st m
        = Some o
        /\ Hotkey.warned o = None
        /\ Hotkey.hotkeys (Hotkey.hk o) = Hotkey.hotkeys st
        /\ (forall b, Hotkey.lookup_key target (Hotkey.hotkeys st) = Some b ->
                      Hotkey.label_written format_tokens token st
                      = Some (target, "Unset"))
        /\ Hotkey.recording_target (Hotkey.hk o) = None).
Proof.
  intros Hnd Ht Hne Hp.
  assert (Hreb : String.eqb target "" = false) by (by apply String.eqb_neq).
  unfold Hotkey.handle_key_release, Hotkey.label_written, Hotkey.rebinding.
  cbn [Hotkey.pressed_tokens Hotkey.recording_target Hotkey.recording_buffer
       Hotkey.hotkeys Hotkey.trigger_latch].
  rewrite Ht, Hp. unfold default. cbn [from_option id].
  rewrite Hreb, bool_decide_eq_true_2 by done.
  cbn [negb andb].
  repeat apply conj.
  - intros Hbuf Hc. rewrite bool_decide_eq_false_2 by done.
    destruct (update_collides format_tokens _ _ _ Hnd Hbuf Hc)
      as (hid & b & Hin & Hid & Htok & ->).
    exists hid, b. eexists. by repeat split.
  - intros Hbuf Hfree old Hold. rewrite bool_decide_eq_false_2 by done.
    assert (Hkey : target ∈ Hotkey.keys (Hotkey.hotkeys st))
      by (apply lookup_key_is_Some; eauto).
    rewrite (update_replaces format_tokens _ _ _ _ Hbuf Hfree Hold).
    eexists. split; [reflexivity|]. cbn. repeat split.
    + rewrite lookup_key_assign by done. by rewrite String.eqb_refl.
    + intros k Hk. rewrite lookup_key_assign by done.
      destruct (String.eqb_spec target k); [congruence|done].
    + by apply keys_assign.
  - intros Hbuf. rewrite bool_decide_eq_true_2 by done.
    eexists. split; [reflexivity|]. cbn. repeat split.
    by intros b ->.
Qed.

(** The rebind of [Emergency Halt] above, with [F6] pressed and let go:
    [F6] is the combination of [Toggle Mouse Clicker]. *)
Definition rebind_to_f6 : Hotkey.State :=
  {| Hotkey.pressed_tokens := {["f6"]}; Hotkey.trigger_latch := ∅;
     Hotkey.recording_target := Some "panic";
     Hotkey.recording_buffer := {["f6"]};
     Hotkey.hotkeys := Hotkey.default_hotkeys |}.

Lemma C7_rebind_outcome_witness :
  exists hid b o,
    (hid, b) ∈ Hotkey.hotkeys rebind_to_f6 /\ hid ≠ "panic"
    /\ Hotkey.tokens b = Hotkey.recording_buffer rebind_to_f6
    /\ Hotkey.handle_key_release (fun _ => "F6") 1 "f6" None rebind_to_f6
         Macro.init = Some o
    /\ Hotkey.warned o
       = Some ("This key combination is already used by "
                 ++ Hotkey.label b ++ ".")
    /\ Hotkey.hotkeys (Hotkey.hk o) = Hotkey.hotkeys rebind_to_f6
    /\ Hotkey.label_written (fun _ => "F6") "f6" rebind_to_f6 = None
    /\ Hotkey.recording_target (Hotkey.hk o) = None.
Proof.
  apply (proj1 (C7_rebind_outcome (fun _ => "F6") 1 "f6" None rebind_to_f6
                  Macro.init "panic" default_hotkeys_NoDup eq_refl
                  ltac:(discriminate) ltac:(set_solver))).
  - simpl. set_solver.
  - exists "mouse_toggle".
    exists {| Hotkey.label := "Toggle Mouse Clicker"; Hotkey.tokens := {["f6"]};
              Hotkey.display_text := "F6" |}.
    repeat split; [apply elem_of_cons; by left | discriminate].
Defined.





(** ** Macro recorder *)

(** Whether a raw input passes the gates of an armed recorder. *)
Definition captured (i : Macro.raw_input) : bool :=
  match i with
  | Macro.RawKey _ _ rebinding => negb rebinding
  | Macro.RawClick _ _ _ _ => true
  end.

(** The relative-delay encoding of the instants [ts] after [prev]. *)
Fixpoint deltas (prev : Q) (ts : list Q) : list Q :=
  match ts with
  | [] => []
  | t :: rest => (t - prev)%Q :: deltas t rest
  end.

(** Clock readings that never go back ([time.perf_counter] is monotonic). *)
Fixpoint nondecreasing (prev : Q) (ts : list Q) : Prop :=
  match ts with
  | [] => True
  | t :: rest => (prev <= t)%Q /\ nondecreasing t rest
  end.

Section RecorderFacts.

Import Macro.

Lemma nondecreasing_weaken a b ts :
  (a <= b)%Q -> nondecreasing b ts -> nondecreasing a ts.
Proof.
  destruct ts as [|t rest]; simpl; [done|].
  intros Hab [Hbt Hrest]. split; [|done]. by apply Qle_trans with b.
Qed.

(** The instant the next delay is measured from. *)
Definition reference (m : State) : option Q :=
  match macro_last_timestamp m with
  | Some last => Some last
  | None => macro_start_time m
  end.

Definition armed (m : State) : Prop :=
  macro_recording m = true /\ block_macro_capture m = false.

Lemma deliver_skipped now i m :
  captured i = false -> deliver now i m = m.
Proof.
  destruct i as [raw pressed rebinding|x y b pressed]; simpl;
    [|discriminate].
  intros ->%negb_false_iff. unfold maybe_record_macro_key_event.
  by rewrite orb_true_r.
Qed.

Lemma deliver_captured now i m prev :
  armed m -> reference m = Some prev -> captured i = true ->
  (prev <= now)%Q ->
  exists e,
    macro_events (deliver now i m) = (macro_events m ++ [e])%list
    /\ (delay e == now - prev)%Q
    /\ armed (deliver now i m)
    /\ reference (deliver now i m) = Some now.
Proof.
  intros [Hrec Hblock] Href Hcap Hle.
  assert (Hdelay : (py_max 0 (now - prev) == now - prev)%Q).
  { apply py_max_ge. unfold Qminus. rewrite <- (Qplus_opp_r prev).
    apply Qplus_le_l. exact Hle. }
  assert (Hrecord : forall k a kv mb pos,
    exists e,
      macro_events (record_macro_event now k a kv mb pos m)
      = (macro_events m ++ [e])%list
      /\ (delay e == now - prev)%Q
      /\ armed (record_macro_event now k a kv mb pos m)
      /\ reference (record_macro_event now k a kv mb pos m) = Some now).
  { intros k a kv mb pos. unfold record_macro_event.
    rewrite Hrec, Hblock. simpl. eexists. split; [reflexivity|]. simpl.
    split; [|by split].
    unfold reference in Href.
    destruct (macro_last_timestamp m) as [last|].
    - injection Href as ->. exact Hdelay.
    - rewrite Href. exact Hdelay. }
  destruct i as [raw pressed rebinding|x y b pressed]; simpl in *.
  - apply negb_true_iff in Hcap as ->.
    unfold maybe_record_macro_key_event. rewrite Hrec, Hblock. simpl.
    apply Hrecord.
  - unfold handle_mouse_click. rewrite Hrec, Hblock. simpl.
    apply Hrecord.
Qed.

Lemma deliver_all inputs m prev :
  armed m -> reference m = Some prev ->
  nondecreasing prev (map fst inputs) ->
  exists new,
    macro_events
      (fold_left (fun m' ti => deliver (fst ti) (snd ti) m') inputs m)
    = (macro_events m ++ new)%list
    /\ Forall2 Qeq (map delay new)
         (deltas prev
            (map fst (filter (fun ti => captured (snd ti) = true) inputs))).
Proof.
  revert m prev. induction inputs as [|[now i] rest IH]; simpl;
    intros m prev Harmed Href Hmono.
  - exists []. split; [by rewrite app_nil_r|constructor].
  - destruct Hmono as [Hle Hmono]. rewrite filter_cons. simpl.
    destruct (captured i) eqn:Hcap.
    + destruct (deliver_captured now i m prev Harmed Href Hcap Hle)
        as (e & Hev & Hd & Harmed' & Href').
      destruct (IH _ now Harmed' Href' Hmono) as (new & Hnew & Hdel).
      exists (e :: new). split.
      * rewrite Hnew, Hev, <- app_assoc. done.
      * rewrite decide_True by done. simpl. by constructor.
    + rewrite (deliver_skipped now i m Hcap).
      rewrite decide_False by done.
      apply (IH m prev Harmed Href).
      by apply nondecreasing_weaken with now.
Qed.

End RecorderFacts.

(** C6: in a recording session armed at [t0], whatever inputs arrive and
    whichever of them pass the capture gates, with clock readings that never
    go back: one event is stored per captured input, the stored delay of the
    first is the time since [t0], and the stored delay of every later one is
    the time since the previous captured input. *)
Theorem C6_relative_delay_encoding
    (t0 : Q) (inputs : list (Q * Macro.raw_input)) (m : Macro.State) :
  Macro.macro_playing m = false ->
  nondecreasing t0 (map fst inputs) ->
  Forall2 Qeq
    (map Macro.delay (Macro.macro_events (Macro.session t0 inputs m)))
    (deltas t0
       (map fst (filter (fun ti => captured (snd ti) = true) inputs))).
Proof.
  intros Hidle Hmono. unfold Macro.session, Macro.start_macro_recording.
  rewrite Hidle.
  match goal with
  | |- context [fold_left _ inputs ?m0] =>
      destruct (deliver_all inputs m0 t0) as (new & -> & Hdel);
        [by split | done | done | exact Hdel]
  end.
Qed.

Definition sample_session : list (Q * Macro.raw_input) :=
  [ (10.5%Q, Macro.RawKey (KeyCode (Some "a") None) true false);
    (10.5%Q, Macro.RawKey (KeyName "f6") true true);
    (10.75%Q, Macro.RawKey (KeyCode (Some "a") None) false false);
    (12%Q, Macro.RawClick 30 40 left true) ].

Lemma C6_relative_delay_encoding_witness :
  Forall2 Qeq
    (map Macro.delay
       (Macro.macro_events (Macro.session 10 sample_session Macro.init)))
    (deltas 10
       (map fst (filter (fun ti => captured (snd ti) = true) sample_session))).
Proof.
  apply (C6_relative_delay_encoding 10 sample_session Macro.init).
  - reflexivity.
  - simpl. repeat split; discriminate.
Defined.

(** ** Reasoning about thread computations *)

(** The controller calls in a trace, with their outcomes. *)
Definition injects (tr : list event) : list (call * bool) :=
  omap (fun e => match e with Inject c ok => Some (c, ok) | _ => None end) tr.

(** Whether the thread has waited on its stop event yet. *)
Definition is_wait (e : event) : bool :=
  match e with Wait _ _ => true | _ => false end.

Definition polled (tr : list event) : bool := existsb is_wait tr.

(** [wp env m Q s]: running [m] from [s] ends in a state and result that
    satisfy [Q]. *)
Definition wp {R A} (env : Env) (m : M R A)
    (Q : IO * R -> res A -> Prop) (s : IO * R) : Prop :=
  Q (fst (m env s)) (snd (m env s)).

Section WpRules.

Context {R : Type} (env : Env).

Lemma wp_mono {A} (m : M R A) (Q Q' : IO * R -> res A -> Prop) s :
  (forall s' r, Q s' r -> Q' s' r) -> wp env m Q s -> wp env m Q' s.
Proof. unfold wp. auto. Qed.

Lemma wp_ret {A} (a : A) (Q : IO * R -> res A -> Prop) s :
  Q s (Ok a) -> wp env (ret a) Q s.
Proof. done. Qed.

Lemma wp_pending {A} (Q : IO * R -> res A -> Prop) s :
  Q s Pending -> wp env pending Q s.
Proof. done. Qed.

Lemma wp_bind {A B} (m : M R A) (k : A -> M R B) Q s :
  wp env m (fun s' r =>
              match r with
              | Ok a => wp env (k a) Q s'
              | Raise msg => Q s' (Raise msg)
              | Pending => Q s' Pending
              end) s ->
  wp env (bind m k) Q s.
Proof. unfold wp, bind. by destruct (m env s) as [s' [a|msg|]]. Qed.

Lemma wp_get (Q : IO * R -> res R -> Prop) s :
  Q s (Ok (snd s)) -> wp env get Q s.
Proof. done. Qed.

Lemma wp_modify (f : R -> R) (Q : IO * R -> res unit -> Prop) s :
  Q (fst s, f (snd s)) (Ok tt) -> wp env (modify f) Q s.
Proof. done. Qed.

Lemma wp_emit (e : event) (Q : IO * R -> res unit -> Prop) s :
  Q (log e (fst s), snd s) (Ok tt) -> wp env (emit e) Q s.
Proof. done. Qed.

Lemma wp_try_except {A} (m : M R A) h Q s :
  wp env m (fun s' r =>
              match r with
              | Raise msg => wp env (h msg) Q s'
              | _ => Q s' r
              end) s ->
  wp env (try_except m h) Q s.
Proof. unfold wp, try_except. by destruct (m env s) as [s' [a|msg|]]. Qed.

Lemma wp_try_finally {A} (m : M R A) f Q s :
  wp env m (fun s' r =>
              match r with
              | Pending => Q s' Pending
              | _ => wp env f (fun s'' r' =>
                                 match r' with
                                 | Ok _ => Q s'' r
                                 | Raise msg => Q s'' (Raise msg)
                                 | Pending => Q s'' Pending
                                 end) s'
              end) s ->
  wp env (try_finally m f) Q s.
Proof.
  unfold wp, try_finally.
  destruct (m env s) as [s' [a|msg|]]; simpl; [| |done];
    by destruct (f env s') as [s'' [a'|msg'|]].
Qed.

Lemma wp_conj {A} (m : M R A) (Q Q' : IO * R -> res A -> Prop) s :
  wp env m Q s -> wp env m Q' s ->
  wp env m (fun s' r => Q s' r /\ Q' s' r) s.
Proof. unfold wp. auto. Qed.

Lemma wp_result {A} (m : M R A) s :
  wp env m (fun _ r => r = snd (m env s)) s.
Proof. done. Qed.

Lemma wp_is_set (Q : IO * R -> res bool -> Prop) s :
  Q (next_poll (fst s), snd s) (Ok (stop_at env (polls (fst s)))) ->
  wp env is_set Q s.
Proof. done. Qed.

(** A wait either happens, on an event that is set or for a time within
    [TIMEOUT_MAX], or is refused. *)
Lemma wp_wait d (Q : IO * R -> res bool -> Prop) s :
  (stop_at env (polls (fst s)) = true \/ (d <= timeout_max env)%Q ->
   Q (log (Wait d (stop_at env (polls (fst s)))) (next_poll (fst s)), snd s)
     (Ok (stop_at env (polls (fst s))))) ->
  (stop_at env (polls (fst s)) = false -> (timeout_max env < d)%Q ->
   Q (next_poll (fst s), snd s) (Raise (overflow_message env))) ->
  wp env (wait d) Q s.
Proof.
  intros Hok Hraise. unfold wp, wait.
  destruct (stop_at env (polls (fst s))) eqn:E; cbn [negb andb fst snd].
  - apply Hok. by left.
  - destruct (Qlt_bool (timeout_max env) d) eqn:Ed; cbn [fst snd].
    + apply Hraise; [done|]. by apply Qlt_bool_iff.
    + apply Hok. right. by apply Qlt_bool_false.
Qed.

Lemma timeout_max_ge_1 : (1 <= timeout_max env)%Q.
Proof.
  unfold timeout_max, Qle. simpl. rewrite Z.mul_1_r. by destruct (TIMEOUT_MAX env).
Qed.

(** A wait of at most a second is never refused. *)
Lemma wp_wait_short d (Q : IO * R -> res bool -> Prop) s :
  (d <= 1)%Q ->
  Q (log (Wait d (stop_at env (polls (fst s)))) (next_poll (fst s)), snd s)
    (Ok (stop_at env (polls (fst s)))) ->
  wp env (wait d) Q s.
Proof.
  intros Hd HQ. apply wp_wait; [done|].
  intros _ Hlt. exfalso. apply (Qlt_not_le _ _ Hlt).
  eapply Qle_trans; [exact Hd|apply timeout_max_ge_1].
Qed.

Lemma wp_time_time (Q : IO * R -> res Q -> Prop) s :
  Q (next_clock_read (fst s), snd s)
    (Ok (time_at env (clock_reads (fst s)))) ->
  wp env time_time Q s.
Proof. done. Qed.

Lemma wp_random_uniform a b (Q : IO * R -> res Q -> Prop) s :
  Q (next_draw (fst s), snd s)
    (Ok (a + (b - a) * random_at env (draws (fst s)))%Q) ->
  wp env (random_uniform a b) Q s.
Proof. done. Qed.

Lemma wp_inject c (Q : IO * R -> res unit -> Prop) s :
  (forall ok r,
      match r with
      | Ok _ => ok = true /\ inject_error env (injections (fst s)) = None
      | Raise msg =>
          ok = false /\ inject_error env (injections (fst s)) = Some msg
      | Pending => False
      end ->
      Q (log (Inject c ok) (next_injection (fst s)), snd s) r) ->
  wp env (inject c) Q s.
Proof.
  intros H. unfold wp, inject. simpl.
  destruct (inject_error env (injections (fst s))) as [msg|] eqn:E;
    apply H; done.
Qed.

End WpRules.

Ltac wp_prim :=
  lazymatch goal with
  | |- wp _ (bind _ _) _ _ => apply wp_bind
  | |- wp _ (ret _) _ _ => apply wp_ret
  | |- wp _ get _ _ => apply wp_get
  | |- wp _ (modify _) _ _ => apply wp_modify
  | |- wp _ (emit _) _ _ => apply wp_emit
  | |- wp _ is_set _ _ => apply wp_is_set
  | |- wp _ (wait _) _ _ =>
      first [apply wp_wait_short; [by vm_compute|] | apply wp_wait]
  | |- wp _ time_time _ _ => apply wp_time_time
  | |- wp _ (random_uniform _ _) _ _ => apply wp_random_uniform
  | |- wp _ pending _ _ => apply wp_pending
  | |- wp _ (try_except _ _) _ _ => apply wp_try_except
  | |- wp _ (try_finally _ _) _ _ => apply wp_try_finally
  end.
Ltac wp_steps := cbn [fst snd]; repeat (wp_prim; cbn [fst snd]).

Ltac io_simpl :=
  cbn [fst snd trace log next_poll next_clock_read next_injection next_draw
       polls clock_reads injections draws] in *.

(** The clock passes the end of a start delay of [d] seconds within [n]
    rounds of the countdown, each round reading the clock twice; a run
    without start delay has nothing to wait for. *)
Definition start_delay_over (env : Env) (d : Q) (n : nat) : Prop :=
  (d <= 0)%Q
  \/ exists j, (j < n)%nat
               /\ (time_at env 0 + d <= time_at env (1 + 2 * j))%Q.

Section Quiet.
Context {R : Type} (env : Env).

(** A step that issues no controller call and leaves the thread's own
    fields alone. *)
Definition silent {A} (s : IO * R) : IO * R -> res A -> Prop :=
  fun s' r =>
    snd s' = snd s /\ injects (trace (fst s')) = injects (trace (fst s))
    /\ polled (trace (fst s')) = polled (trace (fst s))
    /\ forall msg, r <> Raise msg.

Lemma injects_snoc tr e :
  injects (tr ++ [e])
  = (injects tr ++ match e with Inject c ok => [(c, ok)] | _ => [] end)%list.
Proof. unfold injects. rewrite omap_app. by destruct e. Qed.

Lemma polled_snoc tr e : polled (tr ++ [e]) = polled tr || is_wait e.
Proof.
  unfold polled. rewrite existsb_app. simpl. by rewrite orb_false_r.
Qed.

Lemma countdown_silent mk fuel deadline (s : IO * R) :
  wp env (countdown mk fuel deadline) (silent s) s.
Proof.
  assert (H : forall s0, snd s0 = snd s ->
              injects (trace (fst s0)) = injects (trace (fst s)) ->
              polled (trace (fst s0)) = polled (trace (fst s)) ->
              wp env (countdown mk fuel deadline) (silent s) s0).
  2:{ by apply H. }
  induction fuel as [|fuel IH]; intros s0 Hr Ht Hp; cbn [countdown].
  - apply wp_pending. by repeat split.
  - wp_steps. destruct (Qlt_bool _ _); [|wp_prim; by repeat split].
    wp_steps. destruct (stop_at _ _); cbn [negb];
      [wp_prim; by repeat split|].
    wp_steps. apply IH; [done| |]; io_simpl.
    + rewrite !injects_snoc, !app_nil_r. done.
    + rewrite !polled_snoc. cbn [is_wait]. by rewrite !orb_false_r.
Qed.

Lemma start_delay_phase_silent mk fuel d (s : IO * R) :
  wp env (start_delay_phase mk fuel d) (silent s) s.
Proof.
  unfold start_delay_phase. destruct (Qlt_bool 0 d).
  - wp_steps. eapply wp_mono; [|apply countdown_silent].
    intros s' r (Hr & Ht & Hp & Hn). by repeat split.
  - wp_prim. by repeat split.
Qed.

(** A countdown whose deadline the clock passes within [j] rounds, on a
    stop event that stays clear for as many looks, returns. *)
Lemma countdown_over mk deadline j :
  forall fuel (s : IO * R),
    (j < fuel)%nat ->
    (forall k, (polls (fst s) <= k < polls (fst s) + j)%nat ->
               stop_at env k = false) ->
    (deadline <= time_at env (clock_reads (fst s) + 2 * j))%Q ->
    wp env (countdown mk fuel deadline)
       (fun s' r =>
          r = Ok tt
          /\ (polls (fst s) <= polls (fst s') <= polls (fst s) + j)%nat) s.
Proof.
  induction j as [|j IH]; intros fuel s Hf Hclear Hpast;
    (destruct fuel as [|fuel]; [lia|]); cbn [countdown]; wp_steps.
  - destruct (Qlt_bool _ _) eqn:E; [|wp_prim; io_simpl; split; [done|lia]].
    apply Qlt_bool_iff in E. rewrite Nat.mul_0_r, Nat.add_0_r in Hpast.
    by destruct (Qlt_not_le _ _ E).
  - destruct (Qlt_bool _ _); [|wp_prim; io_simpl; split; [done|lia]].
    wp_steps. io_simpl. rewrite (Hclear (polls (fst s))) by lia.
    cbn [negb]. wp_steps.
    eapply wp_mono; [|apply (IH fuel)].
    + intros s' r [-> Hp]. io_simpl. split; [done|lia].
    + lia.
    + intros k Hk. io_simpl. apply Hclear. lia.
    + io_simpl.
      by replace (S (S (clock_reads (fst s))) + 2 * j)%nat
        with (clock_reads (fst s) + 2 * S j)%nat by lia.
Qed.

(** A run whose stop event is clear for its first [n + 1] looks and whose
    start delay is over within [n] rounds gets past its start delay, with
    the stop event still clear at the next look. *)
Lemma start_delay_phase_over mk fuel d n (r0 : R) :
  start_delay_over env d n -> (n <= fuel)%nat ->
  (forall k, (k <= n)%nat -> stop_at env k = false) ->
  wp env (start_delay_phase mk fuel d)
     (fun s' r => r = Ok tt /\ stop_at env (polls (fst s')) = false)
     (io0, r0).
Proof.
  intros Hover Hf Hclear. unfold start_delay_phase.
  destruct (Qlt_bool 0 d) eqn:Ed.
  - destruct Hover as [Hd|(j & Hj & Hpast)].
    { apply Qlt_bool_iff in Ed. by destruct (Qlt_not_le _ _ Ed). }
    wp_steps. eapply wp_mono; [|apply (countdown_over _ _ j)].
    + intros s' r [-> Hp]. cbn in Hp. split; [done|]. apply Hclear. lia.
    + lia.
    + intros k Hk. cbn in Hk. apply Hclear. lia.
    + exact Hpast.
  - wp_prim. split; [done|]. apply Hclear. cbn. lia.
Qed.

End Quiet.

(** The clicks that controller calls in a trace have delivered. *)
Definition clicks_of (e : event) : Z :=
  match e with
  | Inject (MouseClick _ n) true => n
  | _ => 0
  end.

Definition clicks_done (tr : list event) : Z :=
  foldr (fun e acc => clicks_of e + acc)%Z 0%Z tr.

Lemma clicks_done_snoc tr e :
  clicks_done (tr ++ [e]) = (clicks_done tr + clicks_of e)%Z.
Proof. induction tr as [|e' tr IH]; simpl; [lia|]. rewrite IH. lia. Qed.



(** An environment in which the stop event is never set and no controller
    call fails. *)
Definition quiet (env : Env) : Prop :=
  (forall k, stop_at env k = false) /\ (forall k, inject_error env k = None).




Section ClickFacts.

Import Click.
Variable env : Env.
Variable st : ClickSettings.

Lemma click_count_cases : click_count st = 1%Z \/ click_count st = 2%Z.
Proof. unfold click_count. destruct (String.eqb _ _); auto. Qed.

(** What a burst of [n] repetitions can do, whatever happens around it. *)
Definition burst_rel (n : nat) (s s' : IO * Run) : Prop :=
  hold_pressed (snd s') = hold_pressed (snd s)
  /\ run_reason (snd s') = run_reason (snd s)
  /\ (clicks_recorded (snd s) <= clicks_recorded (snd s')
      <= clicks_recorded (snd s) + Z.of_nat n * click_count st)%Z
  /\ (clicks_recorded (snd s') - clicks_done (trace (fst s'))
      = clicks_recorded (snd s) - clicks_done (trace (fst s)))%Z.

Ltac burst_fin :=
  repeat match goal with H : _ /\ _ |- _ => destruct H end;
  subst; unfold burst_rel in *; io_simpl; rewrite ?clicks_done_snoc in *;
  cbn [clicks_of add_clicks clicks_recorded hold_pressed run_reason] in *;
  pose proof click_count_cases;
  intuition (try congruence; try lia).

Lemma burst_spec n s :
  wp env (burst st n) (fun s' r => burst_rel n s s' /\ r <> Pending) s.
Proof.
  revert s. induction n as [|n IH]; intros s; cbn [burst].
  - wp_prim. burst_fin.
  - wp_steps. destruct (stop_at _ _); [wp_prim; burst_fin|].
    wp_prim. apply wp_inject. intros ok [[]|msg|] Hok; [|burst_fin|done].
    destruct Hok as [-> _]. wp_steps.
    destruct (1 <? burst_count st)%Z; wp_steps;
      [destruct (stop_at _ _); cbn [negb]; wp_steps|];
      (eapply wp_mono; [|apply IH]);
      intros s' r [Hrel Hr]; (split; [|exact Hr]); burst_fin.
Qed.

Lemma next_delay_spec (P : IO * Run -> res Q -> Prop) s :
  (forall io d, trace io = trace (fst s) -> polls io = polls (fst s) ->
                injections io = injections (fst s) ->
                P (io, snd s) (Ok d)) ->
  wp env (next_delay st) P s.
Proof.
  intros H. destruct s as [io r]. unfold next_delay.
  destruct (Qlt_bool _ _); wp_steps; by apply H.
Qed.






(** In hold mode: nothing is counted, and the button is pressed at most
    once, the flag saying whether it is down. *)
Definition hold_inv (s : IO * Run) : Prop :=
  clicks_recorded (snd s) = 0%Z
  /\ ((hold_pressed (snd s) = false /\ injects (trace (fst s)) = []
       /\ polled (trace (fst s)) = false)
      \/ (hold_pressed (snd s) = true
          /\ injects (trace (fst s)) = [(MousePress (button st), true)])).

Definition hold_failed (s : IO * Run) : Prop :=
  clicks_recorded (snd s) = 0%Z /\ hold_pressed (snd s) = false
  /\ injects (trace (fst s)) = [(MousePress (button st), false)].

Lemma loop_hold fuel s :
  String.eqb (mode st) "hold" = true -> hold_inv s ->
  wp env (loop fuel st)
     (fun s' r => match r with
                  | Raise _ => hold_failed s'
                  | _ => hold_inv s'
                  end) s.
Proof.
  intros Hmode. revert s. induction fuel as [|fuel IH]; intros s Hinv;
    cbn [loop]; [by wp_prim|].
  wp_steps. destruct (stop_at _ _); [by wp_prim|]. wp_steps.
  destruct (limit_enabled st && _); [by wp_prim|].
  rewrite Hmode. wp_prim.
  destruct Hinv as [Hc [(Hh & Ht & Hp)|[Hh Ht]]]; rewrite Hh; cbn [negb].
  - wp_prim. apply wp_inject. intros ok [[]|msg|] Hok; [| |done].
    + destruct Hok as [-> _]. wp_steps.
      assert (Hinv' : forall e, (forall c o, e <> Inject c o) ->
                hold_inv (log e (log (Inject (MousePress (button st)) true)
                                     (next_injection (next_poll (fst s)))),
                          set_hold true (snd s))).
      { intros e He. split; [exact Hc|]. right. split; [done|]. io_simpl.
        rewrite !injects_snoc, Ht. by destruct e; try done;
          destruct (He c ok). }
      destruct (stop_at _ _); [wp_prim|apply IH]; by apply Hinv'.
    + destruct Hok as [-> _]. unfold hold_failed. io_simpl.
      by rewrite injects_snoc, Ht.
  - assert (Hinv' : forall d b, hold_inv (log (Wait d b) (next_poll (fst s)),
                                          snd s)).
    { intros d b. split; [exact Hc|]. right. split; [done|]. io_simpl.
      by rewrite injects_snoc, Ht. }
    wp_steps. destruct (stop_at _ _); [wp_prim|apply IH]; by apply Hinv'.
Qed.

(** What a hold-mode run of the click worker leaves behind. *)
Definition hold_outcome (s' : IO * Run) (r : res unit) : Prop :=
  clicks_recorded (snd s') = 0%Z
  /\ match r with
     | Pending =>
         (hold_pressed (snd s') = false /\ injects (trace (fst s')) = []
          /\ polled (trace (fst s')) = false)
         \/ (hold_pressed (snd s') = true
             /\ injects (trace (fst s')) = [(MousePress (button st), true)])
     | Ok _ =>
         hold_pressed (snd s') = false
         /\ ((injects (trace (fst s')) = []
              /\ polled (trace (fst s')) = false)
             \/ injects (trace (fst s')) = [(MousePress (button st), false)]
             \/ exists ok,
                 injects (trace (fst s'))
                 = [(MousePress (button st), true);
                    (MouseRelease (button st), ok)])
     | Raise _ => False
     end.

Lemma cleanup_hold s :
  hold_inv s \/ hold_failed s ->
  wp env (cleanup st) (fun s' r => hold_outcome s' r /\ r = Ok tt) s.
Proof.
  intros Hs. unfold cleanup. wp_steps.
  destruct Hs as [[Hc [(Hh & Ht & Hp)|[Hh Ht]]]|(Hc & Hh & Ht)]; rewrite Hh.
  - wp_steps. unfold hold_outcome. io_simpl.
    rewrite injects_snoc, polled_snoc, Ht, Hp. by repeat split; auto.
  - wp_steps. apply wp_inject. intros ok r Hok.
    assert (Hfin : hold_outcome
              (log ScheduleFinalize
                   (log (Inject (MouseRelease (button st)) ok)
                        (next_injection (fst s))),
               set_hold false (snd s)) (Ok tt)).
    { split; [exact Hc|]. split; [done|]. right. right. exists ok.
      io_simpl. by rewrite !injects_snoc, Ht. }
    destruct r as [[]|msg|]; [| |done]; wp_steps; by split.
  - wp_steps. unfold hold_outcome. io_simpl. rewrite injects_snoc, Ht.
    by repeat split; auto.
Qed.

Lemma click_worker_hold fuel :
  String.eqb (mode st) "hold" = true ->
  wp env (click_worker fuel st) hold_outcome (io0, run0).
Proof.
  intros Hmode. unfold click_worker.
  assert (H0 : hold_inv (io0, run0)) by (split; [done|by left]).
  cbn [fst snd trace io0] in *.
  apply wp_try_finally, wp_try_except, wp_bind.
  eapply wp_mono; [|apply start_delay_phase_silent].
  intros [io1 r1] [[]|msg|] (Hr & Ht & Hp & Hn); [| by destruct (Hn msg) |].
  2:{ cbn [fst snd] in *. subst r1. split; [done|]. left. by repeat split. }
  cbn [fst snd] in *. subst r1. wp_steps.
  eapply wp_mono; [|apply (loop_hold fuel _ Hmode)].
  2:{ split; [done|]. left. split; [done|]. io_simpl.
      by rewrite injects_snoc, polled_snoc, Ht, Hp. }
  intros s2 [[]|msg|] H2.
  - eapply wp_mono; [|apply cleanup_hold; by left].
    by intros s3 r3 [H3 ->].
  - wp_prim. eapply wp_mono; [|apply cleanup_hold; by right].
    by intros s3 r3 [H3 ->].
  - destruct H2 as [? ?]. by split.
Qed.

Lemma burst_quiet n s :
  quiet env ->
  wp env (burst st n)
     (fun s' r => r = Ok tt
                  /\ clicks_recorded (snd s')
                     = (clicks_recorded (snd s)
                        + Z.of_nat n * click_count st)%Z) s.
Proof.
  intros [Hstop Hinj]. revert s. induction n as [|n IH]; intros s;
    cbn [burst].
  - wp_prim. split; [done|lia].
  - wp_steps. rewrite Hstop. wp_prim. apply wp_inject.
    intros ok [[]|msg|] Hok; [|destruct Hok; congruence|done].
    wp_steps.
    destruct (1 <? burst_count st)%Z; wp_steps;
      [rewrite Hstop; cbn [negb]; wp_steps|];
      (eapply wp_mono; [|apply IH]);
      intros s' r [-> Hc]; (split; [done|]); rewrite Hc; io_simpl;
      cbn [add_clicks clicks_recorded]; lia.
Qed.


Lemma cleanup_keeps s :
  wp env (cleanup st)
     (fun s' r => r = Ok tt
                  /\ clicks_recorded (snd s') = clicks_recorded (snd s)
                  /\ run_reason (snd s') = run_reason (snd s)
                  /\ clicks_done (trace (fst s'))
                     = clicks_done (trace (fst s))) s.
Proof.
  unfold cleanup. wp_steps. destruct (hold_pressed (snd s)); wp_steps.
  - apply wp_inject. intros ok [[]|msg|] Hok; [| |done]; wp_steps;
      io_simpl; rewrite !clicks_done_snoc; cbn [clicks_of];
      (repeat split; [done..|]); lia.
  - io_simpl. rewrite !clicks_done_snoc. cbn [clicks_of].
    repeat split; [done..|]. lia.
Qed.



End ClickFacts.

(** A run of controller calls made one after the other until one raises:
    the calls attempted with their outcomes, and whether all returned. *)
Inductive attempt : list call -> list (call * bool) -> bool -> Prop :=
| attempt_done : attempt [] [] true
| attempt_next c cs out ok :
    attempt cs out ok -> attempt (c :: cs) ((c, true) :: out) ok
| attempt_fail c cs : attempt (c :: cs) [(c, false)] false.

Lemma attempt_outcome cs out ok :
  attempt cs out ok ->
  if ok then out = map (fun c => (c, true)) cs
  else out <> map (fun c => (c, true)) cs.
Proof.
  induction 1 as [|c cs out ok H IH|]; [done| |done].
  destruct ok; simpl; [by f_equal|]. intros [= Heq]. by apply IH.
Qed.

Lemma attempt_true cs out :
  attempt cs out true -> out = map (fun c => (c, true)) cs.
Proof. apply (attempt_outcome cs out true). Qed.

Lemma attempt_false_not_all cs out :
  attempt cs out false -> out <> map (fun c => (c, true)) cs.
Proof. apply (attempt_outcome cs out false). Qed.

(** The key presses that returned, in a trace. *)
Definition press_of (e : event) : nat :=
  match e with
  | Inject (KeyPress _) true => 1%nat
  | _ => 0%nat
  end.

Definition key_presses (tr : list event) : nat :=
  foldr (fun e acc => press_of e + acc)%nat 0%nat tr.

Lemma key_presses_snoc tr e :
  key_presses (tr ++ [e]) = (key_presses tr + press_of e)%nat.
Proof. induction tr as [|e' tr IH]; simpl; [lia|]. rewrite IH. lia. Qed.

Definition as_event (co : call * bool) : event := Inject (fst co) (snd co).

Lemma injects_app tr tr' : injects (tr ++ tr') = (injects tr ++ injects tr')%list.
Proof. apply omap_app. Qed.

Lemma injects_as_event out : injects (map as_event out) = out.
Proof. induction out as [|[c ok] out IH]; [done|]. simpl. by rewrite IH. Qed.

Lemma key_presses_app tr tr' :
  key_presses (tr ++ tr') = (key_presses tr + key_presses tr')%nat.
Proof. induction tr as [|e tr IH]; simpl; [done|]. rewrite IH. lia. Qed.

Section ForEachInject.

Context {R A : Type} (env : Env) (f : A -> call).

Lemma for_each_inject (l : list A) (s : IO * R) :
  wp env (for_each l (fun x => inject (f x)))
     (fun s' r =>
        snd s' = snd s
        /\ (exists out ok,
               attempt (map f l) out ok
               /\ trace (fst s') = (trace (fst s) ++ map as_event out)%list
               /\ match r with
                  | Ok _ => ok = true
                  | Raise _ => ok = false
                  | Pending => False
                  end)
        /\ (quiet env -> r = Ok tt)) s.
Proof.
  revert s. induction l as [|x l IH]; intros s; cbn [for_each map].
  - wp_prim. split; [done|]. split; [|done].
    exists [], true. split; [constructor|]. by rewrite app_nil_r.
  - wp_prim. apply wp_inject. intros ok [[]|msg|] Hok; [| |done].
    + destruct Hok as [-> _]. eapply wp_mono; [|apply IH].
      intros s' r (Hs & (out & ok & Hat & Ht & Hr) & Hq).
      split; [done|]. split; [|done].
      exists ((f x, true) :: out), ok. split; [by constructor|].
      split; [|done]. rewrite Ht. io_simpl.
      by rewrite <- app_assoc.
    + destruct Hok as [-> Herr]. split; [done|]. split.
      * exists [(f x, false)], false. split; [constructor|done].
      * intros [_ Hinj]. rewrite Hinj in Herr. discriminate.
Qed.

End ForEachInject.

Lemma key_presses_presses (l : list KeyValue) :
  key_presses (map as_event (map (fun c => (c, true)) (map KeyPress l)))
  = length l.
Proof. induction l as [|k l IH]; [done|]. simpl. by rewrite IH. Qed.

Lemma key_presses_releases (l : list KeyValue) out ok :
  attempt (map KeyRelease l) out ok -> key_presses (map as_event out) = 0%nat.
Proof.
  revert out ok. induction l as [|k l IH]; intros out ok H; inversion H; subst;
    [done| |done].
  simpl. eauto.
Qed.

Section KeyFacts.

Import Key.
Variable env : Env.
Variable st : KeyPressSettings.

(** The calls that press the sequence, and those that release it. *)
Definition presses : list call := map KeyPress (sequence st).
Definition releases : list call := map KeyRelease (rev (sequence st)).

Lemma tap_sequence_spec n s :
  wp env (tap_sequence (sequence st) n)
     (fun s' r =>
        snd s' = snd s /\ r <> Pending
        /\ (quiet env ->
            r = Ok tt
            /\ key_presses (trace (fst s'))
               = (key_presses (trace (fst s))
                  + n * length (sequence st))%nat)) s.
Proof.
  revert s. induction n as [|n IH]; intros s; cbn [tap_sequence].
  - wp_prim. repeat split; try done; lia.
  - wp_prim. unfold press_sequence at 1.
    eapply wp_mono; [|apply for_each_inject].
    intros s1 [[]|msg|] (Hs1 & (out1 & ok1 & Hat1 & Ht1 & Hr1) & Hq1);
      [|split; [done|]; split; [done|]; intros Hq; by specialize (Hq1 Hq)
       |done].
    subst ok1. apply attempt_true in Hat1. subst out1.
    wp_steps. unfold release_sequence at 1.
    eapply wp_mono; [|apply for_each_inject].
    intros s2 [[]|msg|] (Hs2 & (out2 & ok2 & Hat2 & Ht2 & Hr2) & Hq2);
      [|split; [io_simpl; congruence|]; split; [done|];
        intros Hq; by specialize (Hq2 Hq)
       |done].
    wp_steps. eapply wp_mono; [|apply IH].
    intros s3 r3 (Hs3 & Hn3 & Hq3). io_simpl.
    split; [congruence|]. split; [done|]. intros Hq.
    destruct (Hq3 Hq) as [-> Hk]. split; [done|]. rewrite Hk. io_simpl.
    rewrite key_presses_snoc, Ht2, key_presses_app, key_presses_snoc, Ht1,
      key_presses_app, key_presses_presses,
      (key_presses_releases _ _ _ Hat2).
    simpl. lia.
Qed.

Definition key_burst_rel (n : nat) (s s' : IO * Run) : Prop :=
  key_hold_active (snd s') = key_hold_active (snd s)
  /\ key_run_reason (snd s') = key_run_reason (snd s)
  /\ (key_cycles_recorded (snd s) <= key_cycles_recorded (snd s')
      <= key_cycles_recorded (snd s) + Z.of_nat n)%Z.

Ltac key_fin :=
  repeat match goal with H : _ /\ _ |- _ => destruct H end;
  unfold key_burst_rel in *; io_simpl; subst;
  cbn [set_cycles set_hold set_reason key_cycles_recorded key_hold_active
       key_run_reason] in *;
  repeat match goal with H : snd _ = _ |- _ => rewrite H in * end;
  intuition (try congruence; try lia).

Lemma key_burst_spec n s :
  wp env (burst st n) (fun s' r => key_burst_rel n s s' /\ r <> Pending) s.
Proof.
  revert s. induction n as [|n IH]; intros s; cbn [burst].
  - wp_prim. key_fin.
  - wp_steps. destruct (stop_at _ _); [wp_prim; key_fin|].
    wp_prim. eapply wp_mono; [|apply tap_sequence_spec].
    intros [io1 r1] [[]|msg|] (Hs1 & Hn1 & _); [|key_fin|done].
    cbn [fst snd] in Hs1. subst r1. wp_steps.
    destruct (1 <? burst_count st)%Z; wp_steps;
      [destruct (stop_at _ _); cbn [negb]; wp_steps|];
      (eapply wp_mono; [|apply IH]);
      intros s' r [Hrel Hr]; (split; [|exact Hr]); key_fin.
Qed.

Lemma key_burst_quiet n s :
  quiet env ->
  wp env (burst st n)
     (fun s' r =>
        r = Ok tt
        /\ key_cycles_recorded (snd s')
           = (key_cycles_recorded (snd s) + Z.of_nat n)%Z
        /\ key_presses (trace (fst s'))
           = (key_presses (trace (fst s))
              + n * (repeats st * length (sequence st)))%nat) s.
Proof.
  intros Hq. pose proof Hq as [Hstop Hinj].
  revert s. induction n as [|n IH]; intros s; cbn [burst].
  - wp_prim. repeat split; lia.
  - wp_steps. rewrite Hstop. wp_prim.
    eapply wp_mono; [|apply tap_sequence_spec].
    intros [io1 r1] r (Hs1 & _ & Hq1). destruct (Hq1 Hq) as [-> Hk1].
    cbn [fst snd] in *. subst r1. wp_steps.
    destruct (1 <? burst_count st)%Z; wp_steps;
      [rewrite Hstop; cbn [negb]; wp_steps|];
      (eapply wp_mono; [|apply IH]);
      intros s' r' (-> & Hc & Hk); (split; [done|]);
      rewrite Hc, Hk; io_simpl; rewrite ?key_presses_snoc, Hk1;
      cbn [set_cycles key_cycles_recorded press_of]; lia.
Qed.

Lemma key_next_delay_spec (P : IO * Run -> res Q -> Prop) s :
  (forall io d, trace io = trace (fst s) -> P (io, snd s) (Ok d)) ->
  wp env (next_delay st) P s.
Proof.
  intros H. destruct s as [io r]. unfold next_delay.
  destruct (Qlt_bool _ _); wp_steps; by apply H.
Qed.





(** In hold mode: the sequence is pressed at most once, the flag saying
    whether it is down, and the counter saying whether it ever was. *)
Definition key_hold_inv (s : IO * Run) : Prop :=
  (key_hold_active (snd s) = false /\ key_cycles_recorded (snd s) = 0%Z
   /\ injects (trace (fst s)) = [] /\ polled (trace (fst s)) = false)
  \/ (key_hold_active (snd s) = true /\ key_cycles_recorded (snd s) = 1%Z
      /\ injects (trace (fst s)) = map (fun c => (c, true)) presses).

Definition key_hold_failed (s : IO * Run) : Prop :=
  key_hold_active (snd s) = false /\ key_cycles_recorded (snd s) = 0%Z
  /\ attempt presses (injects (trace (fst s))) false.

Lemma key_hold_inv_log e s :
  (forall c ok, e <> Inject c ok) -> key_hold_active (snd s) = true ->
  key_hold_inv s -> key_hold_inv (log e (fst s), snd s).
Proof.
  intros He Hact [(Hh & _)|Hinv]; [congruence|]. right.
  io_simpl. rewrite injects_snoc.
  destruct e; try (by rewrite app_nil_r). by destruct (He c ok).
Qed.

Lemma key_loop_hold fuel s :
  String.eqb (mode st) "hold" = true -> key_hold_inv s ->
  wp env (loop fuel st)
     (fun s' r => match r with
                  | Raise _ => key_hold_failed s'
                  | _ => key_hold_inv s'
                  end) s.
Proof.
  intros Hmode. revert s. induction fuel as [|fuel IH]; intros s Hinv;
    cbn [loop]; [by wp_prim|].
  wp_steps. destruct (stop_at _ _); [by wp_prim|]. wp_steps.
  destruct (limit_enabled st && _); [by wp_prim|].
  rewrite Hmode. wp_prim.
  destruct Hinv as [(Hh & Hc & Ht & Hp)|(Hh & Hc & Ht)]; rewrite Hh;
    cbn [negb].
  - wp_prim. unfold press_sequence.
    eapply wp_mono; [|apply for_each_inject].
    intros [io1 r1] [[]|msg|] (Hs1 & (out & ok & Hat & Ht1 & Hr1) & _);
      [| |done]; io_simpl; subst r1 ok.
    + apply attempt_true in Hat. wp_steps.
      assert (Hinv1 : key_hold_inv
                (io1, if (key_cycles_recorded (set_hold true (snd s)) =? 0)%Z
                      then set_cycles 1 (set_hold true (snd s))
                      else set_hold true (snd s))).
      { right. cbn [set_hold key_cycles_recorded snd fst]. rewrite Hc.
        cbn. split; [done|]. split; [done|].
        rewrite Ht1, injects_app, Ht, injects_as_event. by rewrite Hat. }
      destruct (stop_at _ _); [wp_prim|apply IH];
        apply (key_hold_inv_log _ (next_poll io1, _)); try done;
        cbn [snd set_hold key_cycles_recorded]; rewrite Hc; done.
    + split; [done|]. split; [done|]. cbn [fst].
      by rewrite Ht1, injects_app, Ht, injects_as_event.
  - assert (Hinv1 : key_hold_inv (next_poll (fst s), snd s))
      by (right; by repeat split).
    wp_steps. destruct (stop_at _ _); [wp_prim|apply IH];
      by apply (key_hold_inv_log _ (next_poll (fst s), snd s)).
Qed.

(** What a hold-mode run of the key worker leaves behind. *)
Definition key_hold_outcome (s' : IO * Run) (r : res unit) : Prop :=
  match r with
  | Pending => key_hold_inv s'
  | Ok _ =>
      key_hold_active (snd s') = false
      /\ ((key_cycles_recorded (snd s') = 0%Z
           /\ injects (trace (fst s')) = []
           /\ polled (trace (fst s')) = false)
          \/ (key_cycles_recorded (snd s') = 0%Z
              /\ attempt presses (injects (trace (fst s'))) false)
          \/ (key_cycles_recorded (snd s') = 1%Z
              /\ exists rel ok,
                  attempt releases rel ok
                  /\ injects (trace (fst s'))
                     = (map (fun c => (c, true)) presses ++ rel)%list))
  | Raise _ => False
  end.

Lemma key_cleanup_hold s :
  key_hold_inv s \/ key_hold_failed s ->
  wp env (cleanup st) (fun s' r => key_hold_outcome s' r /\ r = Ok tt) s.
Proof.
  intros Hs. unfold cleanup. wp_steps.
  destruct Hs as [[(Hh & Hc & Ht & Hp)|(Hh & Hc & Ht)]|(Hh & Hc & Ht)];
    rewrite Hh.
  - wp_steps. unfold key_hold_outcome. io_simpl.
    rewrite injects_snoc, polled_snoc, Ht, Hp. by repeat split; auto.
  - wp_steps. unfold release_sequence.
    eapply wp_mono; [|apply for_each_inject].
    intros [io1 r1] r (Hs1 & (rel & ok & Hat & Ht1 & Hr1) & _).
    cbn [fst snd] in *. subst r1.
    assert (Hfin : key_hold_outcome
              (log ScheduleFinalize io1, set_hold false (snd s)) (Ok tt)).
    { split; [done|]. right. right. split; [exact Hc|].
      exists rel, ok. split; [exact Hat|]. io_simpl.
      by rewrite injects_snoc, Ht1, injects_app, Ht, injects_as_event,
        app_nil_r. }
    destruct r as [[]|msg|]; [| |done]; wp_steps; by split.
  - wp_steps. unfold key_hold_outcome. io_simpl.
    rewrite injects_snoc, app_nil_r. by repeat split; auto.
Qed.

Lemma key_worker_hold fuel :
  String.eqb (mode st) "hold" = true ->
  wp env (key_worker fuel st) key_hold_outcome (io0, run0).
Proof.
  intros Hmode. unfold key_worker.
  apply wp_try_finally, wp_try_except, wp_bind.
  eapply wp_mono; [|apply start_delay_phase_silent].
  intros [io1 r1] [[]|msg|] (Hr & Ht & Hp & Hn); [| by destruct (Hn msg) |];
    cbn [fst snd] in *; subst r1.
  2:{ left. by repeat split. }
  wp_steps.
  eapply wp_mono; [|apply (key_loop_hold fuel _ Hmode)].
  2:{ left. split; [done|]. split; [done|]. io_simpl.
      by rewrite injects_snoc, polled_snoc, Ht, Hp. }
  intros s2 [[]|msg|] H2.
  - eapply wp_mono; [|apply key_cleanup_hold; by left].
    by intros s3 r3 [H3 ->].
  - wp_prim. eapply wp_mono; [|apply key_cleanup_hold; by right].
    by intros s3 r3 [H3 ->].
  - exact H2.
Qed.





End KeyFacts.

(** ** The timed-action workers *)

(** Sample environments and settings. *)
Definition env_quiet : Env :=
  {| stop_at := fun _ => false;
     time_at := fun k => inject_Z (Z.of_nat k);
     inject_error := fun _ => None;
     random_at := fun _ => 0%Q;
     reason_at := fun _ => None;
     TIMEOUT_MAX := 4294967;
     overflow_message := "timeout value is too large" |}.

(** The stop event is set, with reason ["Stopped"], before look [n]. *)
Definition env_stopped_from (n : nat) : Env :=
  {| stop_at := fun k => (n <=? k)%nat;
     time_at := fun k => inject_Z (Z.of_nat k);
     inject_error := fun _ => None;
     random_at := fun _ => 0%Q;
     reason_at := fun k => if (n <=? k)%nat then Some "Stopped" else None;
     TIMEOUT_MAX := 4294967;
     overflow_message := "timeout value is too large" |}.

Definition click_settings (mode : string) (burst limit : Z) (limited : bool)
  : Click.ClickSettings :=
  {| Click.button := left; Click.mode := mode; Click.base_interval := 0.1;
     Click.jitter := 0; Click.burst_count := burst; Click.start_delay := 0;
     Click.limit_enabled := limited; Click.limit_count := limit |}.

Definition key_settings (mode : string) (burst limit : Z) (limited : bool)
  : Key.KeyPressSettings :=
  {| Key.sequence := [KeyName "ctrl"; KeyChar "a"]; Key.mode := mode;
     Key.base_interval := 0.15; Key.jitter := 0; Key.burst_count := burst;
     Key.start_delay := 0; Key.limit_enabled := limited;
     Key.limit_count := limit |}.

Lemma env_quiet_quiet : quiet env_quiet.
Proof. by split. Qed.

(** C2, as stated, fails for the key worker in double mode: one repetition
    taps the two-key sequence twice (four key presses), and the cycle counter
    goes up by one, not by two. *)
Lemma C2_counterexample :
  let '(s', r) :=
    Key.burst (key_settings "double" 1 500 false) 1 env_quiet (io0, Key.run0)
  in
  r = Ok tt
  /\ key_presses (trace (fst s')) = 4%nat
  /\ Key.key_cycles_recorded (snd s') = 1%Z
  /\ Key.key_cycles_recorded (snd s')
     <> (Key.key_cycles_recorded Key.run0 + 2 * 1)%Z.
Proof. vm_compute. repeat split; discriminate. Qed.

(** C2 (amended): after a burst of the click worker the click counter has
    gone up by exactly the clicks delivered in it, whatever happened; in a
    burst that nothing interrupts that is, for each of the [burst_count]
    repetitions, 2 in double mode and 1 otherwise.  The key worker counts
    cycles: after an uninterrupted burst its counter has gone up by 1 per
    repetition in every mode, while each repetition taps the sequence twice
    in double mode and once otherwise. *)
Theorem C2_burst_counter (env : Env) (st : Click.ClickSettings)
    (kst : Key.KeyPressSettings) (s : IO * Click.Run) (ks : IO * Key.Run) :
  wp env (Click.burst st (Z.to_nat (Click.burst_count st)))
     (fun s' _ =>
        (Click.clicks_recorded (snd s') - Click.clicks_recorded (snd s)
         = clicks_done (trace (fst s')) - clicks_done (trace (fst s)))%Z) s
  /\ (quiet env -> (0 <= Click.burst_count st)%Z ->
      wp env (Click.burst st (Z.to_nat (Click.burst_count st)))
         (fun s' r =>
            r = Ok tt
            /\ Click.clicks_recorded (snd s')
               = (Click.clicks_recorded (snd s)
                  + Click.burst_count st
                    * (if String.eqb (Click.mode st) "double" then 2 else 1))%Z)
         s)
  /\ (quiet env -> (0 <= Key.burst_count kst)%Z ->
      wp env (Key.burst kst (Z.to_nat (Key.burst_count kst)))
         (fun s' r =>
            r = Ok tt
            /\ Key.key_cycles_recorded (snd s')
               = (Key.key_cycles_recorded (snd ks) + Key.burst_count kst)%Z
            /\ key_presses (trace (fst s'))
               = (key_presses (trace (fst ks))
                  + Z.to_nat (Key.burst_count kst)
                    * ((if String.eqb (Key.mode kst) "double" then 2 else 1)
                       * length (Key.sequence kst)))%nat)
         ks).
Proof.
  repeat apply conj.
  - eapply wp_mono; [|apply burst_spec].
    intros s' r [(_ & _ & _ & Hd) _]. lia.
  - intros Hq Hb. eapply wp_mono; [|apply (burst_quiet env st _ _ Hq)].
    intros s' r [-> Hc]. split; [done|]. rewrite Hc, Z2Nat.id by done.
    done.
  - intros Hq Hb. eapply wp_mono; [|apply (key_burst_quiet env kst _ _ Hq)].
    intros s' r (-> & Hc & Hk). split; [done|]. rewrite Hc, Hk.
    unfold Key.repeats. split; [lia|]. by destruct (String.eqb _ _).
Qed.

Lemma C2_burst_counter_witness :
  wp env_quiet (Click.burst (click_settings "double" 3 500 false) 3)
     (fun s' r =>
        r = Ok tt /\ Click.clicks_recorded (snd s') = (0 + 3 * 2)%Z)
     (io0, Click.run0)
  /\ wp env_quiet (Key.burst (key_settings "double" 3 500 false) 3)
       (fun s' r =>
          r = Ok tt /\ Key.key_cycles_recorded (snd s') = (0 + 3)%Z
          /\ key_presses (trace (fst s')) = (0 + 3 * (2 * 2))%nat)
       (io0, Key.run0).
Proof.
  split.
  - apply (proj1 (proj2 (C2_burst_counter env_quiet
                           (click_settings "double" 3 500 false)
                           (key_settings "double" 3 500 false)
                           (io0, Click.run0) (io0, Key.run0))));
      [exact env_quiet_quiet | simpl; lia].
  - apply (proj2 (proj2 (C2_burst_counter env_quiet
                           (click_settings "double" 3 500 false)
                           (key_settings "double" 3 500 false)
                           (io0, Click.run0) (io0, Key.run0))));
      [exact env_quiet_quiet | simpl; lia].
Defined.

Lemma attempt_false_prefix cs out :
  attempt cs out false -> ¬ (map (fun c => (c, true)) cs) `prefix_of` out.
Proof.
  intros H. remember false as ok eqn:E. revert E.
  induction H as [|c cs out ok H IH|c cs]; intros E; [done| |].
  - simpl. intros Hp. apply prefix_cons_inv_2 in Hp. by apply IH.
  - simpl. intros Hp. apply prefix_cons_inv_1 in Hp. discriminate.
Qed.

(** ** Macro player *)

(** The controller calls that replaying one event attempts, in order. *)
Definition calls_of (e : Macro.MacroEvent) : list call :=
  if String.eqb (Macro.kind e) "key" then
    match Macro.key_value e with
    | None => []
    | Some k =>
        [if String.eqb (Macro.action e) "press" then KeyPress k
         else KeyRelease k]
    end
  else if String.eqb (Macro.kind e) "mouse" then
    (match Macro.position e with
     | Some (x, y) => [MouseMove x y]
     | None => []
     end
     ++ match Macro.mouse_button e with
        | None => []
        | Some b =>
            [if String.eqb (Macro.action e) "press" then MousePress b
             else MouseRelease b]
        end)%list
  else [].

(** The controller calls of a trace, without their outcomes. *)
Definition calls (tr : list event) : list call := map fst (injects tr).

(** What a trace holds after its first wait that was cut short by the stop
    event, if there is one. *)
Fixpoint after_interrupt (tr : list event) : option (list event) :=
  match tr with
  | [] => None
  | Wait _ true :: rest => Some rest
  | _ :: rest => after_interrupt rest
  end.

(** The events of [loops] passes over the macro, in replay order. *)
Definition replay_order (events : list Macro.MacroEvent) (loops : Z)
  : list Macro.MacroEvent :=
  concat (replicate (Z.to_nat loops) events).

(** How the threads that cancel a playback behave: they store "Stopped" or
    "Emergency stop" in the reason field, and only then set the stop event;
    what they stored stays. *)
Definition stop_protocol (env : Env) : Prop :=
  (forall k k', (k <= k')%nat -> stop_at env k = true ->
                is_Some (reason_at env k'))
  /\ (forall k r, reason_at env k = Some r ->
                  r = "Stopped" \/ r = "Emergency stop").

(** Every delay of the macro is a wait [threading] accepts. *)
Definition delays_accepted (env : Env) (events : list Macro.MacroEvent)
  : Prop :=
  Forall (fun e => (Macro.delay e <= timeout_max env)%Q) events.

Lemma calls_app tr tr' : calls (tr ++ tr') = (calls tr ++ calls tr')%list.
Proof. unfold calls. by rewrite injects_app, map_app. Qed.

Lemma calls_as_event outs : calls (map as_event outs) = map fst outs.
Proof. unfold calls. by rewrite injects_as_event. Qed.

Lemma after_interrupt_app tr tr' :
  after_interrupt (tr ++ tr')
  = match after_interrupt tr with
    | Some rest => Some (rest ++ tr')%list
    | None => after_interrupt tr'
    end.
Proof.
  induction tr as [|e tr IH]; [done|]. simpl.
  destruct e as [| | |d []|]; done.
Qed.

Lemma after_interrupt_as_event outs : after_interrupt (map as_event outs) = None.
Proof. induction outs as [|[c ok] outs IH]; done. Qed.

Lemma after_interrupt_unpolled tr : polled tr = false -> after_interrupt tr = None.
Proof.
  induction tr as [|e tr IH]; [done|]. simpl.
  destruct e as [| | |d b|]; simpl; try done.
Qed.

Section PlayerFacts.

Import Macro.
Variable env : Env.

(** One injection whose failure is swallowed. *)
Lemma swallow_inject c s :
  wp env (swallow (inject c))
     (fun s' r => r = Ok tt /\ snd s' = snd s
                  /\ polls (fst s') = polls (fst s)
                  /\ exists ok,
                      trace (fst s') = (trace (fst s) ++ [Inject c ok])%list)
     s.
Proof.
  unfold swallow. apply wp_try_except, wp_inject.
  intros ok [[]|msg|] Hok; [| |done]; try wp_prim; io_simpl;
    repeat split; by exists ok.
Qed.

Lemma apply_macro_event_spec e s :
  wp env (apply_macro_event e)
     (fun s' r => r = Ok tt /\ snd s' = snd s
                  /\ polls (fst s') = polls (fst s)
                  /\ exists outs,
                      map fst outs = calls_of e
                      /\ trace (fst s')
                         = (trace (fst s) ++ map as_event outs)%list) s.
Proof.
  assert (Hnone : forall s0 : IO * Run,
             s0 = s ->
             Ok tt = Ok tt /\ snd s0 = snd s
             /\ polls (fst s0) = polls (fst s)
             /\ exists outs : list (call * bool),
                 map fst outs = []
                 /\ trace (fst s0) = (trace (fst s) ++ map as_event outs)%list).
  { intros s0 ->. repeat split. exists []. by rewrite app_nil_r. }
  unfold apply_macro_event, calls_of.
  destruct (String.eqb (kind e) "key").
  { destruct (key_value e) as [k|]; [|wp_prim; by apply Hnone].
    destruct (String.eqb (action e) "press");
      (eapply wp_mono; [|apply swallow_inject]);
      intros s' r (-> & Hs & Hp & ok & Ht); (repeat split; try done);
      eexists [(_, ok)]; (split; [reflexivity|]); by rewrite Ht. }
  destruct (String.eqb (kind e) "mouse"); [|wp_prim; by apply Hnone].
  wp_prim.
  assert (Hmove : wp env
            (match position e with
             | Some (x, y) => swallow (inject (MouseMove x y))
             | None => ret tt
             end)
            (fun s' r =>
               r = Ok tt /\ snd s' = snd s
               /\ polls (fst s') = polls (fst s)
               /\ exists outs,
                   map fst outs
                   = match position e with
                     | Some (x, y) => [MouseMove x y]
                     | None => []
                     end
                   /\ trace (fst s')
                      = (trace (fst s) ++ map as_event outs)%list) s).
  { destruct (position e) as [[x y]|]; [|wp_prim; by apply Hnone].
    eapply wp_mono; [|apply swallow_inject].
    intros s' r (-> & Hs & Hp & ok & Ht). repeat split; try done.
    by exists [(MouseMove x y, ok)]. }
  eapply wp_mono; [|exact Hmove].
  intros s1 r1 (-> & Hs1 & Hp1 & outs1 & Hc1 & Ht1).
  destruct (mouse_button e) as [b|].
  - destruct (String.eqb (action e) "press");
      (eapply wp_mono; [|apply swallow_inject]);
      intros s' r (-> & Hs & Hp & ok & Ht);
      (split; [done|]); (split; [congruence|]); (split; [congruence|]);
      eexists (outs1 ++ [(_, ok)])%list;
      rewrite map_app, Hc1; (split; [reflexivity|]);
      by rewrite Ht, Ht1, map_app, <- app_assoc.
  - wp_prim. split; [done|]. split; [done|]. split; [done|].
    exists outs1. by rewrite app_nil_r.
Qed.

(** What replaying (some of) a list of events leaves behind: [n] events
    were applied, in order; the trace grew by [new]. *)
Definition replayed (events : list MacroEvent) (s s' : IO * Run)
    (r : res bool) : Prop :=
  exists n new,
    (n <= length events)%nat /\ snd s' = snd s
    /\ trace (fst s') = (trace (fst s) ++ new)%list
    /\ calls new = concat (map calls_of (take n events))
    /\ (polls (fst s) <= polls (fst s'))%nat
    /\ match r with
       | Ok true => n = length events /\ after_interrupt new = None
       | Ok false =>
           (after_interrupt new = None \/ after_interrupt new = Some [])
           /\ exists k, (k < polls (fst s'))%nat /\ stop_at env k = true
       | _ => False
       end.

Lemma play_events_spec events s :
  delays_accepted env events ->
  wp env (play_events events) (replayed events s) s.
Proof.
  intros Hacc. revert s.
  induction events as [|e rest IH]; intros s; cbn [play_events].
  - wp_prim. exists 0%nat, []. rewrite app_nil_r. by repeat split.
  - apply Forall_cons in Hacc as [Hd Hacc]. specialize (IH Hacc).
    wp_steps. destruct (stop_at env (polls (fst s))) eqn:Hstop.
    { wp_prim. exists 0%nat, []. rewrite app_nil_r. io_simpl.
      repeat split; try done; try lia; [by left|].
      exists (polls (fst s)). split; [lia|done]. }
    assert (Hcont : forall s1 pre,
               snd s1 = snd s ->
               trace (fst s1) = (trace (fst s) ++ pre)%list ->
               calls pre = [] -> after_interrupt pre = None ->
               (polls (fst s) <= polls (fst s1))%nat ->
               wp env (bind (apply_macro_event e)
                            (fun _ => play_events rest))
                  (replayed (e :: rest) s) s1).
    { intros s1 pre Hs1 Ht1 Hc1 Ha1 Hp1. wp_prim.
      eapply wp_mono; [|apply apply_macro_event_spec].
      intros s2 r2 (-> & Hs2 & Hp2 & outs & Hco & Ht2).
      eapply wp_mono; [|apply IH].
      intros s3 r3 (n & new & Hn & Hs3 & Ht3 & Hc3 & Hp3 & Hr3).
      exists (S n), (pre ++ map as_event outs ++ new)%list.
      split; [simpl; lia|]. split; [congruence|].
      split; [by rewrite Ht3, Ht2, Ht1, <- !app_assoc|].
      split.
      { rewrite !calls_app, Hc1, calls_as_event, Hco, Hc3. done. }
      split; [lia|].
      assert (Ha : after_interrupt (pre ++ map as_event outs ++ new)
                   = after_interrupt new).
      { by rewrite !after_interrupt_app, Ha1, after_interrupt_as_event. }
      rewrite Ha. destruct r3 as [[]|msg|]; [| |done..].
      - destruct Hr3 as [-> ?]. by split.
      - exact Hr3. }
    wp_prim. destruct (Qlt_bool 0 (delay e)).
    + wp_steps; [intros _|by intros _ ?%Qlt_not_le].
      destruct (stop_at env (polls (next_poll (fst s)))) eqn:Hw.
      * wp_prim. exists 0%nat, [Wait (delay e) true]. io_simpl.
        repeat split; try done; try lia; [by right|].
        exists (S (polls (fst s))). split; [lia|done].
      * apply (Hcont _ [Wait (delay e) false]); try done. io_simpl. lia.
    + wp_prim. apply (Hcont _ []); try done; io_simpl;
        [by rewrite app_nil_r|lia].
Qed.

Lemma play_loops_spec events loops n loop_index s :
  delays_accepted env events ->
  wp env (play_loops events loops n loop_index)
     (replayed (concat (replicate n events)) s) s.
Proof.
  intros Hacc.
  revert loop_index s. induction n as [|n IH]; intros loop_index s;
    cbn [play_loops replicate concat].
  - wp_prim. exists 0%nat, []. rewrite app_nil_r. by repeat split.
  - wp_steps. destruct (stop_at env (polls (fst s))) eqn:Hstop.
    { wp_prim. exists 0%nat, []. rewrite app_nil_r. io_simpl.
      repeat split; try done; try lia; [by left|].
      exists (polls (fst s)). split; [lia|done]. }
    wp_steps. eapply wp_mono; [|by apply play_events_spec].
    intros s1 r1 (m & new1 & Hm & Hs1 & Ht1 & Hc1 & Hp1 & Hr1). io_simpl.
    destruct r1 as [[]|msg|]; [| |done..].
    + destruct Hr1 as [-> Ha1]. rewrite take_ge in Hc1 by done.
      eapply wp_mono; [|apply IH].
      intros s2 r2 (m' & new2 & Hm' & Hs2 & Ht2 & Hc2 & Hp2 & Hr2).
      exists (length events + m')%nat,
        ([Ui (PlayingLoop (loop_index + 1) loops)] ++ new1 ++ new2)%list.
      split; [rewrite length_app; lia|]. split; [congruence|].
      split; [by rewrite Ht2, Ht1, <- !app_assoc|].
      split.
      { rewrite take_app_add, map_app, concat_app, !calls_app, Hc1, Hc2.
        done. }
      split; [lia|].
      assert (Ha : after_interrupt
                     ([Ui (PlayingLoop (loop_index + 1) loops)]
                        ++ new1 ++ new2)
                   = after_interrupt new2).
      { cbn [app after_interrupt]. by rewrite after_interrupt_app, Ha1. }
      rewrite Ha. destruct r2 as [[]|msg|]; [| |done..].
      * destruct Hr2 as [-> ?]. split; [|done]. by rewrite length_app.
      * exact Hr2.
    + wp_prim.
      exists m, ([Ui (PlayingLoop (loop_index + 1) loops)] ++ new1)%list.
      split; [rewrite length_app; lia|]. split; [done|].
      split; [by rewrite Ht1, <- !app_assoc|].
      split; [by rewrite take_app_le, calls_app, Hc1 by done|].
      split; [lia|]. exact Hr1.
Qed.

Lemma wp_read_reason (P : IO * Run -> res string -> Prop) s :
  P s (Ok match reason_at env (polls (fst s)) with
          | Some r => r
          | None => run_reason (snd s)
          end) ->
  wp env read_reason P s.
Proof. done. Qed.

(** What a playback leaves behind when its thread has exited. *)
Definition playback_outcome (events : list MacroEvent) (loops : Z)
    (s' : IO * Run) : Prop :=
  exists n,
    (n <= length (replay_order events loops))%nat
    /\ calls (trace (fst s'))
       = concat (map calls_of (take n (replay_order events loops)))
    /\ (after_interrupt (trace (fst s')) = None
        \/ after_interrupt (trace (fst s')) = Some [ScheduleFinalize])
    /\ (terminal_reason env s' = "Completed" <->
        n = length (replay_order events loops)
        /\ reason_at env (polls (fst s')) = None)
    /\ (terminal_reason env s' = "Completed"
        \/ terminal_reason env s' = "Stopped"
        \/ terminal_reason env s' = "Emergency stop").

Lemma macro_play_worker_spec fuel events loops start_delay :
  stop_protocol env -> delays_accepted env events ->
  wp env (macro_play_worker fuel events loops start_delay)
     (fun s' r =>
        match r with
        | Ok _ => playback_outcome events loops s'
        | Pending =>
            snd (start_delay_phase PlayingIn fuel start_delay env
                   (io0, run0)) = Pending
            /\ calls (trace (fst s')) = []
        | Raise _ => False
        end) (io0, run0).
Proof.
  intros [Hset Hwho] Hacc. unfold macro_play_worker.
  apply wp_try_finally, wp_try_except, wp_bind.
  eapply wp_mono.
  2:{ apply wp_conj; [apply start_delay_phase_silent|apply wp_result]. }
  intros [io1 r1] r [(Hr & Ht & Hp & Hn) Hres]. cbn [fst snd] in *.
  subst r1. destruct r as [[]|msg|]; [|by destruct (Hn msg)|].
  2:{ split; [done|]. unfold calls. by rewrite Ht. }
  wp_steps. eapply wp_mono; [|by apply play_loops_spec].
  intros [io2 r2] r (n & new & Hlen & Hs2 & Ht2 & Hc2 & Hp2 & Hr2).
  io_simpl. subst r2.
  assert (Hcalls : calls (trace io2 ++ [ScheduleFinalize])
                   = concat (map calls_of
                               (take n (replay_order events loops)))).
  { rewrite Ht2, !calls_app. unfold calls at 1. rewrite Ht. cbn. 
    by rewrite Hc2, app_nil_r. }
  assert (Hafter : after_interrupt (trace io2 ++ [ScheduleFinalize])
                   = match after_interrupt new with
                     | Some rest => Some (rest ++ [ScheduleFinalize])%list
                     | None => None
                     end).
  { rewrite Ht2, <- !app_assoc, !after_interrupt_app.
    rewrite (after_interrupt_unpolled _ Hp). cbn [after_interrupt].
    by destruct (after_interrupt new). }
  destruct r as [[]|msg|]; [| |done..].
  - destruct Hr2 as [-> Ha]. wp_prim. apply wp_read_reason. io_simpl.
    destruct (reason_at env (polls io2)) as [r'|] eqn:Hreason.
    + destruct (Hwho _ _ Hreason) as [->| ->];
        [change (String.eqb "Stopped" "Playing") with false
        |change (String.eqb "Emergency stop" "Playing") with false];
        wp_steps; exists (length (replay_order events loops));
        unfold terminal_reason; io_simpl; rewrite Hreason, Hafter, Ha;
        (split; [done|]); (split; [exact Hcalls|]); (split; [by left|]);
        (split; [split; [discriminate|by intros [_ ?]]|]); auto.
    + change (String.eqb (run_reason run0) "Playing") with true.
      wp_steps; exists (length (replay_order events loops)).
      unfold terminal_reason. io_simpl. rewrite Hreason, Hafter, Ha.
      cbn [run_reason].
      split; [done|]. split; [exact Hcalls|]. split; [by left|].
      split; [by split|]. by left.
  - destruct Hr2 as [Ha (k & Hk & Hstopped)]. wp_steps.
    destruct (Hset k (polls io2) ltac:(lia) Hstopped) as [r' Hreason].
    exists n. unfold terminal_reason. io_simpl. rewrite Hreason, Hafter.
    split; [done|]. split; [exact Hcalls|].
    split; [by destruct Ha as [-> | ->]; auto|].
    destruct (Hwho _ _ Hreason) as [->| ->];
      (split; [split; [discriminate|by intros [_ ?]]|]); auto.
Qed.

End PlayerFacts.

Lemma env_stopped_from_protocol n : stop_protocol (env_stopped_from n).
Proof.
  split.
  - intros k k' Hle Hstop. simpl in *. apply Nat.leb_le in Hstop.
    rewrite (proj2 (Nat.leb_le n k')) by lia. eauto.
  - intros k r. simpl. destruct (n <=? k)%nat; [|discriminate].
    intros [= <-]. by left.
Qed.

Definition sample_macro : list Macro.MacroEvent :=
  [ {| Macro.kind := "mouse"; Macro.action := "press"; Macro.delay := 0.5;
       Macro.key_value := None; Macro.mouse_button := Some left;
       Macro.position := Some (30, 40)%Z |};
    {| Macro.kind := "key"; Macro.action := "release"; Macro.delay := 0.25;
       Macro.key_value := Some (KeyChar "a"); Macro.mouse_button := None;
       Macro.position := None |} ].

(** C5: for every playback run of a macro whose delays are waits that
    [threading] accepts (none above [TIMEOUT_MAX]; a recorded delay is the
    time between two inputs of one session), under the discipline of the
    threads that cancel it (reason first, stop event second): when the
    worker has exited, the controller calls it made are those of the first
    [n] events of the macro repeated [loops] times, in recorded order, for
    some [n]; nothing
    but the hand-over to the UI follows a delay wait that the stop event cut
    short, so the waited-for event, the rest of the loop and the remaining
    loops are not applied; and the reason left in the reason field is
    "Completed" exactly when all events of all loops were applied and no
    cancellation had been requested, and "Stopped" or "Emergency stop"
    otherwise.  No exception leaves the worker, and the worker is still
    running only while its start-delay countdown is, which never happens
    without a start delay. *)
Theorem C5_macro_playback (env : Env) (fuel : nat)
    (events : list Macro.MacroEvent) (loops : Z) (start_delay : Q) :
  stop_protocol env -> delays_accepted env events ->
  wp env (Macro.macro_play_worker fuel events loops start_delay)
     (fun s' r =>
        match r with
        | Ok _ =>
            exists n,
              (n <= length (replay_order events loops))%nat
              /\ calls (trace (fst s'))
                 = concat (map calls_of (take n (replay_order events loops)))
              /\ (after_interrupt (trace (fst s')) = None
                  \/ after_interrupt (trace (fst s'))
                     = Some [ScheduleFinalize])
              /\ (Macro.terminal_reason env s' = "Completed" <->
                  n = length (replay_order events loops)
                  /\ reason_at env (polls (fst s')) = None)
              /\ (Macro.terminal_reason env s' = "Completed"
                  \/ Macro.terminal_reason env s' = "Stopped"
                  \/ Macro.terminal_reason env s' = "Emergency stop")
        | Pending =>
            snd (start_delay_phase PlayingIn fuel start_delay env
                   (io0, Macro.run0)) = Pending
            /\ Qlt_bool 0 start_delay = true
            /\ calls (trace (fst s')) = []
        | Raise _ => False
        end) (io0, Macro.run0).
Proof.
  intros Hproto Hacc.
  eapply wp_mono;
    [|apply (macro_play_worker_spec env fuel events loops start_delay Hproto
               Hacc)].
  intros s' [[]|msg|] H; [exact H|done|].
  destruct H as [Hpending Hcalls]. repeat split; [done| |done].
  unfold start_delay_phase in Hpending.
  by destruct (Qlt_bool 0 start_delay).
Qed.

Lemma C5_macro_playback_witness :
  wp (env_stopped_from 5) (Macro.macro_play_worker 4 sample_macro 2 0)
     (fun s' r =>
        match r with
        | Ok _ =>
            exists n,
              (n <= length (replay_order sample_macro 2))%nat
              /\ calls (trace (fst s'))
                 = concat (map calls_of (take n (replay_order sample_macro 2)))
              /\ (after_interrupt (trace (fst s')) = None
                  \/ after_interrupt (trace (fst s'))
                     = Some [ScheduleFinalize])
              /\ (Macro.terminal_reason (env_stopped_from 5) s' = "Completed"
                  <-> n = length (replay_order sample_macro 2)
                      /\ reason_at (env_stopped_from 5) (polls (fst s'))
                         = None)
              /\ (Macro.terminal_reason (env_stopped_from 5) s' = "Completed"
                  \/ Macro.terminal_reason (env_stopped_from 5) s' = "Stopped"
                  \/ Macro.terminal_reason (env_stopped_from 5) s'
                     = "Emergency stop")
        | Pending =>
            snd (start_delay_phase PlayingIn 4 0 (env_stopped_from 5)
                   (io0, Macro.run0)) = Pending
            /\ Qlt_bool 0 0 = true
            /\ calls (trace (fst s')) = []
        | Raise _ => False
        end) (io0, Macro.run0).
Proof.
  apply (C5_macro_playback (env_stopped_from 5) 4 sample_macro 2 0).
  - exact (env_stopped_from_protocol 5).
  - repeat constructor; discriminate.
Defined.

(* ===================================================================== *)
(** * Further properties of the code *)
(* ===================================================================== *)

(** ** What a settings snapshot guarantees *)

Lemma Qdiv_1000_le a b : (a <= b)%Q -> (a / 1000 <= b / 1000)%Q.
Proof. intros H. apply Qmult_le_compat_r; [exact H|discriminate]. Qed.

Lemma string_in_spec s l : Settings.string_in s l = true <-> s ∈ l.
Proof.
  unfold Settings.string_in. rewrite existsb_exists. split.
  - intros (x & Hin & Heq). apply String.eqb_eq in Heq. subst.
    by apply list_elem_of_In.
  - intros Hin. exists s. split; [by apply list_elem_of_In|].
    apply String.eqb_refl.
Qed.

(** The click form is accepted exactly when it satisfies the checks of
    [_collect_settings]. *)
Theorem collect_settings_accepts_iff (f : Settings.ClickForm) :
  (exists st, Settings.collect_settings f = Settings.Valid st) <->
  (0 < Settings.delay_var f)%Q
  /\ (0 <= Settings.jitter_var f)%Q
  /\ (Settings.jitter_var f <= Settings.delay_var f)%Q
  /\ (1 <= Settings.burst_var f)%Z
  /\ (0 <= Settings.start_delay_var f)%Q
  /\ (Settings.limit_enabled_var f = true ->
      (1 <= Settings.limit_count_var f)%Z)
  /\ Settings.button_var f ∈ ["left"; "right"; "middle"]
  /\ Settings.mode_var f ∈ ["single"; "double"; "hold"].
Proof.
  unfold Settings.collect_settings.
  destruct (Qle_bool (Settings.delay_var f) 0) eqn:E1.
  { apply Qle_bool_iff in E1. split; [by intros [? ?]|].
    intros (H & _). exfalso. exact (Qlt_not_le _ _ H E1). }
  destruct (Qlt_bool (Settings.jitter_var f) 0) eqn:E2.
  { apply Qlt_bool_iff in E2. split; [by intros [? ?]|].
    intros (_ & H & _). exfalso. exact (Qlt_not_le _ _ E2 H). }
  destruct (Qlt_bool (Settings.delay_var f) (Settings.jitter_var f)) eqn:E3.
  { apply Qlt_bool_iff in E3. split; [by intros [? ?]|].
    intros (_ & _ & H & _). exfalso. exact (Qlt_not_le _ _ E3 H). }
  destruct (Settings.burst_var f <=? 0)%Z eqn:E4.
  { apply Z.leb_le in E4. split; [by intros [? ?]|].
    intros (_ & _ & _ & H & _). lia. }
  destruct (Qlt_bool (Settings.start_delay_var f) 0) eqn:E5.
  { apply Qlt_bool_iff in E5. split; [by intros [? ?]|].
    intros (_ & _ & _ & _ & H & _). exfalso. exact (Qlt_not_le _ _ E5 H). }
  destruct (Settings.limit_enabled_var f
            && (Settings.limit_count_var f <=? 0)%Z) eqn:E6.
  { apply andb_true_iff in E6 as [El E6]. apply Z.leb_le in E6.
    split; [by intros [? ?]|].
    intros (_ & _ & _ & _ & _ & H & _). specialize (H El). lia. }
  apply Qle_bool_false in E1. apply Qlt_bool_false in E2, E3, E5.
  apply Z.leb_gt in E4.
  assert (Hlimit : Settings.limit_enabled_var f = true ->
                   (1 <= Settings.limit_count_var f)%Z).
  { intros El. rewrite El in E6. simpl in E6. apply Z.leb_gt in E6. lia. }
  assert (Hbutton : is_Some (Settings.BUTTON_MAP (Settings.button_var f))
                    <-> Settings.button_var f ∈ ["left"; "right"; "middle"]).
  { unfold Settings.BUTTON_MAP. rewrite !elem_of_cons.
    destruct (String.eqb_spec (Settings.button_var f) "left") as [->|?];
      [by split; eauto|].
    destruct (String.eqb_spec (Settings.button_var f) "right") as [->|?];
      [by split; eauto|].
    destruct (String.eqb_spec (Settings.button_var f) "middle") as [->|?];
      [by split; eauto|].
    split; [by intros [? ?]|].
    intros [?|[?|[?|Hin]]]; try done. by apply elem_of_nil in Hin. }
  destruct (Settings.BUTTON_MAP (Settings.button_var f)) as [b|].
  2:{ split; [by intros [? ?]|]. intros (_ & _ & _ & _ & _ & _ & H & _).
      apply Hbutton in H. by destruct H. }
  destruct (Settings.string_in (Settings.mode_var f)
              ["single"; "double"; "hold"]) eqn:Em; cbn [negb].
  - apply string_in_spec in Em. split; [|by eauto].
    intros _. repeat split; try done; try lia. apply Hbutton. by eauto.
  - split; [by intros [? ?]|]. intros (_ & _ & _ & _ & _ & _ & _ & H).
    apply string_in_spec in H. congruence.
Qed.

(** A click snapshot satisfies the data model the worker relies on: the
    interval is at least the 5 ms floor, the jitter lies between 0 and the
    interval, the burst count and an enabled limit are at least 1, the start
    delay is not negative, the mode is one of the three the worker knows. *)
Theorem click_snapshot_invariant (f : Settings.ClickForm)
    (st : Click.ClickSettings) :
  Settings.collect_settings f = Settings.Valid st ->
  (0.005 <= Click.base_interval st)%Q
  /\ (0 <= Click.jitter st)%Q
  /\ (Click.jitter st <= Click.base_interval st)%Q
  /\ (1 <= Click.burst_count st)%Z
  /\ (0 <= Click.start_delay st)%Q
  /\ (Click.limit_enabled st = true -> (1 <= Click.limit_count st)%Z)
  /\ Click.mode st ∈ ["single"; "double"; "hold"]
  /\ Settings.BUTTON_MAP (Settings.button_var f) = Some (Click.button st).
Proof.
  intros Hc.
  assert (Hacc : exists st', Settings.collect_settings f = Settings.Valid st')
    by eauto.
  apply collect_settings_accepts_iff in Hacc
    as (Hd & Hj & Hjd & Hb & Hs & Hl & _ & Hm).
  unfold Settings.collect_settings in Hc.
  rewrite (proj2 (Qle_bool_false _ _) Hd) in Hc.
  rewrite (proj2 (Qlt_bool_false _ _) Hj) in Hc.
  rewrite (proj2 (Qlt_bool_false _ _) Hjd) in Hc.
  rewrite (proj2 (Z.leb_gt _ _)) in Hc by lia.
  rewrite (proj2 (Qlt_bool_false _ _) Hs) in Hc.
  destruct (Settings.limit_enabled_var f
            && (Settings.limit_count_var f <=? 0)%Z) eqn:E6.
  { apply andb_true_iff in E6 as [El E6]. apply Z.leb_le in E6.
    specialize (Hl El). lia. }
  destruct (Settings.BUTTON_MAP (Settings.button_var f)) as [b|];
    [|discriminate].
  rewrite (proj2 (string_in_spec _ _) Hm) in Hc. cbn [negb] in Hc.
  injection Hc as <-. cbn.
  repeat split; try done.
  - apply py_max_left.
  - apply Qle_shift_div_l; [reflexivity|]. by rewrite Qmult_0_l.
  - eapply Qle_trans; [apply Qdiv_1000_le, Hjd|apply py_max_right].
Qed.

Lemma click_snapshot_invariant_witness :
  (0.005 <= Click.base_interval click_1ms_snapshot)%Q
  /\ (0 <= Click.jitter click_1ms_snapshot)%Q
  /\ (Click.jitter click_1ms_snapshot
      <= Click.base_interval click_1ms_snapshot)%Q
  /\ (1 <= Click.burst_count click_1ms_snapshot)%Z
  /\ (0 <= Click.start_delay click_1ms_snapshot)%Q
  /\ (Click.limit_enabled click_1ms_snapshot = true ->
      (1 <= Click.limit_count click_1ms_snapshot)%Z)
  /\ Click.mode click_1ms_snapshot ∈ ["single"; "double"; "hold"]
  /\ Settings.BUTTON_MAP
       (Settings.button_var (with_delay 1 default_click_form))
     = Some (Click.button click_1ms_snapshot).
Proof.
  apply (click_snapshot_invariant (with_delay 1 default_click_form)
           click_1ms_snapshot).
  reflexivity.
Defined.

(** ** What a parsed key sequence looks like *)

(** How one entered token resolves: a token that is one character long in
    lower case stands for that character; any other must, in lower case,
    name an attribute of [keyboard.Key]. *)
Definition resolves_to (str : Settings.Str)
    (has_key_attribute : string -> bool) (token : string) (k : KeyValue)
  : Prop :=
  (Settings.len str (Settings.lower str token) = 1%nat
   /\ k = KeyChar (Settings.lower str token))
  \/ (Settings.len str (Settings.lower str token) <> 1%nat
      /\ has_key_attribute (Settings.lower str token) = true
      /\ k = KeyName (Settings.lower str token)).


Section ResolveFacts.

Variable str : Settings.Str.
Variable has_key_attribute : string -> bool.

Lemma resolve_valid tokens ks :
  Settings.resolve str has_key_attribute tokens = Settings.Valid ks ->
  Forall2 (resolves_to str has_key_attribute) tokens ks.
Proof.
  revert ks. induction tokens as [|t rest IH]; intros ks; simpl.
  - intros [= <-]. constructor.
  - destruct (Settings.len str (Settings.lower str t) =? 1)%nat eqn:El.
    + destruct (Settings.resolve str has_key_attribute rest) as [ks'|msg];
        [|discriminate].
      intros [= <-]. constructor; [|by apply IH].
      left. split; [by apply Nat.eqb_eq|done].
    + destruct (has_key_attribute (Settings.lower str t)) eqn:Eh;
        [|discriminate].
      destruct (Settings.resolve str has_key_attribute rest) as [ks'|msg];
        [|discriminate].
      intros [= <-]. constructor; [|by apply IH].
      right. split; [by apply Nat.eqb_neq|done].
Qed.



End ResolveFacts.



(** A key snapshot satisfies the data model the worker relies on: a
    non-empty sequence, an interval of at least the 10 ms floor, a jitter
    between 0 and the interval, a burst count and an enabled limit of at
    least 1, a start delay that is not negative, a known mode. *)
Theorem key_snapshot_invariant (str : Settings.Str)
    (has_key_attribute : string -> bool) (f : Settings.KeyForm)
    (st : Key.KeyPressSettings) :
  Settings.collect_key_settings str has_key_attribute f = Settings.Valid st ->
  Settings.parse_key_sequence str has_key_attribute
    (Settings.key_sequence_var f)
  = Settings.Valid (Key.sequence st)
  /\ Key.sequence st <> []
  /\ (0.01 <= Key.base_interval st)%Q
  /\ (0 <= Key.jitter st)%Q
  /\ (Key.jitter st <= Key.base_interval st)%Q
  /\ (1 <= Key.burst_count st)%Z
  /\ (0 <= Key.start_delay st)%Q
  /\ (Key.limit_enabled st = true -> (1 <= Key.limit_count st)%Z)
  /\ Key.mode st ∈ ["tap"; "double"; "hold"].
Proof.
  unfold Settings.collect_key_settings.
  destruct (Settings.parse_key_sequence str has_key_attribute
              (Settings.key_sequence_var f)) as [ks|msg] eqn:Ep;
    [|discriminate].
  destruct (Qle_bool (Settings.key_delay_var f) 0) eqn:E1; [discriminate|].
  destruct (Qlt_bool (Settings.key_jitter_var f) 0) eqn:E2; [discriminate|].
  destruct (Qlt_bool (Settings.key_delay_var f) (Settings.key_jitter_var f))
    eqn:E3; [discriminate|].
  destruct (Settings.key_burst_var f <=? 0)%Z eqn:E4; [discriminate|].
  destruct (Qlt_bool (Settings.key_start_delay_var f) 0) eqn:E5;
    [discriminate|].
  destruct (Settings.key_limit_enabled_var f
            && (Settings.key_limit_count_var f <=? 0)%Z) eqn:E6;
    [discriminate|].
  destruct (Settings.string_in (Settings.key_mode_var f)
              ["tap"; "double"; "hold"]) eqn:Em; cbn [negb];
    [|discriminate].
  intros [= <-]. cbn.
  apply Qle_bool_false in E1. apply Qlt_bool_false in E2, E3, E5.
  apply Z.leb_gt in E4. apply string_in_spec in Em.
  split; [done|]. split.
  { unfold Settings.parse_key_sequence in Ep.
    destruct (Settings.tokens_of str _); [discriminate|].
    apply resolve_valid in Ep. inversion Ep. discriminate. }
  repeat split; try done; try lia.
  - apply py_max_left.
  - apply Qle_shift_div_l; [reflexivity|]. by rewrite Qmult_0_l.
  - eapply Qle_trans; [apply Qdiv_1000_le, E3|apply py_max_right].
  - intros El. rewrite El in E6. simpl in E6. apply Z.leb_gt in E6. lia.
Qed.

Lemma key_snapshot_invariant_witness :
  Settings.parse_key_sequence Settings.ascii_str sample_key_names
    (Settings.key_sequence_var (with_key_delay 2 default_key_form))
  = Settings.Valid (Key.sequence key_2ms_snapshot)
  /\ Key.sequence key_2ms_snapshot <> []
  /\ (0.01 <= Key.base_interval key_2ms_snapshot)%Q
  /\ (0 <= Key.jitter key_2ms_snapshot)%Q
  /\ (Key.jitter key_2ms_snapshot <= Key.base_interval key_2ms_snapshot)%Q
  /\ (1 <= Key.burst_count key_2ms_snapshot)%Z
  /\ (0 <= Key.start_delay key_2ms_snapshot)%Q
  /\ (Key.limit_enabled key_2ms_snapshot = true ->
      (1 <= Key.limit_count key_2ms_snapshot)%Z)
  /\ Key.mode key_2ms_snapshot ∈ ["tap"; "double"; "hold"].
Proof.
  apply (key_snapshot_invariant Settings.ascii_str sample_key_names
           (with_key_delay 2 default_key_form) key_2ms_snapshot).
  reflexivity.
Defined.

(** ** Cycle spacing *)

(** A base interval shifted by a draw from [-j, j] and raised to the floor
    stays within [j] of the base interval, as long as the base interval is
    itself at least the floor. *)
Lemma spacing_within (floor base j u : Q) :
  (floor <= base)%Q -> (0 <= j)%Q -> (- j <= u)%Q -> (u <= j)%Q ->
  (base - j <= py_max floor (base + u))%Q
  /\ (py_max floor (base + u) <= base + j)%Q
  /\ (floor <= py_max floor (base + u))%Q.
Proof.
  intros Hfloor Hj Hlow Hhigh. split; [|split].
  - eapply Qle_trans; [|apply py_max_right]. unfold Qminus.
    by apply Qplus_le_r.
  - unfold py_max. destruct (Qlt_bool floor (base + u)).
    + by apply Qplus_le_r.
    + eapply Qle_trans; [exact Hfloor|].
      rewrite <- (Qplus_0_r base) at 1. by apply Qplus_le_r.
  - apply py_max_left.
Qed.

Lemma spacing_exact (base j : Q) :
  (0 <= j)%Q -> Qlt_bool 0 j = false ->
  (base - j <= base)%Q /\ (base <= base + j)%Q.
Proof.
  intros Hj Hn. apply Qlt_bool_false in Hn. split.
  - rewrite <- (Qplus_0_r base) at 2. unfold Qminus. apply Qplus_le_r.
    apply Qle_trans with (- 0)%Q; [by apply Qopp_le_compat|apply Qle_refl].
  - rewrite <- (Qplus_0_r base) at 1. by apply Qplus_le_r.
Qed.

(** How long a worker waits between two cycles, for settings that satisfy
    the snapshot invariant and a [random.random()] that returns values in
    [0, 1]: a time within [jitter] of the base interval and never below the
    floor of the worker (5 ms for clicks, 10 ms for keys); without jitter it
    is the base interval itself and no random number is drawn.  Computing it
    touches neither the thread's fields nor the trace. *)
Theorem next_delay_within (env : Env) (cst : Click.ClickSettings)
    (kst : Key.KeyPressSettings) (cs : IO * Click.Run) (ks : IO * Key.Run) :
  (forall k, (0 <= random_at env k)%Q /\ (random_at env k <= 1)%Q) ->
  (0.005 <= Click.base_interval cst)%Q -> (0 <= Click.jitter cst)%Q ->
  (0.01 <= Key.base_interval kst)%Q -> (0 <= Key.jitter kst)%Q ->
  wp env (Click.next_delay cst)
     (fun s' r =>
        exists d, r = Ok d
          /\ (Click.base_interval cst - Click.jitter cst <= d)%Q
          /\ (d <= Click.base_interval cst + Click.jitter cst)%Q
          /\ (0.005 <= d)%Q
          /\ (Qlt_bool 0 (Click.jitter cst) = false ->
              d = Click.base_interval cst /\ fst s' = fst cs)
          /\ snd s' = snd cs /\ trace (fst s') = trace (fst cs)) cs
  /\ wp env (Key.next_delay kst)
       (fun s' r =>
          exists d, r = Ok d
            /\ (Key.base_interval kst - Key.jitter kst <= d)%Q
            /\ (d <= Key.base_interval kst + Key.jitter kst)%Q
            /\ (0.01 <= d)%Q
            /\ (Qlt_bool 0 (Key.jitter kst) = false ->
                d = Key.base_interval kst /\ fst s' = fst ks)
            /\ snd s' = snd ks /\ trace (fst s') = trace (fst ks)) ks.
Proof.
  intros Hrand Hcb Hcj Hkb Hkj. split.
  - unfold Click.next_delay.
    destruct (Qlt_bool 0 (Click.jitter cst)) eqn:Ej; wp_steps.
    + destruct (Hrand (draws (fst cs))) as [Hr0 Hr1].
      destruct (uniform_within _ _ Hcj Hr0 Hr1) as [Hlow Hhigh].
      destruct (spacing_within _ _ _ _ Hcb Hcj Hlow Hhigh) as (H1 & H2 & H3).
      eexists. split; [reflexivity|]. by repeat split.
    + destruct (spacing_exact (Click.base_interval cst) _ Hcj Ej) as [H1 H2].
      eexists. split; [reflexivity|]. by repeat split.
  - unfold Key.next_delay.
    destruct (Qlt_bool 0 (Key.jitter kst)) eqn:Ej; wp_steps.
    + destruct (Hrand (draws (fst ks))) as [Hr0 Hr1].
      destruct (uniform_within _ _ Hkj Hr0 Hr1) as [Hlow Hhigh].
      destruct (spacing_within _ _ _ _ Hkb Hkj Hlow Hhigh) as (H1 & H2 & H3).
      eexists. split; [reflexivity|]. by repeat split.
    + destruct (spacing_exact (Key.base_interval kst) _ Hkj Ej) as [H1 H2].
      eexists. split; [reflexivity|]. by repeat split.
Qed.

(** Settings with jitter, and an environment whose random numbers are all
    one half. *)
Definition jittered_click : Click.ClickSettings :=
  {| Click.button := left; Click.mode := "single";
     Click.base_interval := 0.1; Click.jitter := 0.02;
     Click.burst_count := 1; Click.start_delay := 0;
     Click.limit_enabled := false; Click.limit_count := 500 |}.

Definition jittered_key : Key.KeyPressSettings :=
  {| Key.sequence := [KeyChar "a"]; Key.mode := "tap";
     Key.base_interval := 0.15; Key.jitter := 0.03;
     Key.burst_count := 1; Key.start_delay := 0;
     Key.limit_enabled := false; Key.limit_count := 500 |}.

Definition env_halves : Env :=
  {| stop_at := fun _ => false;
     time_at := fun k => inject_Z (Z.of_nat k);
     inject_error := fun _ => None;
     random_at := fun _ => 0.5%Q;
     reason_at := fun _ => None;
     TIMEOUT_MAX := 4294967;
     overflow_message := "timeout value is too large" |}.

Lemma next_delay_within_witness :
  wp env_halves (Click.next_delay jittered_click)
     (fun s' r =>
        exists d, r = Ok d
          /\ (Click.base_interval jittered_click
              - Click.jitter jittered_click <= d)%Q
          /\ (d <= Click.base_interval jittered_click
                   + Click.jitter jittered_click)%Q
          /\ (0.005 <= d)%Q
          /\ (Qlt_bool 0 (Click.jitter jittered_click) = false ->
              d = Click.base_interval jittered_click
              /\ fst s' = fst (io0, Click.run0))
          /\ snd s' = snd (io0, Click.run0)
          /\ trace (fst s') = trace (fst (io0, Click.run0)))
     (io0, Click.run0)
  /\ wp env_halves (Key.next_delay jittered_key)
       (fun s' r =>
          exists d, r = Ok d
            /\ (Key.base_interval jittered_key
                - Key.jitter jittered_key <= d)%Q
            /\ (d <= Key.base_interval jittered_key
                     + Key.jitter jittered_key)%Q
            /\ (0.01 <= d)%Q
            /\ (Qlt_bool 0 (Key.jitter jittered_key) = false ->
                d = Key.base_interval jittered_key
                /\ fst s' = fst (io0, Key.run0))
            /\ snd s' = snd (io0, Key.run0)
            /\ trace (fst s') = trace (fst (io0, Key.run0)))
       (io0, Key.run0).
Proof.
  apply (next_delay_within env_halves jittered_click jittered_key
           (io0, Click.run0) (io0, Key.run0)).
  - intros k. split; discriminate.
  - discriminate.
  - discriminate.
  - discriminate.
  - discriminate.
Defined.

(** ** Cancelling a run *)

(** The stop event is set by look [n] and stays set. *)
Definition cancelled_from (env : Env) (n : nat) : Prop :=
  forall k, (n <= k)%nat -> stop_at env k = true.

Lemma cancelled_from_look env n k :
  cancelled_from env n -> stop_at env k = false -> (k < n)%nat.
Proof.
  intros Hc Hk. destruct (le_lt_dec n k) as [Hle|Hlt]; [|exact Hlt].
  rewrite (Hc k Hle) in Hk. discriminate.
Qed.

Lemma env_stopped_from_cancelled n : cancelled_from (env_stopped_from n) n.
Proof. intros k Hk. simpl. by apply Nat.leb_le. Qed.

(** Whether the trace ends with the hand-over to the UI thread. *)
Definition finalize_scheduled (tr : list event) : Prop :=
  last tr = Some ScheduleFinalize.

Section Cancel.
Context {R : Type} (env : Env).

Lemma countdown_cancelled mk n fuel deadline (s : IO * R) :
  cancelled_from env n -> (n - polls (fst s) < fuel)%nat ->
  wp env (countdown mk fuel deadline)
     (fun s' r => r = Ok tt /\ (polls (fst s) <= polls (fst s'))%nat) s.
Proof.
  intros Hc. revert s. induction fuel as [|fuel IH]; intros s Hf; [lia|].
  cbn [countdown]. wp_steps.
  destruct (Qlt_bool _ _); [|wp_prim; io_simpl; split; [done|lia]].
  wp_steps. destruct (stop_at _ _) eqn:E; cbn [negb].
  - wp_prim. io_simpl. split; [done|lia].
  - apply (cancelled_from_look _ _ _ Hc) in E. io_simpl. wp_steps.
    eapply wp_mono; [|apply IH].
    + intros s' r [-> Hp]. io_simpl. split; [done|lia].
    + io_simpl. lia.
Qed.

Lemma start_delay_phase_cancelled mk n fuel d (s : IO * R) :
  cancelled_from env n -> (n - polls (fst s) < fuel)%nat ->
  wp env (start_delay_phase mk fuel d)
     (fun s' r => r = Ok tt /\ (polls (fst s) <= polls (fst s'))%nat) s.
Proof.
  intros Hc Hf. unfold start_delay_phase. destruct (Qlt_bool 0 d).
  - wp_steps. eapply wp_mono; [|apply (countdown_cancelled _ n); [done|]].
    + intros s' r [-> Hp]. io_simpl. by split.
    + io_simpl. lia.
  - wp_prim. by split.
Qed.

End Cancel.

Section ClickRuns.

Import Click.
Variable env : Env.
Variable st : ClickSettings.

Lemma burst_polls n s :
  wp env (burst st n) (fun s' _ => (polls (fst s) <= polls (fst s'))%nat) s.
Proof.
  revert s. induction n as [|n IH]; intros s; cbn [burst].
  - wp_prim. lia.
  - wp_steps. destruct (stop_at _ _); [wp_prim; io_simpl; lia|].
    wp_prim. apply wp_inject. intros ok [[]|msg|] Hok; [|io_simpl; lia|done].
    wp_steps.
    destruct (1 <? burst_count st)%Z; wp_steps;
      [destruct (stop_at _ _); cbn [negb]; wp_steps|];
      (eapply wp_mono; [|apply IH]); intros s' r Hp; io_simpl; lia.
Qed.

Lemma loop_cancelled n fuel s :
  cancelled_from env n -> (n - polls (fst s) < fuel)%nat ->
  wp env (loop fuel st) (fun _ r => r <> Pending) s.
Proof.
  intros Hc. revert s. induction fuel as [|fuel IH]; intros s Hf; [lia|].
  cbn [loop]. wp_steps.
  destruct (stop_at env (polls (fst s))) eqn:E; [by wp_prim|].
  apply (cancelled_from_look _ _ _ Hc) in E. wp_steps.
  destruct (limit_enabled st && _); [by wp_prim|].
  destruct (String.eqb (mode st) "hold").
  - wp_prim. destruct (hold_pressed (snd s)); cbn [negb].
    + wp_steps. destruct (stop_at _ _); [by wp_prim|].
      apply IH. io_simpl. lia.
    + wp_prim. apply wp_inject. intros ok [[]|msg|] Hok; [|done|done].
      wp_steps. destruct (stop_at _ _); [by wp_prim|].
      apply IH. io_simpl. lia.
  - wp_prim.
    eapply wp_mono; [|apply wp_conj; [apply burst_spec|apply burst_polls]].
    intros s1 r1 [[_ Hnp] Hp]. destruct r1 as [[]|msg|]; [|done|done].
    wp_prim. apply next_delay_spec. intros io d _ Hpo _.
    wp_steps; [intros _|by intros _ _].
    destruct (stop_at _ _); [by wp_prim|]. apply IH. io_simpl. lia.
Qed.

(** A run that finds its stop event set at once leaves the loop without
    doing anything. *)
Lemma loop_cancelled_at_once fuel s :
  wp env (loop fuel st)
     (fun s' r =>
        stop_at env (polls (fst s)) = true ->
        snd s' = snd s
        /\ injects (trace (fst s')) = injects (trace (fst s))
        /\ forall msg, r <> Raise msg) s.
Proof.
  destruct fuel as [|fuel]; cbn [loop]; [by wp_prim|].
  apply wp_bind, wp_is_set. cbn [fst snd].
  destruct (stop_at env (polls (fst s))) eqn:E.
  - by wp_prim.
  - unfold wp. intros H. discriminate H.
Qed.

(** The [finally] block: it never raises, leaves the button up and ends
    with the hand-over to the UI thread; it calls the controller only to
    release a button that is down. *)
Lemma cleanup_releases s :
  wp env (cleanup st)
     (fun s' r =>
        r = Ok tt /\ hold_pressed (snd s') = false
        /\ finalize_scheduled (trace (fst s'))
        /\ clicks_recorded (snd s') = clicks_recorded (snd s)
        /\ (hold_pressed (snd s) = false ->
            injects (trace (fst s')) = injects (trace (fst s)))) s.
Proof.
  unfold cleanup, finalize_scheduled. wp_steps.
  destruct (hold_pressed (snd s)) eqn:Eh; wp_steps.
  - apply wp_inject. intros ok [[]|msg|] Hok; [| |done]; wp_steps;
      io_simpl; by rewrite last_snoc.
  - io_simpl. rewrite last_snoc, injects_snoc, app_nil_r. done.
Qed.

End ClickRuns.

(** Whatever the mode, the environment and the time the thread is given:
    no exception leaves [_click_worker], and when it has exited the button
    is not held and the last thing it did was to hand over to the UI
    thread. *)
Theorem click_worker_exit (env : Env) (st : Click.ClickSettings)
    (fuel : nat) (s : IO * Click.Run) :
  wp env (Click.click_worker fuel st)
     (fun s' r =>
        match r with
        | Ok _ =>
            Click.hold_pressed (snd s') = false
            /\ finalize_scheduled (trace (fst s'))
        | Raise _ => False
        | Pending => True
        end) s.
Proof.
  unfold Click.click_worker.
  apply wp_try_finally, wp_try_except.
  assert (Hfin : forall s1 : IO * Click.Run,
             wp env (Click.cleanup st)
                (fun s'' r' =>
                   match r' with
                   | Ok _ =>
                       Click.hold_pressed (snd s'') = false
                       /\ finalize_scheduled (trace (fst s''))
                   | Raise _ => False
                   | Pending => True
                   end) s1).
  { intros s1. eapply wp_mono; [|apply cleanup_releases].
    by intros s2 r2 (-> & Hh & Hf & _). }
  unfold wp at 1.
  destruct (bind _ _ env s) as [s1 [[]|msg|]]; cbn [fst snd];
    [apply Hfin| |done].
  wp_prim. cbn [fst snd]. apply Hfin.
Qed.

(** Once the stop event is set and stays set, the click thread exits: a run
    cancelled by look [n] that is given more than [n] steps returns, with
    the button up and the hand-over to the UI thread scheduled; a run whose
    stop event is set from the first look on makes no controller call and
    counts nothing. *)
Theorem click_worker_cancelled (env : Env) (st : Click.ClickSettings)
    (n fuel : nat) :
  cancelled_from env n -> (n < fuel)%nat ->
  wp env (Click.click_worker fuel st)
     (fun s' r =>
        r = Ok tt /\ Click.hold_pressed (snd s') = false
        /\ finalize_scheduled (trace (fst s'))
        /\ (n = 0%nat ->
            injects (trace (fst s')) = []
            /\ Click.clicks_recorded (snd s') = 0%Z
            /\ Click.run_reason (snd s') = "Running")) (io0, Click.run0).
Proof.
  intros Hc Hf. unfold Click.click_worker.
  apply wp_try_finally, wp_try_except, wp_bind.
  eapply wp_mono.
  2:{ apply wp_conj; [apply start_delay_phase_silent
                     |apply (start_delay_phase_cancelled env _ n)];
        [exact Hc|simpl; lia]. }
  intros [io1 r1] r [(Hr & Ht & _) [-> Hp]]. cbn [fst snd] in *. subst r1.
  wp_steps. eapply wp_mono.
  2:{ apply wp_conj; [apply (loop_cancelled env st n); [exact Hc|]
                     |apply (loop_cancelled_at_once env st fuel)].
      io_simpl. lia. }
  intros s2 r2 [Hnp Hzero]. cbn [fst snd] in Hzero. io_simpl.
  rewrite injects_snoc, app_nil_r, Ht in Hzero.
  assert (Hfin : wp env (Click.cleanup st)
            (fun s3 r3 =>
               r3 = Ok tt /\ Click.hold_pressed (snd s3) = false
               /\ finalize_scheduled (trace (fst s3))
               /\ (n = 0%nat ->
                   injects (trace (fst s3)) = []
                   /\ Click.clicks_recorded (snd s3) = 0%Z
                   /\ Click.run_reason (snd s3) = "Running")) s2).
  { eapply wp_mono; [|apply wp_conj; [apply cleanup_releases
                                     |apply cleanup_keeps]].
    intros s3 r3 [(-> & Hh & Hfz & Hcl & Hinj) (_ & _ & Hreason & _)].
    split; [done|]. split; [done|]. split; [done|]. intros Hn.
    destruct (Hzero (Hc _ ltac:(lia))) as (Hs2 & Hi2 & _).
    rewrite Hinj by (by rewrite Hs2). by rewrite Hcl, Hreason, Hs2. }
  destruct r2 as [[]|msg|]; [| |done].
  - eapply wp_mono; [|exact Hfin]. by intros s3 r3 (-> & ?).
  - wp_prim. cbn [fst snd].
    eapply wp_mono; [|apply cleanup_releases].
    intros s3 r3 (-> & Hh & Hfz & _).
    split; [done|]. split; [done|]. split; [done|]. intros Hn.
    destruct (Hzero (Hc _ ltac:(lia))) as (_ & _ & Hne).
    by destruct (Hne msg).
Qed.

Lemma click_worker_cancelled_witness :
  wp (env_stopped_from 0) (Click.click_worker 1 jittered_click)
     (fun s' r =>
        r = Ok tt /\ Click.hold_pressed (snd s') = false
        /\ finalize_scheduled (trace (fst s'))
        /\ (0%nat = 0%nat ->
            injects (trace (fst s')) = []
            /\ Click.clicks_recorded (snd s') = 0%Z
            /\ Click.run_reason (snd s') = "Running")) (io0, Click.run0).
Proof.
  apply (click_worker_cancelled (env_stopped_from 0) jittered_click 0 1).
  - exact (env_stopped_from_cancelled 0).
  - lia.
Defined.

(** A controller that never raises. *)
Definition no_failures (env : Env) : Prop :=
  forall k, inject_error env k = None.

Section ForEachCalls.

Context {R A : Type} (env : Env) (f : A -> call).

(** A sequence of controller calls looks at the stop event no more than the
    thread did before; when the controller does not raise, all of them are
    made, in order. *)
Lemma for_each_inject_calls (l : list A) (s : IO * R) :
  wp env (for_each l (fun x => inject (f x)))
     (fun s' r =>
        snd s' = snd s /\ polls (fst s') = polls (fst s) /\ r <> Pending
        /\ (no_failures env ->
            r = Ok tt
            /\ calls (trace (fst s'))
               = (calls (trace (fst s)) ++ map f l)%list)) s.
Proof.
  revert s. induction l as [|x l IH]; intros s; cbn [for_each map].
  - wp_prim. repeat split; try done. by rewrite app_nil_r.
  - wp_prim. apply wp_inject. intros ok [[]|msg|] Hok; [| |done].
    + eapply wp_mono; [|apply IH].
      intros s' r (Hs & Hp & Hn & Hq). io_simpl.
      split; [done|]. split; [done|]. split; [done|]. intros Hnf.
      destruct (Hq Hnf) as [-> Hc]. split; [done|]. rewrite Hc. io_simpl.
      by rewrite calls_app, <- app_assoc.
    + split; [done|]. split; [done|]. split; [done|]. intros Hnf.
      destruct Hok as [_ Herr]. rewrite Hnf in Herr. discriminate.
Qed.

End ForEachCalls.

Lemma calls_snoc tr e :
  calls (tr ++ [e])
  = (calls tr ++ match e with Inject c _ => [c] | _ => [] end)%list.
Proof. unfold calls. rewrite injects_snoc, map_app. by destruct e. Qed.

Section KeyRuns.

Import Key.
Variable env : Env.
Variable st : KeyPressSettings.

(** The calls of one tap of the sequence: every key goes down in order and
    comes up in reverse order. *)
Definition tap : list call := (presses st ++ releases st)%list.

Lemma tap_sequence_calls n s :
  wp env (tap_sequence (sequence st) n)
     (fun s' r =>
        snd s' = snd s /\ polls (fst s') = polls (fst s) /\ r <> Pending
        /\ (no_failures env ->
            r = Ok tt
            /\ calls (trace (fst s'))
               = (calls (trace (fst s)) ++ concat (replicate n tap))%list)) s.
Proof.
  revert s. induction n as [|n IH]; intros s; cbn [tap_sequence].
  - wp_prim. repeat split; try done. cbn. by rewrite app_nil_r.
  - wp_prim. unfold press_sequence at 1.
    eapply wp_mono; [|apply for_each_inject_calls].
    intros s1 [[]|msg|] (Hs1 & Hp1 & Hn1 & Hq1); [| |done].
    2:{ split; [done|]. split; [done|]. split; [done|]. intros Hnf.
        by destruct (Hq1 Hnf). }
    wp_steps. unfold release_sequence at 1.
    eapply wp_mono; [|apply for_each_inject_calls].
    intros s2 [[]|msg|] (Hs2 & Hp2 & Hn2 & Hq2); [| |done].
    2:{ io_simpl. split; [congruence|]. split; [congruence|]. split; [done|].
        intros Hnf. by destruct (Hq2 Hnf). }
    wp_steps. eapply wp_mono; [|apply IH].
    intros s3 r3 (Hs3 & Hp3 & Hn3 & Hq3). io_simpl.
    split; [congruence|]. split; [congruence|]. split; [done|]. intros Hnf.
    destruct (Hq1 Hnf) as [_ Hc1]. destruct (Hq2 Hnf) as [_ Hc2].
    destruct (Hq3 Hnf) as [-> Hc3]. split; [done|].
    rewrite Hc3. io_simpl. rewrite calls_snoc, Hc2. io_simpl.
    rewrite calls_snoc, Hc1. cbn [replicate concat]. unfold tap, presses,
      releases. by rewrite !app_nil_r, <- !app_assoc.
Qed.

(** In a mode other than hold: no key is held by the flag, and with a
    controller that does not raise the calls made so far are whole taps,
    [repeats] per counted cycle. *)
Definition taps_inv (s : IO * Run) : Prop :=
  key_hold_active (snd s) = false
  /\ (0 <= key_cycles_recorded (snd s))%Z
  /\ (no_failures env ->
      calls (trace (fst s))
      = concat (replicate (repeats st * Z.to_nat (key_cycles_recorded (snd s)))
                          tap)).

Lemma taps_inv_log e s :
  (forall c ok, e <> Inject c ok) -> taps_inv s ->
  taps_inv (log e (fst s), snd s).
Proof.
  intros He (Hh & Hc & Hq). split; [done|]. split; [done|]. intros Hnf.
  io_simpl. rewrite calls_snoc, (Hq Hnf).
  destruct e; try by rewrite app_nil_r. by destruct (He c ok).
Qed.

Lemma taps_inv_io io io' r :
  trace io' = trace io -> taps_inv (io, r) -> taps_inv (io', r).
Proof. intros Ht (Hh & Hc & Hq). repeat split; try done. cbn. by rewrite Ht. Qed.

Lemma key_burst_taps n s :
  taps_inv s ->
  wp env (burst st n)
     (fun s' r =>
        taps_inv s' /\ (polls (fst s) <= polls (fst s'))%nat
        /\ key_run_reason (snd s') = key_run_reason (snd s)
        /\ r <> Pending /\ (no_failures env -> r = Ok tt)) s.
Proof.
  revert s. induction n as [|n IH]; intros s Hinv; cbn [burst].
  - wp_prim. split; [done|]. split; [lia|]. by repeat split.
  - wp_steps. destruct (stop_at _ _).
    { wp_prim. io_simpl. split; [by apply (taps_inv_io (fst s)); destruct s|].
      split; [lia|]. by repeat split. }
    wp_prim. eapply wp_mono; [|apply tap_sequence_calls].
    intros [io1 r1] [[]|msg|] (Hs1 & Hp1 & Hn1 & Hq1); [| |done];
      cbn [fst snd] in *; subst r1; io_simpl.
    2:{ destruct Hinv as (Hh & Hc & Hq). split.
        { split; [done|]. split; [done|]. intros Hnf.
          by destruct (Hq1 Hnf). }
        split; [lia|]. split; [done|]. split; [done|]. intros Hnf.
        by destruct (Hq1 Hnf). }
    assert (Hinv1 : taps_inv
              (io1, set_cycles (key_cycles_recorded (snd s) + 1) (snd s))).
    { destruct Hinv as (Hh & Hc & Hq). split; [done|].
      split; [cbn; lia|]. intros Hnf. destruct (Hq1 Hnf) as [_ Hc1].
      cbn [fst snd set_cycles key_cycles_recorded].
      rewrite Hc1. io_simpl. rewrite (Hq Hnf), <- concat_app.
      rewrite <- replicate_add. f_equal. f_equal.
      rewrite Z2Nat.inj_add by lia. simpl. lia. }
    wp_steps.
    destruct (1 <? burst_count st)%Z; wp_steps;
      [destruct (stop_at _ _); cbn [negb]; wp_steps|];
      (eapply wp_mono; [|apply IH]).
    all: try (intros s' r (Hinv' & Hp' & Hr' & Hn' & Hq'); io_simpl;
              split; [done|]; split; [lia|]; by split).
    + apply (taps_inv_io io1); [done|exact Hinv1].
    + apply (taps_inv_log _ (next_poll (next_poll io1), _)); [done|].
      apply (taps_inv_io io1); [done|exact Hinv1].
    + exact Hinv1.
Qed.

Lemma key_loop_taps fuel s :
  String.eqb (mode st) "hold" = false -> taps_inv s ->
  wp env (loop fuel st) (fun s' _ => taps_inv s') s.
Proof.
  intros Hmode. revert s. induction fuel as [|fuel IH]; intros s Hinv;
    cbn [loop]; [by wp_prim|].
  wp_steps. destruct (stop_at env (polls (fst s))) eqn:E.
  { wp_prim. by apply (taps_inv_io (fst s)); destruct s. }
  wp_steps. destruct (limit_enabled st && _).
  { wp_prim. destruct Hinv as (Hh & Hc & Hq). by repeat split. }
  rewrite Hmode. wp_prim. eapply wp_mono; [|apply key_burst_taps].
  2:{ by apply (taps_inv_io (fst s)); destruct s. }
  intros s1 r1 (Hinv1 & Hp1 & _ & Hn1 & Hq1). io_simpl.
  destruct r1 as [[]|msg|]; [|done|done].
  wp_prim. apply key_next_delay_spec. intros io d Ht.
  assert (Hinv2 : taps_inv (next_poll io, snd s1)).
  { apply (taps_inv_io (fst s1)); [done|by destruct s1]. }
  wp_steps; [intros _|by intros _ _].
  destruct (stop_at env (polls io)); [wp_prim|apply IH];
    by apply (taps_inv_log _ (next_poll io, snd s1)).
Qed.

Lemma key_burst_polls n s :
  wp env (burst st n) (fun s' _ => (polls (fst s) <= polls (fst s'))%nat) s.
Proof.
  revert s. induction n as [|n IH]; intros s; cbn [burst].
  - wp_prim. lia.
  - wp_steps. destruct (stop_at _ _); [wp_prim; io_simpl; lia|].
    wp_prim. eapply wp_mono; [|apply tap_sequence_calls].
    intros s1 [[]|msg|] (Hs1 & Hp1 & Hn1 & _); io_simpl; [|lia|done].
    wp_steps.
    destruct (1 <? burst_count st)%Z; wp_steps;
      [destruct (stop_at _ _); cbn [negb]; wp_steps|];
      (eapply wp_mono; [|apply IH]); intros s' r Hp; io_simpl; lia.
Qed.

Lemma key_next_delay_polls s :
  wp env (next_delay st)
     (fun s' r => polls (fst s') = polls (fst s) /\ exists d, r = Ok d) s.
Proof.
  unfold next_delay. destruct (Qlt_bool _ _); wp_steps; io_simpl; eauto.
Qed.

Lemma key_loop_cancelled n fuel s :
  cancelled_from env n -> (n - polls (fst s) < fuel)%nat ->
  wp env (loop fuel st) (fun _ r => r <> Pending) s.
Proof.
  intros Hc. revert s. induction fuel as [|fuel IH]; intros s Hf; [lia|].
  cbn [loop]. wp_steps.
  destruct (stop_at env (polls (fst s))) eqn:E; [by wp_prim|].
  apply (cancelled_from_look _ _ _ Hc) in E. wp_steps.
  destruct (limit_enabled st && _); [by wp_prim|].
  destruct (String.eqb (mode st) "hold").
  - wp_prim. destruct (key_hold_active (snd s)); cbn [negb].
    + wp_steps. destruct (stop_at _ _); [by wp_prim|].
      apply IH. io_simpl. lia.
    + wp_prim. unfold press_sequence.
      eapply wp_mono; [|apply for_each_inject_calls].
      intros s1 [[]|msg|] (Hs1 & Hp1 & Hn1 & _); [|done|done].
      wp_steps. destruct (stop_at _ _); [by wp_prim|].
      apply IH. io_simpl. lia.
  - wp_prim.
    eapply wp_mono;
      [|apply wp_conj; [apply key_burst_spec|apply key_burst_polls]].
    intros s1 r1 [[_ Hnp] Hp]. destruct r1 as [[]|msg|]; [|done|done].
    wp_prim. eapply wp_mono; [|apply key_next_delay_polls].
    intros s2 r2 [Hp2 [d ->]]. wp_steps; [intros _|by intros _ _].
    destruct (stop_at _ _); [by wp_prim|]. apply IH. io_simpl. lia.
Qed.

Lemma key_loop_cancelled_at_once fuel s :
  wp env (loop fuel st)
     (fun s' r =>
        stop_at env (polls (fst s)) = true ->
        snd s' = snd s
        /\ injects (trace (fst s')) = injects (trace (fst s))
        /\ forall msg, r <> Raise msg) s.
Proof.
  destruct fuel as [|fuel]; cbn [loop]; [by wp_prim|].
  apply wp_bind, wp_is_set. cbn [fst snd].
  destruct (stop_at env (polls (fst s))) eqn:E.
  - by wp_prim.
  - unfold wp. intros H. discriminate H.
Qed.

(** The [finally] block: it never raises, clears the hold flag and ends
    with the hand-over to the UI thread; it calls the controller only to
    release a sequence that is held. *)
Lemma key_cleanup_releases s :
  wp env (cleanup st)
     (fun s' r =>
        r = Ok tt /\ key_hold_active (snd s') = false
        /\ finalize_scheduled (trace (fst s'))
        /\ key_cycles_recorded (snd s') = key_cycles_recorded (snd s)
        /\ key_run_reason (snd s') = key_run_reason (snd s)
        /\ (key_hold_active (snd s) = false ->
            injects (trace (fst s')) = injects (trace (fst s)))) s.
Proof.
  unfold cleanup, finalize_scheduled. wp_steps.
  destruct (key_hold_active (snd s)) eqn:Eh; wp_steps.
  - unfold release_sequence. eapply wp_mono; [|apply for_each_inject_calls].
    intros [io1 r1] [[]|msg|] (Hs1 & _ & Hn1 & _); [| |done];
      cbn [fst snd] in Hs1; subst r1; wp_steps; io_simpl;
      by rewrite last_snoc.
  - io_simpl. rewrite last_snoc, injects_snoc, app_nil_r. done.
Qed.

End KeyRuns.

(** Whatever the mode, the environment and the time the thread is given:
    no exception leaves [_key_worker], and when it has exited the hold flag
    is cleared and the last thing it did was to hand over to the UI
    thread. *)
Theorem key_worker_exit (env : Env) (st : Key.KeyPressSettings)
    (fuel : nat) (s : IO * Key.Run) :
  wp env (Key.key_worker fuel st)
     (fun s' r =>
        match r with
        | Ok _ =>
            Key.key_hold_active (snd s') = false
            /\ finalize_scheduled (trace (fst s'))
        | Raise _ => False
        | Pending => True
        end) s.
Proof.
  unfold Key.key_worker.
  apply wp_try_finally, wp_try_except.
  assert (Hfin : forall s1 : IO * Key.Run,
             wp env (Key.cleanup st)
                (fun s'' r' =>
                   match r' with
                   | Ok _ =>
                       Key.key_hold_active (snd s'') = false
                       /\ finalize_scheduled (trace (fst s''))
                   | Raise _ => False
                   | Pending => True
                   end) s1).
  { intros s1. eapply wp_mono; [|apply key_cleanup_releases].
    by intros s2 r2 (-> & Hh & Hf & _). }
  unfold wp at 1.
  destruct (bind _ _ env s) as [s1 [[]|msg|]]; cbn [fst snd];
    [apply Hfin| |done].
  wp_prim. cbn [fst snd]. apply Hfin.
Qed.

(** Once the stop event is set and stays set, the key thread exits: a run
    cancelled by look [n] that is given more than [n] steps returns, with
    the hold flag cleared and the hand-over to the UI thread scheduled; a run
    whose stop event is set from the first look on makes no controller call,
    counts nothing and writes no reason. *)
Theorem key_worker_cancelled (env : Env) (st : Key.KeyPressSettings)
    (n fuel : nat) :
  cancelled_from env n -> (n < fuel)%nat ->
  wp env (Key.key_worker fuel st)
     (fun s' r =>
        r = Ok tt /\ Key.key_hold_active (snd s') = false
        /\ finalize_scheduled (trace (fst s'))
        /\ (n = 0%nat ->
            injects (trace (fst s')) = []
            /\ Key.key_cycles_recorded (snd s') = 0%Z
            /\ Key.key_run_reason (snd s') = "Running")) (io0, Key.run0).
Proof.
  intros Hc Hf. unfold Key.key_worker.
  apply wp_try_finally, wp_try_except, wp_bind.
  eapply wp_mono.
  2:{ apply wp_conj; [apply start_delay_phase_silent
                     |apply (start_delay_phase_cancelled env _ n)];
        [exact Hc|simpl; lia]. }
  intros [io1 r1] r [(Hr & Ht & _) [-> Hp]]. cbn [fst snd] in *. subst r1.
  wp_steps. eapply wp_mono.
  2:{ apply wp_conj; [apply (key_loop_cancelled env st n); [exact Hc|]
                     |apply (key_loop_cancelled_at_once env st fuel)].
      io_simpl. lia. }
  intros s2 r2 [Hnp Hzero]. cbn [fst snd] in Hzero. io_simpl.
  rewrite injects_snoc, app_nil_r, Ht in Hzero.
  assert (Hfin : wp env (Key.cleanup st)
            (fun s3 r3 =>
               r3 = Ok tt /\ Key.key_hold_active (snd s3) = false
               /\ finalize_scheduled (trace (fst s3))
               /\ (n = 0%nat ->
                   injects (trace (fst s3)) = []
                   /\ Key.key_cycles_recorded (snd s3) = 0%Z
                   /\ Key.key_run_reason (snd s3) = "Running")) s2).
  { eapply wp_mono; [|apply key_cleanup_releases].
    intros s3 r3 (-> & Hh & Hfz & Hcl & Hreason & Hinj).
    split; [done|]. split; [done|]. split; [done|]. intros Hn.
    destruct (Hzero (Hc _ ltac:(lia))) as (Hs2 & Hi2 & _).
    rewrite Hinj by (by rewrite Hs2). by rewrite Hcl, Hreason, Hs2. }
  destruct r2 as [[]|msg|]; [| |done].
  - eapply wp_mono; [|exact Hfin]. by intros s3 r3 (-> & ?).
  - wp_prim. cbn [fst snd].
    eapply wp_mono; [|apply key_cleanup_releases].
    intros s3 r3 (-> & Hh & Hfz & _).
    split; [done|]. split; [done|]. split; [done|]. intros Hn.
    destruct (Hzero (Hc _ ltac:(lia))) as (_ & _ & Hne).
    by destruct (Hne msg).
Qed.

Lemma key_worker_cancelled_witness :
  wp (env_stopped_from 3) (Key.key_worker 5 jittered_key)
     (fun s' r =>
        r = Ok tt /\ Key.key_hold_active (snd s') = false
        /\ finalize_scheduled (trace (fst s'))
        /\ (3%nat = 0%nat ->
            injects (trace (fst s')) = []
            /\ Key.key_cycles_recorded (snd s') = 0%Z
            /\ Key.key_run_reason (snd s') = "Running")) (io0, Key.run0).
Proof.
  apply (key_worker_cancelled (env_stopped_from 3) jittered_key 3 5).
  - exact (env_stopped_from_cancelled 3).
  - lia.
Defined.

(** In tap and double mode, with a controller that does not raise: no
    exception ends the run, the hold flag is never set, and at every point
    where the thread can be observed the calls it has made are whole taps of
    the sequence (every key down in order, then up in reverse order), one
    per counted cycle in tap mode and two in double mode.  So every key the
    run pressed it has released. *)
Theorem key_worker_whole_taps (env : Env) (st : Key.KeyPressSettings)
    (fuel : nat) :
  no_failures env -> String.eqb (Key.mode st) "hold" = false ->
  wp env (Key.key_worker fuel st)
     (fun s' r =>
        (forall msg, r <> Raise msg)
        /\ Key.key_hold_active (snd s') = false
        /\ (0 <= Key.key_cycles_recorded (snd s'))%Z
        /\ calls (trace (fst s'))
           = concat (replicate
                       (Key.repeats st
                        * Z.to_nat (Key.key_cycles_recorded (snd s')))
                       (map KeyPress (Key.sequence st)
                        ++ map KeyRelease (rev (Key.sequence st)))%list))
     (io0, Key.run0).
Proof.
  intros Hnf Hmode. unfold Key.key_worker.
  apply wp_try_finally, wp_try_except, wp_bind.
  eapply wp_mono; [|apply start_delay_phase_silent].
  intros [io1 r1] r (Hr & Ht & _ & Hn). cbn [fst snd] in *. subst r1.
  assert (H1 : taps_inv env st (io1, Key.run0)).
  { split; [done|]. split; [done|]. intros _. cbn [fst snd].
    unfold calls. rewrite Ht. cbn. by rewrite Nat.mul_0_r. }
  destruct r as [[]|msg|]; [|by destruct (Hn msg)|].
  2:{ destruct H1 as (Hh & Hc & Hq). repeat split; try done.
      by apply Hq. }
  wp_steps. eapply wp_mono; [|apply (key_loop_taps env st fuel _ Hmode)].
  2:{ by apply (taps_inv_log env st _ (io1, Key.run0)). }
  intros s2 r2 (Hh2 & Hc2 & Hq2).
  destruct r2 as [[]|msg|].
  - eapply wp_mono; [|apply key_cleanup_releases].
    intros s3 r3 (-> & Hh3 & _ & Hc3 & _ & Hi3).
    split; [done|]. split; [done|]. rewrite Hc3. split; [done|].
    unfold calls at 1. rewrite (Hi3 Hh2). by apply Hq2.
  - wp_prim. cbn [fst snd]. eapply wp_mono; [|apply key_cleanup_releases].
    intros s3 r3 (-> & Hh3 & _ & Hc3 & _ & Hi3). cbn [fst snd] in *.
    split; [done|]. split; [done|]. rewrite Hc3.
    cbn [Key.set_reason Key.key_cycles_recorded]. split; [done|].
    unfold calls at 1. rewrite (Hi3 Hh2). by apply Hq2.
  - repeat split; try done. by apply Hq2.
Qed.

Lemma key_worker_whole_taps_witness :
  wp env_quiet (Key.key_worker 3 (key_settings "double" 2 500 false))
     (fun s' r =>
        (forall msg, r <> Raise msg)
        /\ Key.key_hold_active (snd s') = false
        /\ (0 <= Key.key_cycles_recorded (snd s'))%Z
        /\ calls (trace (fst s'))
           = concat (replicate
                       (Key.repeats (key_settings "double" 2 500 false)
                        * Z.to_nat (Key.key_cycles_recorded (snd s')))
                       (map KeyPress
                          (Key.sequence (key_settings "double" 2 500 false))
                        ++ map KeyRelease
                             (rev (Key.sequence
                                     (key_settings "double" 2 500 false))))%list))
     (io0, Key.run0).
Proof.
  apply (key_worker_whole_taps env_quiet (key_settings "double" 2 500 false) 3).
  - intros k. reflexivity.
  - reflexivity.
Defined.

(* ===================================================================== *)
(** * Hold mode and the action limit *)
(* ===================================================================== *)

(** ** A run that gets going *)

Section ForEachReturns.

Context {R A : Type} (env : Env) (f : A -> call).

(** With a controller that does not raise, every call of a sequence is
    made and returns. *)
Lemma for_each_inject_returns (l : list A) (s : IO * R) :
  no_failures env ->
  wp env (for_each l (fun x => inject (f x)))
     (fun s' r =>
        r = Ok tt /\ snd s' = snd s /\ polls (fst s') = polls (fst s)
        /\ trace (fst s')
           = (trace (fst s)
              ++ map as_event (map (fun c => (c, true)) (map f l)))%list) s.
Proof.
  intros Hnf. revert s. induction l as [|x l IH]; intros s;
    cbn [for_each map].
  - wp_prim. by rewrite app_nil_r.
  - wp_prim. apply wp_inject. intros ok [[]|msg|] Hok; [| |done].
    + destruct Hok as [-> _]. eapply wp_mono; [|apply IH].
      intros s' r (-> & Hs & Hp & Ht). io_simpl.
      split; [done|]. split; [done|]. split; [done|].
      by rewrite Ht, <- app_assoc.
    + destruct Hok as [_ Herr]. rewrite Hnf in Herr. discriminate.
Qed.

End ForEachReturns.

Section ClickHold.

Import Click.
Variable env : Env.
Variable st : ClickSettings.
Hypothesis Hmode : String.eqb (mode st) "hold" = true.

(** The button is down: it was pressed once, and nothing is counted. *)
Definition hold_down (s : IO * Run) : Prop :=
  clicks_recorded (snd s) = 0%Z /\ hold_pressed (snd s) = true
  /\ injects (trace (fst s)) = [(MousePress (button st), true)].

Lemma hold_down_log e s :
  (forall c ok, e <> Inject c ok) -> hold_down s ->
  hold_down (log e (fst s), snd s).
Proof.
  intros He (Hc & Hh & Ht). split; [done|]. split; [done|]. io_simpl.
  rewrite injects_snoc, Ht. destruct e; try done. by destruct (He c ok).
Qed.

(** Once the button is down the loop leaves it down, makes no further
    call and raises nothing. *)
Lemma loop_hold_down fuel s :
  hold_down s ->
  wp env (loop fuel st)
     (fun s' r => hold_down s' /\ forall msg, r <> Raise msg) s.
Proof.
  revert s. induction fuel as [|fuel IH]; intros s Hd; cbn [loop];
    [by wp_prim|].
  wp_steps. destruct (stop_at _ _); [by wp_prim|]. wp_steps.
  destruct (limit_enabled st && _); [by wp_prim|].
  rewrite Hmode. wp_prim. destruct Hd as (Hc & Hh & Ht). rewrite Hh.
  cbn [negb]. wp_steps.
  assert (Hd' : hold_down (log (Wait 0.05 (stop_at env (S (polls (fst s)))))
                               (next_poll (next_poll (fst s))), snd s))
    by (by apply (hold_down_log _ (_, snd s))).
  io_simpl. destruct (stop_at _ _); [by wp_prim|by apply IH].
Qed.

(** A loop that finds the stop event clear at its first look, with the
    limit not reached yet, presses the button; if the press returns the
    button stays down until the loop is left. *)
Lemma loop_hold_starts fuel s :
  clicks_recorded (snd s) = 0%Z -> hold_pressed (snd s) = false ->
  injects (trace (fst s)) = [] ->
  stop_at env (polls (fst s)) = false -> (0 < fuel)%nat ->
  (limit_enabled st = true -> (0 < limit_count st)%Z) ->
  wp env (loop fuel st)
     (fun s' r =>
        match r with
        | Raise _ => hold_failed st s' /\ ¬ no_failures env
        | _ => hold_down s'
        end) s.
Proof.
  intros Hc Hh Ht Hclear Hfuel Hlim. destruct fuel as [|fuel]; [lia|].
  cbn [loop]. wp_steps. rewrite Hclear. wp_steps.
  assert (El : limit_enabled st && (limit_count st <=? clicks_recorded (snd s))%Z
               = false).
  { destruct (limit_enabled st); [|done]. rewrite Hc. cbn [andb].
    apply Z.leb_gt. by apply Hlim. }
  rewrite El, Hmode. wp_prim. rewrite Hh. cbn [negb].
  wp_prim. apply wp_inject. intros ok [[]|msg|] Hok; [| |done].
  - destruct Hok as [-> _]. wp_steps.
    assert (Hd : hold_down
              (log (Wait 0.05 (stop_at env (S (polls (fst s)))))
                 (next_poll
                    (log (Inject (MousePress (button st)) true)
                       (next_injection (next_poll (fst s))))),
               set_hold true (snd s))).
    { split; [done|]. split; [done|]. io_simpl.
      by rewrite !injects_snoc, Ht. }
    io_simpl. destruct (stop_at env (S (polls (fst s)))); [by wp_prim|].
    eapply wp_mono; [|by apply loop_hold_down].
    intros s' [[]|msg|] [Hd' Hn]; [done|by destruct (Hn msg)|done].
  - destruct Hok as [-> Herr]. split.
    + split; [done|]. split; [done|]. io_simpl.
      by rewrite injects_snoc, Ht.
    + intros Hnf. rewrite Hnf in Herr. discriminate.
Qed.

(** What the [finally] block makes of a run that pressed. *)
Lemma cleanup_hold_started s :
  hold_down s \/ hold_failed st s ->
  wp env (cleanup st)
     (fun s' r =>
        r = Ok tt /\ clicks_recorded (snd s') = 0%Z
        /\ hold_pressed (snd s') = false
        /\ ((hold_failed st s
             /\ injects (trace (fst s'))
                = [(MousePress (button st), false)])
            \/ (hold_down s
                /\ exists ok,
                    injects (trace (fst s'))
                    = [(MousePress (button st), true);
                       (MouseRelease (button st), ok)]
                    /\ (no_failures env -> ok = true)))) s.
Proof.
  intros Hs. unfold cleanup. wp_steps.
  destruct Hs as [(Hc & Hh & Ht)|(Hc & Hh & Ht)]; rewrite Hh.
  - wp_steps. apply wp_inject. intros ok r Hok.
    assert (Hok' : no_failures env -> ok = true).
    { intros Hnf. destruct r as [[]|msg|]; [by destruct Hok| |done].
      destruct Hok as [_ Herr]. rewrite Hnf in Herr. discriminate. }
    destruct r as [[]|msg|]; [| |done]; wp_steps; io_simpl;
      (split; [done|]); (split; [done|]); (split; [done|]); right;
      (split; [done|]); exists ok; by rewrite !injects_snoc, Ht.
  - wp_steps. io_simpl. split; [done|]. split; [done|]. split; [done|].
    left. split; [done|]. by rewrite injects_snoc, Ht.
Qed.

(** A hold-mode run whose stop event is clear for its first [n + 1] looks
    and whose start delay is over within [n] rounds presses the button,
    exactly once; when it has exited it has released it, exactly once,
    unless the press itself raised. *)
Lemma click_worker_hold_starts fuel n :
  (forall k, (k <= n)%nat -> stop_at env k = false) ->
  start_delay_over env (start_delay st) n -> (n < fuel)%nat ->
  (limit_enabled st = true -> (0 < limit_count st)%Z) ->
  wp env (click_worker fuel st)
     (fun s' r =>
        clicks_recorded (snd s') = 0%Z
        /\ match r with
           | Pending => hold_down s'
           | Ok _ =>
               hold_pressed (snd s') = false
               /\ ((injects (trace (fst s'))
                    = [(MousePress (button st), false)]
                    /\ ¬ no_failures env)
                   \/ exists ok,
                       injects (trace (fst s'))
                       = [(MousePress (button st), true);
                          (MouseRelease (button st), ok)]
                       /\ (no_failures env -> ok = true))
           | Raise _ => False
           end) (io0, run0).
Proof.
  intros Hclear Hover Hfuel Hlim. unfold click_worker.
  apply wp_try_finally, wp_try_except, wp_bind.
  eapply wp_mono.
  2:{ apply wp_conj; [apply start_delay_phase_silent
                     |apply (start_delay_phase_over env _ fuel _ n)];
        [exact Hover|lia|exact Hclear]. }
  intros [io1 r1] r [(Hr & Ht & _) [-> Hc1]]. cbn [fst snd] in *. subst r1.
  wp_steps. eapply wp_mono.
  2:{ apply loop_hold_starts; try done; [|lia]. io_simpl.
      by rewrite injects_snoc, Ht. }
  intros s2 [[]|msg|] H2.
  - eapply wp_mono; [|apply cleanup_hold_started; by left].
    intros s3 r3 (-> & Hc3 & Hh3 & [[(_ & Hf & _) _]|[_ (ok & Hi & Hok)]]).
    { destruct H2 as (_ & Hd & _). congruence. }
    split; [done|]. split; [done|]. right. by exists ok.
  - destruct H2 as [Hf Hnf]. wp_prim.
    eapply wp_mono; [|apply cleanup_hold_started; by right].
    intros s3 r3 (-> & Hc3 & Hh3 & [[_ Hi]|[(_ & Hd & _) _]]).
    2:{ destruct Hf as (_ & Hf & _). cbn [fst snd set_reason hold_pressed] in *.
        congruence. }
    split; [done|]. split; [done|]. by left.
  - by destruct H2 as (Hc2 & Hh2 & Ht2).
Qed.

End ClickHold.

Section KeyHold.

Import Key.
Variable env : Env.
Variable st : KeyPressSettings.
Hypothesis Hmode : String.eqb (mode st) "hold" = true.

(** The sequence is down: every key was pressed, once and in order, and
    the cycle counter is 1. *)
Definition key_hold_down (s : IO * Run) : Prop :=
  key_hold_active (snd s) = true /\ key_cycles_recorded (snd s) = 1%Z
  /\ injects (trace (fst s)) = map (fun c => (c, true)) (presses st).

Lemma key_hold_down_log e s :
  (forall c ok, e <> Inject c ok) -> key_hold_down s ->
  key_hold_down (log e (fst s), snd s).
Proof.
  intros He (Hh & Hc & Ht). split; [done|]. split; [done|]. io_simpl.
  rewrite injects_snoc, Ht. destruct e; try by rewrite app_nil_r.
  by destruct (He c ok).
Qed.

(** Once the sequence is down the loop leaves it down, makes no further
    call, counts nothing more and raises nothing. *)
Lemma key_loop_hold_down fuel s :
  key_hold_down s ->
  wp env (loop fuel st)
     (fun s' r => key_hold_down s' /\ forall msg, r <> Raise msg) s.
Proof.
  revert s. induction fuel as [|fuel IH]; intros s Hd; cbn [loop];
    [by wp_prim|].
  wp_steps. destruct (stop_at _ _); [by wp_prim|]. wp_steps.
  destruct (limit_enabled st && _); [by wp_prim|].
  rewrite Hmode. wp_prim. destruct Hd as (Hh & Hc & Ht). rewrite Hh.
  cbn [negb]. wp_steps.
  assert (Hd' : key_hold_down
                  (log (Wait 0.05 (stop_at env (S (polls (fst s)))))
                       (next_poll (next_poll (fst s))), snd s))
    by (by apply (key_hold_down_log _ (_, snd s))).
  io_simpl. destruct (stop_at _ _); [by wp_prim|by apply IH].
Qed.

(** A loop that finds the stop event clear at its first look, with the
    limit not reached yet, presses the sequence; if every press returns
    the counter becomes 1 and the sequence stays down until the loop is
    left. *)
Lemma key_loop_hold_starts fuel s :
  key_hold_active (snd s) = false -> key_cycles_recorded (snd s) = 0%Z ->
  injects (trace (fst s)) = [] ->
  stop_at env (polls (fst s)) = false -> (0 < fuel)%nat ->
  (limit_enabled st = true -> (0 < limit_count st)%Z) ->
  wp env (loop fuel st)
     (fun s' r =>
        match r with
        | Raise _ => key_hold_failed st s' /\ ¬ no_failures env
        | _ => key_hold_down s'
        end) s.
Proof.
  intros Hh Hc Ht Hclear Hfuel Hlim. destruct fuel as [|fuel]; [lia|].
  cbn [loop]. wp_steps. rewrite Hclear. wp_steps.
  assert (El : limit_enabled st
               && (limit_count st <=? key_cycles_recorded (snd s))%Z
               = false).
  { destruct (limit_enabled st); [|done]. rewrite Hc. cbn [andb].
    apply Z.leb_gt. by apply Hlim. }
  rewrite El, Hmode. wp_prim. rewrite Hh. cbn [negb].
  wp_prim. unfold press_sequence. eapply wp_mono.
  2:{ apply wp_conj; [apply for_each_inject|apply for_each_inject_calls]. }
  intros [io1 r1] r [(Hs1 & (out & ok & Hat & Ht1 & Hr1) & _)
                       (_ & Hp1 & _ & Hq1)].
  cbn [fst snd] in *. subst r1. io_simpl.
  destruct r as [[]|msg|]; [| |done].
  - subst ok. apply attempt_true in Hat. wp_steps.
    cbn [set_hold key_cycles_recorded]. rewrite Hc. cbn [Z.eqb].
    assert (Hd : key_hold_down
              (log (Wait 0.05 (stop_at env (polls io1))) (next_poll io1),
               set_cycles 1
                 {| key_cycles_recorded := 0; key_hold_active := true;
                    key_run_reason := key_run_reason (snd s) |})).
    { split; [done|]. split; [done|]. io_simpl.
      rewrite injects_snoc, Ht1, injects_app, Ht, injects_as_event, Hat.
      by rewrite app_nil_r. }
    destruct (stop_at env (polls io1)); [by wp_prim|].
    eapply wp_mono; [|by apply key_loop_hold_down].
    intros s' [[]|msg|] [Hd' Hn]; [done|by destruct (Hn msg)|done].
  - subst ok. split.
    + split; [done|]. split; [done|]. cbn [fst].
      by rewrite Ht1, injects_app, Ht, injects_as_event.
    + intros Hnf. by destruct (Hq1 Hnf).
Qed.

(** What the [finally] block makes of a run that pressed. *)
Lemma key_cleanup_hold_started s :
  key_hold_down s \/ key_hold_failed st s ->
  wp env (cleanup st)
     (fun s' r =>
        r = Ok tt /\ key_hold_active (snd s') = false
        /\ key_cycles_recorded (snd s') = key_cycles_recorded (snd s)
        /\ ((key_hold_failed st s
             /\ injects (trace (fst s')) = injects (trace (fst s)))
            \/ (key_hold_down s
                /\ exists rel ok,
                    attempt (releases st) rel ok
                    /\ injects (trace (fst s'))
                       = (map (fun c => (c, true)) (presses st) ++ rel)%list
                    /\ (no_failures env -> ok = true)))) s.
Proof.
  intros Hs. unfold cleanup. wp_steps.
  destruct Hs as [(Hh & Hc & Ht)|(Hh & Hc & Ht)]; rewrite Hh.
  - wp_steps. unfold release_sequence. eapply wp_mono.
    2:{ apply wp_conj; [apply for_each_inject|apply for_each_inject_calls]. }
    intros [io1 r1] r [(Hs1 & (rel & ok & Hat & Ht1 & Hr1) & _)
                         (_ & _ & _ & Hq1)].
    cbn [fst snd] in *. subst r1.
    assert (Hok : no_failures env -> ok = true).
    { intros Hnf. destruct (Hq1 Hnf) as [-> _]. exact Hr1. }
    destruct r as [[]|msg|]; [| |done]; wp_steps; io_simpl;
      (split; [done|]); (split; [done|]); (split; [done|]); right;
      (split; [done|]); exists rel, ok; (split; [exact Hat|]);
      (split; [|exact Hok]);
      by rewrite injects_snoc, Ht1, injects_app, Ht, injects_as_event,
        app_nil_r.
  - wp_steps. io_simpl. split; [done|]. split; [done|]. split; [done|].
    left. split; [done|]. by rewrite injects_snoc, app_nil_r.
Qed.

(** A hold-mode run whose stop event is clear for its first [n + 1] looks
    and whose start delay is over within [n] rounds presses the sequence,
    once; if every press returns the counter is 1 from then on, and when
    the run has exited it has gone once through the release of the
    sequence. *)
Lemma key_worker_hold_starts fuel n :
  (forall k, (k <= n)%nat -> stop_at env k = false) ->
  start_delay_over env (start_delay st) n -> (n < fuel)%nat ->
  (limit_enabled st = true -> (0 < limit_count st)%Z) ->
  wp env (key_worker fuel st)
     (fun s' r =>
        match r with
        | Pending => key_hold_down s'
        | Ok _ =>
            key_hold_active (snd s') = false
            /\ ((key_cycles_recorded (snd s') = 0%Z
                 /\ attempt (presses st) (injects (trace (fst s'))) false
                 /\ ¬ no_failures env)
                \/ (key_cycles_recorded (snd s') = 1%Z
                    /\ exists rel ok,
                        attempt (releases st) rel ok
                        /\ injects (trace (fst s'))
                           = (map (fun c => (c, true)) (presses st)
                              ++ rel)%list
                        /\ (no_failures env -> ok = true)))
        | Raise _ => False
        end) (io0, run0).
Proof.
  intros Hclear Hover Hfuel Hlim. unfold key_worker.
  apply wp_try_finally, wp_try_except, wp_bind.
  eapply wp_mono.
  2:{ apply wp_conj; [apply start_delay_phase_silent
                     |apply (start_delay_phase_over env _ fuel _ n)];
        [exact Hover|lia|exact Hclear]. }
  intros [io1 r1] r [(Hr & Ht & _) [-> Hc1]]. cbn [fst snd] in *. subst r1.
  wp_steps. eapply wp_mono.
  2:{ apply key_loop_hold_starts; try done; [|lia]. io_simpl.
      by rewrite injects_snoc, Ht. }
  intros s2 [[]|msg|] H2.
  - eapply wp_mono; [|apply key_cleanup_hold_started; by left].
    intros s3 r3 (-> & Hh3 & Hc3 & [[(Hf & _) _]|[_ (rel & ok & Hat & Hi & Hok)]]).
    { destruct H2 as (Hd & _). congruence. }
    split; [done|]. right. destruct H2 as (_ & Hc2 & _).
    split; [congruence|]. by exists rel, ok.
  - destruct H2 as [Hf Hnf]. wp_prim.
    eapply wp_mono; [|apply key_cleanup_hold_started; by right].
    intros s3 r3 (-> & Hh3 & Hc3 & [[_ Hi]|[(Hd & _) _]]).
    2:{ destruct Hf as (Hf & _).
        cbn [fst snd set_reason key_hold_active] in *. congruence. }
    split; [done|]. left. destruct Hf as (_ & Hc2 & Hat).
    cbn [fst snd set_reason key_cycles_recorded] in *.
    split; [congruence|]. split; [|done]. by rewrite Hi.
  - exact H2.
Qed.

End KeyHold.



(** The run reaches its first cycle: its stop event is clear for the first
    [n + 1] looks and its start delay, if it has one, is over within [n]
    rounds of the countdown. *)
Definition gets_going (env : Env) (start_delay : Q) (n : nat) : Prop :=
  (forall k, (k <= n)%nat -> stop_at env k = false)
  /\ start_delay_over env start_delay n.

Lemma env_stopped_from_gets_going n :
  gets_going (env_stopped_from (S n)) 0 n.
Proof.
  split; [|left; apply Qle_refl].
  intros k Hk. simpl. destruct k as [|k]; [done|]. apply Nat.leb_gt. lia.
Qed.

Lemma env_stopped_from_no_failures n : no_failures (env_stopped_from n).
Proof. by intros k. Qed.

(** ** Hold mode *)




(** C9: in hold mode the click worker's counter is 0 for the whole run,
    while the key worker's cycle counter is 1 from the moment the hold press
    has completed (and never more), and 0 until then.  Both workers do
    press: in a run that reaches its first cycle the click worker calls the
    press and still counts 0, and the key worker, with a controller that
    does not raise, presses the sequence and has its counter at 1 from then
    on, however long the run goes on and however it ends. *)
Theorem C9_hold_counters (env : Env) (fuel n : nat)
    (st : Click.ClickSettings) (kst : Key.KeyPressSettings) :
  Click.mode st = "hold" -> Key.mode kst = "hold" -> Key.sequence kst ≠ [] ->
  wp env (Click.click_worker fuel st)
     (fun s' _ => Click.clicks_recorded (snd s') = 0%Z) (io0, Click.run0)
  /\ wp env (Key.key_worker fuel kst)
       (fun s' _ =>
          (Key.key_cycles_recorded (snd s') = 1%Z
           /\ map (fun c => (c, true)) (presses kst)
                `prefix_of` injects (trace (fst s')))
          \/ (Key.key_cycles_recorded (snd s') = 0%Z
              /\ ¬ map (fun c => (c, true)) (presses kst)
                     `prefix_of` injects (trace (fst s'))))
       (io0, Key.run0)
  /\ (gets_going env (Click.start_delay st) n -> (n < fuel)%nat ->
      (Click.limit_enabled st = true -> (0 < Click.limit_count st)%Z) ->
      wp env (Click.click_worker fuel st)
         (fun s' _ =>
            Click.clicks_recorded (snd s') = 0%Z
            /\ exists ok,
                [(MousePress (Click.button st), ok)]
                  `prefix_of` injects (trace (fst s')))
         (io0, Click.run0))
  /\ (gets_going env (Key.start_delay kst) n -> (n < fuel)%nat ->
      (Key.limit_enabled kst = true -> (0 < Key.limit_count kst)%Z) ->
      no_failures env ->
      wp env (Key.key_worker fuel kst)
         (fun s' r =>
            Key.key_cycles_recorded (snd s') = 1%Z
            /\ map (fun c => (c, true)) (presses kst)
                 `prefix_of` injects (trace (fst s'))
            /\ forall msg, r <> Raise msg)
         (io0, Key.run0)).
Proof.
  intros Hm Hkm Hseq. apply String.eqb_eq in Hm, Hkm.
  refine (conj _ (conj _ (conj _ _))).
  - eapply wp_mono; [|apply (click_worker_hold env st fuel Hm)].
    by intros s' r [H _].
  - assert (Hne : ¬ map (fun c => (c, true)) (presses kst) `prefix_of` []).
    { intros Hp. apply prefix_nil_inv in Hp. unfold presses in Hp.
      destruct (Key.sequence kst); [done|discriminate]. }
    eapply wp_mono; [|apply (key_worker_hold env kst fuel Hkm)].
    intros s' [[]|msg|] H; [|done|].
    + destruct H as [Hh [(Hc & Ht & _)|[[Hc H]|(Hc & rel & ok & _ & Ht)]]].
      * right. by rewrite Ht.
      * right. split; [done|]. by apply attempt_false_prefix.
      * left. split; [done|]. rewrite Ht. by apply prefix_app_r.
    + destruct H as [(_ & Hc & Ht & _)|(_ & Hc & Ht)].
      * right. by rewrite Ht.
      * left. by rewrite Ht.
  - intros [Hclear Hover] Hf Hlim.
    eapply wp_mono;
      [|apply (click_worker_hold_starts env st Hm fuel n Hclear Hover Hf Hlim)].
    intros s' r [Hc H]. split; [done|]. destruct r as [[]|msg|]; [|done|].
    + destruct H as [_ [[H _]|(ok & H & _)]]; rewrite H.
      * by exists false.
      * exists true. apply prefix_cons, prefix_nil.
    + destruct H as (_ & _ & Ht). rewrite Ht. by exists true.
  - intros [Hclear Hover] Hf Hlim Hnf.
    eapply wp_mono;
      [|apply (key_worker_hold_starts env kst Hkm fuel n Hclear Hover Hf
                 Hlim)].
    intros s' [[]|msg|] H; [|done|].
    + destruct H as [_ [(_ & _ & Hno)|(Hc & rel & ok & _ & Ht & _)]];
        [by destruct Hno|].
      split; [done|]. split; [|done]. rewrite Ht. by apply prefix_app_r.
    + destruct H as (_ & Hc & Ht). split; [done|]. split; [|done].
      by rewrite Ht.
Qed.

Lemma C9_hold_counters_witness :
  wp (env_stopped_from 3)
     (Key.key_worker 9 (key_settings "hold" 1 500 false))
     (fun s' r =>
        Key.key_cycles_recorded (snd s') = 1%Z
        /\ map (fun c => (c, true)) (presses (key_settings "hold" 1 500 false))
             `prefix_of` injects (trace (fst s'))
        /\ forall msg, r <> Raise msg)
     (io0, Key.run0).
Proof.
  destruct (C9_hold_counters (env_stopped_from 3) 9 2
              (click_settings "hold" 1 500 false)
              (key_settings "hold" 1 500 false) eq_refl eq_refl
              ltac:(discriminate))
    as (_ & _ & _ & Hkey).
  apply Hkey.
  - exact (env_stopped_from_gets_going 2).
  - lia.
  - discriminate.
  - exact (env_stopped_from_no_failures 3).
Defined.

(** ** The action limit *)





(** ** An interval that [threading] refuses *)

(** A snapshot with a ten-week interval, which the form accepts: on a
    platform whose [TIMEOUT_MAX] is 4294967 s the wait between two cycles
    is refused. *)
Definition ten_week_clicks : Click.ClickSettings :=
  {| Click.button := left; Click.mode := "single";
     Click.base_interval := 6048000; Click.jitter := 0;
     Click.burst_count := 1; Click.start_delay := 0;
     Click.limit_enabled := false; Click.limit_count := 500 |}.

(** The form puts no upper bound on the delay, and a wait between cycles
    that exceeds [threading.TIMEOUT_MAX] raises [OverflowError]: in a run
    without start delay and without jitter that nothing else disturbs, the
    click worker makes the clicks of its first burst, is refused the wait,
    and exits with the error as its reason, the button up and the clicks
    counted. *)
Theorem click_worker_interval_refused (env : Env)
    (st : Click.ClickSettings) (fuel : nat) :
  quiet env -> String.eqb (Click.mode st) "hold" = false ->
  (Click.start_delay st <= 0)%Q -> (Click.jitter st <= 0)%Q ->
  (timeout_max env < Click.base_interval st)%Q ->
  (0 <= Click.burst_count st)%Z ->
  (Click.limit_enabled st = true -> (0 < Click.limit_count st)%Z) ->
  (0 < fuel)%nat ->
  wp env (Click.click_worker fuel st)
     (fun s' r =>
        r = Ok tt
        /\ Click.run_reason (snd s') = "Error: " ++ overflow_message env
        /\ Click.hold_pressed (snd s') = false
        /\ Click.clicks_recorded (snd s')
           = (Click.burst_count st
              * (if String.eqb (Click.mode st) "double" then 2 else 1))%Z)
     (io0, Click.run0).
Proof.
  intros Hq Hmode Hsd Hj Hlong Hburst Hlim Hfuel.
  pose proof Hq as [Hstop _].
  destruct fuel as [|fuel]; [lia|]. unfold Click.click_worker.
  apply wp_try_finally, wp_try_except, wp_bind.
  unfold start_delay_phase.
  rewrite (proj2 (Qlt_bool_false 0 (Click.start_delay st)) Hsd).
  wp_steps. cbn [Click.loop]. wp_steps. rewrite Hstop. wp_steps.
  assert (El : Click.limit_enabled st
               && (Click.limit_count st
                   <=? Click.clicks_recorded Click.run0)%Z = false).
  { destruct (Click.limit_enabled st); [|done]. cbn [andb].
    apply Z.leb_gt. by apply Hlim. }
  rewrite El, Hmode. wp_prim. eapply wp_mono.
  2:{ apply wp_conj; [apply (burst_quiet env st _ _ Hq)|apply burst_spec]. }
  intros s1 r1 [[-> Hc] [(Hh & Hr & _) _]]. io_simpl.
  wp_prim. unfold Click.next_delay.
  rewrite (proj2 (Qlt_bool_false 0 (Click.jitter st)) Hj). wp_steps.
  - intros [Hset|Hle]; [by rewrite Hstop in Hset|].
    by destruct (Qlt_not_le _ _ Hlong).
  - intros _ _. unfold Click.cleanup. wp_steps.
    cbn [Click.set_reason Click.hold_pressed]. rewrite Hh.
    cbn [Click.run0 Click.hold_pressed]. wp_steps.
    cbn [Click.set_reason Click.run_reason Click.hold_pressed
         Click.clicks_recorded].
    rewrite Hh, Hc. cbn [Click.run0 Click.hold_pressed Click.clicks_recorded].
    unfold Click.click_count. rewrite Z2Nat.id by done.
    by repeat split.
Qed.

Lemma click_worker_interval_refused_witness :
  wp env_quiet (Click.click_worker 1 ten_week_clicks)
     (fun s' r =>
        r = Ok tt
        /\ Click.run_reason (snd s') = "Error: " ++ overflow_message env_quiet
        /\ Click.hold_pressed (snd s') = false
        /\ Click.clicks_recorded (snd s')
           = (Click.burst_count ten_week_clicks
              * (if String.eqb (Click.mode ten_week_clicks) "double"
                 then 2 else 1))%Z)
     (io0, Click.run0).
Proof.
  apply (click_worker_interval_refused env_quiet ten_week_clicks 1).
  - exact env_quiet_quiet.
  - reflexivity.
  - discriminate.
  - discriminate.
  - reflexivity.
  - discriminate.
  - discriminate.
  - lia.
Defined.
